(** * EdgeNet controllers: a shallow embedding of the reconciliation engine

  The development follows the Go sources:
  - [pkg/controller/v1alpha/project/controller.go] (the project controller:
    informer closures, [run], [runWorker], [processNextItem], [dry]);
  - the authority controller (same engine, events without a change summary);
  - the node labeler's [Handler.SetNodeGeolocation];
  - [pkg/controller/v1alpha/team/handler.go] (the team handler);
  - [config/crd/selectivedeployment.yaml] (the selector clause schema);
  - the cluster roles the two [Start] functions set up, [generateRandomString],
    and the API group of [pkg/apis/apps/v1alpha].

  Go strings are [string]; a slice is a [list]; [interface{}] values that may be
  [nil] are [option]s; maps are [gmap]s. *)

From stdpp Require Import base option list gmap strings.
From Stdlib Require Import ZArith Lia.

Local Open Scope string_scope.
Local Open Scope list_scope.
Local Open Scope stdpp_scope.

(** ** [dry]: the users removed from a project *)

Module Dry.
Section Dry.
(** [apps_v1alpha.ProjectUsers] is declared outside the files at hand; [dry]
    reads its [Site] and [Username] fields only. *)
Context {ProjectUsers : Type}.
Variable Site : ProjectUsers → string.
Variable Username : ProjectUsers → string.

(** [fmt.Sprintf("%s?/delta/? %s", oldValue.Site, oldValue.Username)] *)
Definition Sprintf_delta (site username : string) : string :=
  site +:+ "?/delta/? " +:+ username.

(** The inner [for _, newValue := range newProject] loop: [exists] starts
    [false] and is set when both fields agree. *)
Definition dry_inner (oldValue : ProjectUsers) (newProject : list ProjectUsers) : bool :=
  foldl (λ exists_ newValue,
           if String.eqb (Site oldValue) (Site newValue)
              && String.eqb (Username oldValue) (Username newValue)
           then true else exists_)
        false newProject.

(** The outer loop appends to [uniqueProject], which starts as the nil slice. *)
Definition dry (oldProject newProject : list ProjectUsers) : list string :=
  foldl (λ uniqueProject oldValue,
           if negb (dry_inner oldValue newProject)
           then uniqueProject ++ [Sprintf_delta (Site oldValue) (Username oldValue)]
           else uniqueProject)
        [] oldProject.

(** The property in the words of the description: the [(Site, Username)]
    pair of [o] appears in some element of [newProject]. *)
Definition pair_appears (newProject : list ProjectUsers) (o : ProjectUsers) : Prop :=
  ∃ n, n ∈ newProject ∧ Site o = Site n ∧ Username o = Username n.

#[global] Instance pair_appears_dec newProject o : Decision (pair_appears newProject o).
Proof.
  refine (cast_if (decide (Exists (λ n, Site o = Site n ∧ Username o = Username n) newProject)));
    unfold pair_appears; rewrite Exists_exists in *; naive_solver.
Defined.

(** One entry per element of [oldProject] whose pair is absent from
    [newProject], in the order of [oldProject]. *)
Definition dry_spec (oldProject newProject : list ProjectUsers) : list string :=
  (λ o, Sprintf_delta (Site o) (Username o))
    <$> filter (λ o, ¬ pair_appears newProject o) oldProject.

End Dry.
End Dry.

(** ** The node labeler: [Handler.SetNodeGeolocation] *)

Module Nodelabeler.

(** Which address of the node a lookup was made for. *)
Inductive source := External | Internal.

#[global] Instance source_eq_dec : EqDecision source.
Proof. solve_decision. Defined.

Section SetNodeGeolocation.
(** [Node] is [*api_v1.Node]; [Cluster] is whatever sits behind the handler's
    clientset. [node.GetNodeIPAddresses] and [node.GetGeolocationByIP] belong
    to package [edgenet/pkg/node]: the first returns
    [(internalIP, externalIP)], the second labels the node through the
    clientset and reports whether the lookup succeeded. *)
Context {Node Cluster : Type}.
Variable Name : Node → string.
Variable GetNodeIPAddresses : Node → string * string.
Variable GetGeolocationByIP : string → string → Cluster → bool * Cluster.

(** The handler's view of the world: the cluster, and the lookups made so
    far (oldest first). *)
Record state := State { cluster : Cluster; lookups : list (source * string) }.

Definition lookup_by (src : source) (name ip : string) (s : state) : bool * state :=
  let '(result, c) := GetGeolocationByIP name ip (cluster s) in
  (result, State c (lookups s ++ [(src, ip)])).

Definition SetNodeGeolocation (obj : Node) (s : state) : state :=
  let '(internalIP, externalIP) := GetNodeIPAddresses obj in
  let result := false in
  (* if externalIP != "" { result, _ = node.GetGeolocationByIP(...) } *)
  let '(result, s) :=
    if negb (String.eqb externalIP "")
    then lookup_by External (Name obj) externalIP s
    else (result, s) in
  (* if internalIP != "" && result == false { node.GetGeolocationByIP(...) } *)
  if negb (String.eqb internalIP "") && Bool.eqb result false
  then snd (lookup_by Internal (Name obj) internalIP s)
  else s.

End SetNodeGeolocation.
End Nodelabeler.

(** ** The reconciliation engine shared by the controllers *)

Module Engine.

(** Constant variables for events *)
Definition create : string := "create".
Definition update : string := "update".
Definition delete : string := "delete".

(** How a call ends. Besides returning, a goroutine may be panicking (its
    deferred calls still run), or blocked in [queue.Get] waiting for an item;
    an unrecovered panic terminates the process, after which nothing runs.
    [Exhausted] belongs to the model only: the fuel of a loop ran out. *)
Inductive outcome (A : Type) : Type :=
| Ret (a : A)
| Panic (v : string)
| Parked
| Crashed (v : string)
| Exhausted.
Arguments Ret {A} a.
Arguments Panic {A} v.
Arguments Parked {A}.
Arguments Crashed {A} v.
Arguments Exhausted {A}.

Section Engine.
(** [U] is the type of [informerevent.updated]: [fields] in the project
    controller, nothing ([unit]) in the authority controller. [Obj] is the
    watched resource, [World] whatever the handler reads and writes. *)
Context {U Obj World : Type} `{EqDecision U}.

(** The main structure of informerEvent *)
Record informerevent := Informerevent {
  key : string;
  function : string;
  updated : U }.

#[global] Instance informerevent_eq_dec : EqDecision informerevent.
Proof. solve_decision. Defined.

(** What the queue holds ([interface{}]): the closures add [informerevent]
    values, [processNextItem] adds bare key strings when it retries. *)
Inductive item :=
| EventItem (e : informerevent)
| KeyItem (k : string).

#[global] Instance item_eq_dec : EqDecision item.
Proof. solve_decision. Defined.

(** The result [(item, exists, err)] of [Indexer.GetByKey]. *)
Record lookup := Lookup {
  found : option Obj;
  exists_ : bool;
  err : option string }.

(** The methods of [HandlerInterface] with their arguments. *)
Inductive call :=
| Init
| ObjectCreated (obj : option Obj)
| ObjectUpdated (obj : option Obj) (u : U)
| ObjectDeleted (obj : option Obj).

(** The handler methods the worker dispatches to. *)
Definition is_dispatch (c : call) : bool :=
  match c with Init => false | _ => true end.

(** The object a handler method was given. *)
Definition call_obj (c : call) : option Obj :=
  match c with
  | Init => None
  | ObjectCreated obj | ObjectUpdated obj _ | ObjectDeleted obj => obj
  end.

(** What an execution leaves behind, in order. *)
Inductive entry :=
| Info (msg : string)
| Error (msg : string)
| Invoke (c : call)                (* a handler method was called *)
| HandleError (e : string)         (* utilruntime.HandleError *)
| Crash (v : string)               (* utilruntime.HandleCrash saw a panic *)
| CacheSync (ok : bool)            (* what cache.WaitForCacheSync returned *)
| Go (f : string)                  (* a goroutine was started *)
| ShutDown.                        (* queue.ShutDown *)

(** *** The rate limiting work queue ([k8s.io/client-go/util/workqueue])

    The queue is a library of its own; the model follows its [queue.go] and
    [default_rate_limiters.go] as far as the controllers call them. [queue] is
    the FIFO of items waiting for a worker, [dirty] the set of items that need
    processing, [processing] the set being processed, and [failures] the
    per-item counter of the exponential failure rate limiter (the controllers
    pass it key strings only). Items are compared as Go compares the values
    held by an [interface{}]. *)
Record workqueue := Workqueue {
  queue : list item;
  dirty : list item;
  processing : list item;
  shuttingDown : bool;
  failures : gmap string nat }.

(** [set.delete(item)] *)
Definition without (it : item) (l : list item) : list item :=
  filter (λ x, x ≠ it) l.

(** [Add] does nothing when the queue is shutting down or the item is already
    dirty; an item that is being processed is only marked dirty; any other
    item is marked dirty and appended. *)
Definition wq_Add (it : item) (q : workqueue) : workqueue :=
  if shuttingDown q then q
  else if decide (it ∈ dirty q) then q
  else if decide (it ∈ processing q)
    then Workqueue (queue q) (it :: dirty q) (processing q) (shuttingDown q) (failures q)
    else Workqueue (queue q ++ [it]) (it :: dirty q) (processing q) (shuttingDown q) (failures q).

(** [Get] takes the head of the queue, which becomes processing and is no
    longer dirty; [None] when there is nothing to take. *)
Definition wq_Get (q : workqueue) : option (item * workqueue) :=
  match queue q with
  | [] => None
  | it :: rest =>
      Some (it, Workqueue rest (without it (dirty q)) (it :: processing q)
                          (shuttingDown q) (failures q))
  end.

(** [Done] ends the processing of the item, and appends it again if it was
    marked dirty in the meantime. *)
Definition wq_Done (it : item) (q : workqueue) : workqueue :=
  let processing' := without it (processing q) in
  if decide (it ∈ dirty q)
  then Workqueue (queue q ++ [it]) (dirty q) processing' (shuttingDown q) (failures q)
  else Workqueue (queue q) (dirty q) processing' (shuttingDown q) (failures q).

(** [NumRequeues] reads the failure counter, [Forget] deletes it. *)
Definition wq_NumRequeues (k : string) (q : workqueue) : nat :=
  default 0 (failures q !! k).

Definition wq_Forget (k : string) (q : workqueue) : workqueue :=
  Workqueue (queue q) (dirty q) (processing q) (shuttingDown q)
            (base.delete k (failures q)).

(** [AddRateLimited(k)] is [AddAfter(k, rateLimiter.When(k))]: [When] counts
    one more failure for [k]; the delay it returns only postpones the [Add],
    which the model performs at once. *)
Definition wq_AddRateLimited (k : string) (q : workqueue) : workqueue :=
  wq_Add (KeyItem k)
    (Workqueue (queue q) (dirty q) (processing q) (shuttingDown q)
               (<[k := S (wq_NumRequeues k q)]> (failures q))).

Definition wq_ShutDown (q : workqueue) : workqueue :=
  Workqueue (queue q) (dirty q) (processing q) true (failures q).

(** *** The controller

    [wq] is [c.queue], [store] the content of the informer's indexer, [world]
    the state behind [c.handler], [log] what has happened so far. [event]
    and [errv] are the variables [event] and [err] of [Start], which the three
    informer closures share. *)
Record controller := Controller {
  wq : workqueue;
  store : gmap string Obj;
  world : World;
  event : informerevent;
  errv : option string;
  log : list entry }.

(** What the engine is wired to: the handler (a method returns the panic
    value if it panics), the indexer's [GetByKey], the two key functions of
    [k8s.io/client-go/tools/cache], the change summary [UpdateFunc] leaves
    in [event.updated], the resource's name in log messages, and whether
    [processNextItem] prints the key of an Update event with [log.Println] (the
    authority controller does). *)
Class Deps := {
  handler : call → World → option string * World;
  GetByKey : gmap string Obj → string → lookup;
  MetaNamespaceKeyFunc : Obj → string * option string;
  DeletionHandlingMetaNamespaceKeyFunc : Obj → string * option string;
  changed : Obj → Obj → U → U;
  resource : string;
  printsKey : bool }.

Context {deps : Deps}.

(** *** A monad for controller code *)
Definition M (A : Type) : Type := controller → outcome A * controller.

#[global] Instance M_ret : MRet M := λ A a s, (Ret a, s).
#[global] Instance M_bind : MBind M := λ A B f m s,
  match m s with
  | (Ret a, s') => f a s'
  | (Panic v, s') => (Panic v, s')
  | (Parked, s') => (Parked, s')
  | (Crashed v, s') => (Crashed v, s')
  | (Exhausted, s') => (Exhausted, s')
  end.

Definition panic {A} (v : string) : M A := λ s, (Panic v, s).

(** [defer d; body]: [d] runs when [body] returns or panics (it is given the
    panic value, as [recover] would see it), and may itself panic. *)
Definition defer {A} (d : option string → M unit) (body : M A) : M A := λ s,
  match body s with
  | (Ret a, s') =>
      match d None s' with
      | (Ret _, s'') => (Ret a, s'')
      | (Panic v, s'') => (Panic v, s'')
      | (Parked, s'') => (Parked, s'')
      | (Crashed v, s'') => (Crashed v, s'')
      | (Exhausted, s'') => (Exhausted, s'')
      end
  | (Panic v, s') =>
      match d (Some v) s' with
      | (Ret _, s'') => (Panic v, s'')
      | (Panic v', s'') => (Panic v', s'')
      | (Parked, s'') => (Parked, s'')
      | (Crashed v', s'') => (Crashed v', s'')
      | (Exhausted, s'') => (Exhausted, s'')
      end
  | r => r
  end.

Definition logf (e : entry) : M unit := λ s,
  (Ret tt, Controller (wq s) (store s) (world s) (event s) (errv s) (log s ++ [e])).

Definition on_queue (f : workqueue → workqueue) : M unit := λ s,
  (Ret tt, Controller (f (wq s)) (store s) (world s) (event s) (errv s) (log s)).

(** [c.queue.Get()]: [Some it] is [(it, false)], [None] is [quit]; the
    goroutine blocks while the queue is empty and not shut down. *)
Definition queue_Get : M (option item) := λ s,
  match wq_Get (wq s) with
  | Some (it, q) =>
      (Ret (Some it), Controller q (store s) (world s) (event s) (errv s) (log s))
  | None => if shuttingDown (wq s) then (Ret None, s) else (Parked, s)
  end.

Definition queue_NumRequeues (k : string) : M nat := λ s,
  (Ret (wq_NumRequeues k (wq s)), s).

(** [c.informer.GetIndexer().GetByKey(key)] *)
Definition getByKey (k : string) : M lookup := λ s, (Ret (GetByKey (store s) k), s).

(** [event.(informerevent)]: the type assertion panics on any other value. *)
Definition as_informerevent (it : item) : M informerevent :=
  match it with
  | EventItem e => mret e
  | KeyItem _ =>
      panic "interface conversion: interface {} is string, not informerevent"
  end.

(** A call of a handler method. *)
Definition invoke (c : call) : M unit := λ s,
  let '(p, w) := handler c (world s) in
  let s' := Controller (wq s) (store s) w (event s) (errv s) (log s ++ [Invoke c]) in
  match p with
  | Some v => (Panic v, s')
  | None => (Ret tt, s')
  end.

(** [utilruntime.HandleCrash], deferred: it logs a panic and, [ReallyCrash]
    being set, panics again (the source: "A Go panic which includes logging
    and terminating"). *)
Definition HandleCrash (p : option string) : M unit :=
  match p with
  | Some v => logf (Crash v);; panic v
  | None => mret tt
  end.

(** *** [processNextItem] *)
Definition processNextItem : M bool :=
  logf (Info "processNextItem: start");;
  (* Fetch the next item of the queue *)
  got ← queue_Get;
  match got with
  | None => mret false
  | Some event =>
    defer (λ _, on_queue (wq_Done event)) (
      e ← as_informerevent event;
      (* Get the key string *)
      let keyRaw := key e in
      (* Use the string key to get the object from the indexer *)
      r ← getByKey keyRaw;
      match err r with
      | Some er =>
          n ← queue_NumRequeues (key e);
          if (n <? 5)%nat then
            logf (Error ("Controller.processNextItem: Failed processing item with key "
                         +:+ key e +:+ " with error " +:+ er +:+ ", retrying"));;
            on_queue (wq_AddRateLimited (key e))
          else
            logf (Error ("Controller.processNextItem: Failed processing item with key "
                         +:+ key e +:+ " with error " +:+ er +:+ ", no more retries"));;
            on_queue (wq_Forget (key e));;
            logf (HandleError er)
      | None => mret tt
      end;;
      (if negb (exists_ r) then
         if String.eqb (function e) delete then
           logf (Info ("Controller.processNextItem: object deleted detected: " +:+ keyRaw));;
           invoke (ObjectDeleted (found r))
         else mret tt
       else
         if String.eqb (function e) create then
           logf (Info ("Controller.processNextItem: object created detected: " +:+ keyRaw));;
           invoke (ObjectCreated (found r))
         else if String.eqb (function e) update then
           (if printsKey then logf (Info (key e)) else mret tt);;
           logf (Info ("Controller.processNextItem: object updated detected: " +:+ keyRaw));;
           invoke (ObjectUpdated (found r) (updated e))
         else mret tt);;
      on_queue (wq_Forget (key e));;
      mret true)
  end.

(** *** [runWorker] and [run] *)

(** The loop [for c.processNextItem() { ... }] of [runWorker], at most [fuel]
    iterations of it. *)
Fixpoint runWorker_loop (fuel : nat) : M unit :=
  match fuel with
  | O => λ s, (Exhausted, s)
  | S fuel =>
      continue ← processNextItem;
      if continue : bool then
        logf (Info "runWorker: processing next item");;
        runWorker_loop fuel
      else logf (Info "runWorker: completed")
  end.

Definition runWorker (fuel : nat) : M unit :=
  logf (Info "runWorker: starting");;
  runWorker_loop fuel.

(** [wait.Until(f, period, stopCh)] calls [f] under a deferred
    [HandleCrash], and again after [period] once [f] has returned: this is one
    such call, [await_stop] makes the next. *)
Definition wait_Until (f : M unit) : M unit := defer HandleCrash f.

(** A goroutine running [m], as far as it gets: the result tells whether it
    is still there, blocked ([true]), or has returned ([false]). A panic
    nobody recovered ends the process. *)
Definition goroutine (m : M unit) : M bool := λ s,
  match m s with
  | (Ret _, s') => (Ret false, s')
  | (Parked, s') => (Ret true, s')
  | (Panic v, s') => (Crashed v, s')
  | (Crashed v, s') => (Crashed v, s')
  | (Exhausted, s') => (Exhausted, s')
  end.

(** *** The informer and the closures [Start] registers with it *)

Definition get_event : M informerevent := λ s, (Ret (event s), s).

Definition set_event (e : informerevent) (er : option string) : M unit := λ s,
  (Ret tt, Controller (wq s) (store s) (world s) e er (log s)).

Definition on_store (f : gmap string Obj → gmap string Obj) : M unit := λ s,
  (Ret tt, Controller (wq s) (f (store s)) (world s) (event s) (errv s) (log s)).

Definition AddFunc (obj : Obj) : M unit :=
  ev ← get_event;
  (* Put the resource object into a key *)
  let '(k, er) := MetaNamespaceKeyFunc obj in
  let ev := Informerevent k create (updated ev) in
  set_event ev er;;
  logf (Info ("Add " +:+ resource +:+ ": " +:+ k));;
  match er with
  | None => on_queue (wq_Add (EventItem ev))   (* Add the key to the queue *)
  | Some _ => mret tt
  end.

Definition UpdateFunc (oldObj newObj : Obj) : M unit :=
  ev ← get_event;
  let '(k, er) := MetaNamespaceKeyFunc newObj in
  (* Find out whether the fields updated *)
  let ev := Informerevent k update (changed oldObj newObj (updated ev)) in
  set_event ev er;;
  logf (Info ("Update " +:+ resource +:+ ": " +:+ k));;
  match er with
  | None => on_queue (wq_Add (EventItem ev))
  | Some _ => mret tt
  end.

Definition DeleteFunc (obj : Obj) : M unit :=
  ev ← get_event;
  let '(k, er) := DeletionHandlingMetaNamespaceKeyFunc obj in
  let ev := Informerevent k delete (updated ev) in
  set_event ev er;;
  logf (Info ("Delete " +:+ resource +:+ ": " +:+ k));;
  match er with
  | None => on_queue (wq_Add (EventItem ev))
  | Some _ => mret tt
  end.

(** What the list and the watch of the resource tell the informer: the
    deltas of [cache.DeltaFIFO]. A delta of type [Sync], which the initial
    list makes, is handled as one of type [Added]. *)
Inductive notification :=
| Added (obj : Obj)
| Updated (obj : Obj)
| Deleted (obj : Obj).

Definition get_store : M (gmap string Obj) := λ s, (Ret (store s), s).

(** [DeltaFIFO] and [sharedIndexInformer.HandleDeltas] of
    [k8s.io/client-go/tools/cache], a library of its own. The informer files
    the object in its indexer, under the key
    [DeletionHandlingMetaNamespaceKeyFunc] gives, and has the registered
    closure called that the indexer's content decides: for an added or
    updated object the indexer holds already [UpdateFunc], with the object it
    held as the old one, otherwise [AddFunc]; for a deleted object
    [DeleteFunc]. [DeltaFIFO.Delete] skips the deletion of an object the
    indexer does not know. *)
Definition deliver (n : notification) : M unit :=
  match n with
  | Added obj | Updated obj =>
      match DeletionHandlingMetaNamespaceKeyFunc obj with
      | (k, None) =>
          indexer ← get_store;
          match indexer !! k with
          | Some old => on_store (<[k := obj]>);; UpdateFunc old obj
          | None => on_store (<[k := obj]>);; AddFunc obj
          end
      | (_, Some _) => mret tt
      end
  | Deleted obj =>
      match DeletionHandlingMetaNamespaceKeyFunc obj with
      | (k, None) =>
          indexer ← get_store;
          match indexer !! k with
          | Some _ => on_store (base.delete k);; DeleteFunc obj
          | None => mret tt
          end
      | (_, Some _) => mret tt
      end
  end.

Fixpoint informer_Run (ns : list notification) : M unit :=
  match ns with
  | [] => mret tt
  | n :: ns => deliver n;; informer_Run ns
  end.

(** [cache.WaitForCacheSync(stopCh, c.informer.HasSynced)]: [hasSynced] tells
    whether the informer's initial list completes before [stopCh] is closed. *)
Definition WaitForCacheSync (hasSynced : bool) : M bool :=
  logf (CacheSync hasSynced);; mret hasSynced.

(** [<-stopCh]: while [run] waits, the informer delivers the notifications
    of one round after the other and the worker, woken up, works until it
    blocks again; [stopCh] is closed after the last round. *)
Fixpoint await_stop (parked : bool) (after : list (list notification)) (fuel : nat)
  : M unit :=
  match after with
  | [] => mret tt
  | ns :: after =>
      informer_Run ns;;
      parked ← goroutine (wait_Until (if parked : bool then runWorker_loop fuel
                                       else runWorker fuel));
      await_stop parked after fuel
  end.

(** The statements of [run] below its two [defer]s. [before] are the
    notifications the informer delivers while [run] waits for the cache to
    sync. *)
Definition run_body (hasSynced : bool) (before : list notification)
    (after : list (list notification)) (fuel : nat) : M unit :=
  logf (Info "run: initiating");;
  invoke Init;;
  (* Run the informer to list and watch resources *)
  logf (Go "c.informer.Run");;
  informer_Run before;;
  (* Synchronization to settle resources one *)
  ok ← WaitForCacheSync hasSynced;
  if negb ok then logf (HandleError "Error syncing cache")
  else
    logf (Info "run: cache sync complete");;
    (* Operate the runWorker *)
    logf (Go "wait.Until(c.runWorker)");;
    parked ← goroutine (wait_Until (runWorker fuel));
    await_stop parked after fuel.

(** Run starts the controller loop *)
Definition run (hasSynced : bool) (before : list notification)
    (after : list (list notification)) (fuel : nat) : M unit :=
  (* A Go panic which includes logging and terminating *)
  defer HandleCrash (
  (* Shutdown after all goroutines have done *)
  defer (λ _, logf ShutDown;; on_queue wq_ShutDown) (
    run_body hasSynced before after fuel)).

(** The controller [Start] builds: a fresh queue, an empty indexer, the zero
    [event]. *)
Definition Start_controller (w : World) (zero : U) : controller :=
  Controller (Workqueue [] [] [] false ∅) ∅ w (Informerevent "" "" zero) None [].

(** What a computation adds to the log. *)
Definition emitted {A} (m : M A) (s : controller) : list entry :=
  drop (length (log s)) (log (m s).2).

(** The handler calls among some entries, in order. *)
Definition calls (l : list entry) : list call :=
  omap (λ e, match e with Invoke c => Some c | _ => None end) l.

(** [cache.Store.GetByKey] of the thread safe store behind the informers
    [Start] creates: a map lookup that never fails. *)
Definition cache_GetByKey (m : gmap string Obj) (k : string) : lookup :=
  Lookup (m !! k) (bool_decide (is_Some (m !! k))) None.

(** *** The informer and the worker side by side

    [run] starts two goroutines, [c.informer.Run] and, once the cache has
    synced, [wait.Until(c.runWorker)]. The worker's goroutine goes through
    the statements of [runWorker] and [processNextItem] one after the other;
    between two of them the informer may deliver notifications. Below are
    the stretches of [processNextItem] between which that can make a
    difference: each holds one call of the queue or of the indexer, or the
    call of the handler. *)

(** [keyRaw := event.(informerevent).key] and
    [item, exists, err := c.informer.GetIndexer().GetByKey(keyRaw)] *)
Definition look_up (event : item) : M (informerevent * lookup) :=
  e ← as_informerevent event;
  r ← getByKey (key e);
  mret (e, r).

(** [if err != nil { ... }] *)
Definition retry (e : informerevent) (r : lookup) : M unit :=
  match err r with
  | Some er =>
      n ← queue_NumRequeues (key e);
      if (n <? 5)%nat then
        logf (Error ("Controller.processNextItem: Failed processing item with key "
                     +:+ key e +:+ " with error " +:+ er +:+ ", retrying"));;
        on_queue (wq_AddRateLimited (key e))
      else
        logf (Error ("Controller.processNextItem: Failed processing item with key "
                     +:+ key e +:+ " with error " +:+ er +:+ ", no more retries"));;
        on_queue (wq_Forget (key e));;
        logf (HandleError er)
  | None => mret tt
  end.

(** [if !exists { ... } else { ... }] and [c.queue.Forget(key)], which only
    touches the rate limiter *)
Definition dispatch (e : informerevent) (r : lookup) : M unit :=
  let keyRaw := key e in
  (if negb (exists_ r) then
     if String.eqb (function e) delete then
       logf (Info ("Controller.processNextItem: object deleted detected: " +:+ keyRaw));;
       invoke (ObjectDeleted (found r))
     else mret tt
   else
     if String.eqb (function e) create then
       logf (Info ("Controller.processNextItem: object created detected: " +:+ keyRaw));;
       invoke (ObjectCreated (found r))
     else if String.eqb (function e) update then
       (if printsKey then logf (Info (key e)) else mret tt);;
       logf (Info ("Controller.processNextItem: object updated detected: " +:+ keyRaw));;
       invoke (ObjectUpdated (found r) (updated e))
     else mret tt);;
  on_queue (wq_Forget (key e)).

(** Where the worker's goroutine is. *)
Inductive position :=
| Starting                     (* [wait.Until] is about to call [runWorker] *)
| Calling                      (* [runWorker] is about to call [processNextItem] *)
| InGet                        (* in [c.queue.Get()], which blocks on an empty queue *)
| Taken (event : item)         (* [Get] has returned [event]; [Done(event)] is deferred *)
| Found (event : item) (e : informerevent) (r : lookup)    (* [GetByKey] has returned *)
| Retried (event : item) (e : informerevent) (r : lookup)  (* past [if err != nil] *)
| Leaving (event : item) (p : option string)
                               (* at the deferred [Done]; [p] is a panic on its way out *)
| Returned (continue : bool)   (* [processNextItem] has returned *)
| Panicking (v : string)       (* a panic has left [runWorker] *)
| Completed                    (* [runWorker] has returned *)
| Gone (v : string).           (* [HandleCrash] has panicked again: the process is over *)

(** The item the worker has taken and not yet marked done. *)
Definition holding (p : position) : option item :=
  match p with
  | Taken event | Found event _ _ | Retried event _ _ | Leaving event _ => Some event
  | _ => None
  end.

(** The worker runs [m] and goes on at [next], or at [failed] if [m]
    panics; it stays [here] while [m] blocks. *)
Definition stretch {A} (m : M A) (next : A → position) (failed : string → position)
    (here : position) : controller → position * controller := λ s,
  match m s with
  | (Ret a, s') => (next a, s')
  | (Panic v, s') => (failed v, s')
  | (Parked, s') => (here, s')
  | (Crashed v, s') => (Gone v, s')
  | (Exhausted, s') => (here, s')
  end.

(** The next stretch of the worker's goroutine: [wait.Until] calls
    [runWorker], again once it has returned, under a deferred [HandleCrash];
    [runWorker] loops over [processNextItem]. *)
Definition worker (p : position) : controller → position * controller :=
  match p with
  | Starting | Completed =>
      stretch (logf (Info "runWorker: starting")) (λ _, Calling) Panicking p
  | Calling =>
      stretch (logf (Info "processNextItem: start")) (λ _, InGet) Panicking p
  | InGet =>
      stretch queue_Get
              (λ got, match got with
                      | Some event => Taken event
                      | None => Returned false
                      end)
              Panicking p
  | Taken event =>
      stretch (look_up event) (λ x, Found event x.1 x.2) (λ v, Leaving event (Some v)) p
  | Found event e r =>
      stretch (retry e r) (λ _, Retried event e r) (λ v, Leaving event (Some v)) p
  | Retried event e r =>
      stretch (dispatch e r) (λ _, Leaving event None) (λ v, Leaving event (Some v)) p
  | Leaving event None =>
      stretch (on_queue (wq_Done event)) (λ _, Returned true) Panicking p
  | Leaving event (Some v) =>
      stretch (on_queue (wq_Done event)) (λ _, Panicking v) Panicking p
  | Returned true =>
      stretch (logf (Info "runWorker: processing next item")) (λ _, Calling) Panicking p
  | Returned false =>
      stretch (logf (Info "runWorker: completed")) (λ _, Completed) Panicking p
  | Panicking v =>
      stretch (HandleCrash (Some v)) (λ _, Gone v) Gone p
  | Gone v => λ s, (Gone v, s)
  end.

(** A turn of one of the two goroutines: the informer delivers a
    notification, or the worker runs its next stretch. *)
Inductive turn :=
| Informer (n : notification)
| Worker.

Definition take_turn (st : position * controller) (t : turn) : position * controller :=
  match st.1, t with
  | Gone _, _ => st
  | p, Informer n => (p, (deliver n st.2).2)
  | p, Worker => worker p st.2
  end.

(** The object a notification is about. *)
Definition subject (n : notification) : Obj :=
  match n with Added obj | Updated obj | Deleted obj => obj end.

(** The event the closure called for [n] hands to [queue.Add]: each closure
    leaves it in the shared [event] variable, and adds it if it leaves no
    error in [err]. No closure is called for an object without a key or for
    a skipped deletion. *)
Definition offered (n : notification) (s : controller) : option informerevent :=
  match DeletionHandlingMetaNamespaceKeyFunc (subject n) with
  | (k, None) =>
      match n, store s !! k with
      | Deleted _, None => None
      | _, _ =>
          let s' := (deliver n s).2 in
          match errv s' with
          | None => Some (event s')
          | Some _ => None
          end
      end
  | (_, Some _) => None
  end.

(** The item a turn hands to the queue, with [queue.Add] in a closure or
    with [AddRateLimited] in the retry branch, and the item [queue.Get] hands
    out in a turn. *)
Definition added_by (st : position * controller) (t : turn) : option item :=
  match st.1, t with
  | Gone _, _ => None
  | _, Informer n => EventItem <$> offered n st.2
  | Found _ e r, Worker =>
      match err r with
      | Some _ =>
          if (wq_NumRequeues (key e) (wq st.2) <? 5)%nat then Some (KeyItem (key e))
          else None
      | None => None
      end
  | _, Worker => None
  end.

Definition taken_by (st : position * controller) (t : turn) : option item :=
  match st.1, t with
  | InGet, Worker => fst <$> wq_Get (wq st.2)
  | _, _ => None
  end.

(** An interleaving of the two goroutines so far: where they are now, the
    items handed to the queue and the items taken off it, in order. *)
Record history := History {
  now : position * controller;
  added : list item;
  dispatched : list item }.

Definition record (h : history) (t : turn) : history :=
  History (take_turn (now h) t)
          (added h ++ option_list (added_by (now h) t))
          (dispatched h ++ option_list (taken_by (now h) t)).

Definition together (ts : list turn) (st : position * controller) : history :=
  foldl record (History st [] []) ts.

(** The goroutines some entries tell the start of, in order. *)
Definition goroutines (l : list entry) : list string :=
  omap (λ en, match en with Go f => Some f | _ => None end) l.

(** The items of a list in the order of their first occurrence. *)
Definition firsts (l : list item) : list item :=
  foldl (λ acc x, if decide (x ∈ acc) then acc else acc ++ [x]) [] l.

End Engine.

Arguments informerevent : clear implicits.
Arguments item : clear implicits.
Arguments lookup : clear implicits.
Arguments call : clear implicits.
Arguments entry : clear implicits.
Arguments workqueue : clear implicits.
Arguments controller : clear implicits.
Arguments Deps : clear implicits.
Arguments notification : clear implicits.
Arguments position : clear implicits.
Arguments turn : clear implicits.
Arguments history : clear implicits.

End Engine.

(** ** The controllers built on the engine *)

(** This contains the fields to check whether they are updated *)
Record fields := Fields {
  users : bool;
  enabled : bool }.

#[global] Instance fields_eq_dec : EqDecision fields.
Proof. solve_decision. Defined.

(** The authority controller: its events carry a key and a function only,
    [UpdateFunc] computes nothing, and [ObjectUpdated] takes the object alone. *)
Module Authority.
Section Authority.
Context {Obj World : Type}.

Definition deps
  (handler : Engine.call unit Obj → World → option string * World)
  (GetByKey : gmap string Obj → string → Engine.lookup Obj)
  (MetaNamespaceKeyFunc DeletionHandlingMetaNamespaceKeyFunc : Obj → string * option string)
  : Engine.Deps unit Obj World :=
  {| Engine.handler := handler;
     Engine.GetByKey := GetByKey;
     Engine.MetaNamespaceKeyFunc := MetaNamespaceKeyFunc;
     Engine.DeletionHandlingMetaNamespaceKeyFunc := DeletionHandlingMetaNamespaceKeyFunc;
     Engine.changed := λ _ _ u, u;
     Engine.printsKey := true;
     Engine.resource := "authority" |}.

End Authority.
End Authority.

(** The project controller. *)
Module Project.
Section Project.
(** [Obj] is [*apps_v1alpha.Project] and [ProjectUsers] the element type of its
    [Spec.Users]; both are declared outside the files at hand. [UpdateFunc]
    reads [Spec.Users] (a slice, [None] when nil) and [Status.Enabled]. *)
Context {Obj ProjectUsers World : Type} `{EqDecision ProjectUsers}.
Variable Spec_Users : Obj → option (list ProjectUsers).
Variable Status_Enabled : Obj → bool.

(** [reflect.DeepEqual] on two slices: both nil, or both non-nil with the same
    length and deeply equal elements. *)
Fixpoint DeepEqual_elems (a b : list ProjectUsers) : bool :=
  match a, b with
  | [], [] => true
  | x :: a, y :: b => bool_decide (x = y) && DeepEqual_elems a b
  | _, _ => false
  end.

Definition DeepEqual (x y : option (list ProjectUsers)) : bool :=
  match x, y with
  | None, None => true
  | Some a, Some b => (length a =? length b)%nat && DeepEqual_elems a b
  | _, _ => false
  end.

(** What [UpdateFunc] assigns to [event.updated]. *)
Definition changed (oldObj newObj : Obj) (updated : fields) : fields :=
  (* event.updated.enabled = false *)
  let updated := Fields (users updated) false in
  (* event.updated.users = false *)
  let updated := Fields false (enabled updated) in
  let updated :=
    if negb (Bool.eqb (Status_Enabled oldObj) (Status_Enabled newObj))
    then Fields (users updated) true else updated in
  let updated :=
    if negb (DeepEqual (Spec_Users oldObj) (Spec_Users newObj))
    then Fields true (enabled updated) else updated in
  updated.

Definition deps
  (handler : Engine.call fields Obj → World → option string * World)
  (GetByKey : gmap string Obj → string → Engine.lookup Obj)
  (MetaNamespaceKeyFunc DeletionHandlingMetaNamespaceKeyFunc : Obj → string * option string)
  : Engine.Deps fields Obj World :=
  {| Engine.handler := handler;
     Engine.GetByKey := GetByKey;
     Engine.MetaNamespaceKeyFunc := MetaNamespaceKeyFunc;
     Engine.DeletionHandlingMetaNamespaceKeyFunc := DeletionHandlingMetaNamespaceKeyFunc;
     Engine.changed := changed;
     Engine.printsKey := false;
     Engine.resource := "project" |}.

End Project.
End Project.

(** The team handler's [ObjectUpdated]. *)
Module Team.
Section Handler.
(** [Team] is [*apps_v1alpha.Team]. *)
Context {Team : Type}.
Variable GetNamespace : Team → string.
Variable GetName : Team → string.
Variable Status_Enabled : Team → bool.

(** The writes the handler sends to the API server. [CreateRoleBindings] stands
    for the method [createRoleBindings], [UpdateOwnerReferences] for
    [setOwnerReferences] followed by [Teams(namespace).Update]. *)
Inductive request :=
| DeleteRoleBindings (namespace : string)
| CreateRoleBindings (namespace : string) (team : Team) (ownerAuthority : string)
| UpdateOwnerReferences (team : Team)
| DeleteSlices (namespace : string)
| DeleteTeam (namespace name : string).

(** [authorityName] and [authorityEnabled] are what the two reads at the top of
    the method return: the label [authority-name] of the team's namespace and
    [teamOwnerAuthority.Status.Enabled]. *)
Definition ObjectUpdated (authorityName : string) (authorityEnabled : bool)
    (obj : Team) (updated : fields) : list request :=
  let teamCopy := obj in
  let teamChildNamespaceStr := GetNamespace teamCopy +:+ "-team-" +:+ GetName teamCopy in
  let fieldUpdated := updated in
  (* Check if the authority and team are active *)
  if authorityEnabled && Status_Enabled teamCopy then
    if users fieldUpdated || enabled fieldUpdated then
      [ DeleteRoleBindings teamChildNamespaceStr;
        CreateRoleBindings teamChildNamespaceStr teamCopy authorityName;
        UpdateOwnerReferences teamCopy ]
    else []
  else if authorityEnabled && negb (Status_Enabled teamCopy) then
    [ DeleteSlices teamChildNamespaceStr; DeleteRoleBindings teamChildNamespaceStr ]
  else if negb authorityEnabled then
    [ DeleteTeam teamChildNamespaceStr (GetName teamCopy) ]
  else [].

End Handler.
End Team.

(** ** Selective deployments: the selector clause *)

Module SelectiveDeployment.

(** A JSON value as far as the selector schema tells values apart. *)
Inductive json :=
| JString (s : string)
| JInteger (n : Z)
| JOther.

(** What [openAPIV3Schema] says of one property. *)
Record property := Property {
  type : string;
  enum : option (list string);
  minimum : option Z }.

(** [spec.selector.items.properties] of [selectivedeployment.yaml]. *)
Definition selector_properties : list (string * property) :=
  [ ("value", Property "string" None None);
    ("operator", Property "string" (Some ["In"; "NotIn"]) None);
    ("count", Property "integer" None (Some 0%Z)) ].

Definition valid_type (t : string) (v : json) : bool :=
  match v with
  | JString _ => String.eqb t "string"
  | JInteger _ => String.eqb t "integer" || String.eqb t "number"
  | JOther => false
  end.

Definition valid_enum (allowed : option (list string)) (v : json) : bool :=
  match allowed, v with
  | None, _ => true
  | Some l, JString s => bool_decide (s ∈ l)
  | Some _, _ => false
  end.

Definition valid_minimum (m : option Z) (v : json) : bool :=
  match m, v with
  | Some m, JInteger n => (m <=? n)%Z
  | _, _ => true
  end.

Definition valid_property (p : property) (v : json) : bool :=
  valid_type (type p) v && valid_enum (enum p) v && valid_minimum (minimum p) v.

Fixpoint find_property (name : string) (l : list (string * property)) : option property :=
  match l with
  | [] => None
  | (n, p) :: l => if String.eqb n name then Some p else find_property name l
  end.

Definition property_of (name : string) : option property :=
  find_property name selector_properties.

(** A selector clause as submitted: a JSON object. The schema names no
    required property and does not forbid further ones. *)
Definition valid_clause (clause : list (string * json)) : bool :=
  forallb (λ nv, match property_of nv.1 with
                 | Some p => valid_property p nv.2
                 | None => true
                 end) clause.

Inductive operator := In_ | NotIn.

Section Selection.
Context {Node : Type}.

(** Modelled from the spec: the node selection engine (section 4.3), whose
    code is not among the files at hand. A clause's candidates are the nodes
    that match ([In]) or do not match ([NotIn]), in the order of the node list,
    capped at [count] entries if [count > 0], else unlimited. *)
Definition candidates (op : operator) (count : Z) (matches : Node → bool)
    (nodes : list Node) : list Node :=
  let raw := match op with
             | In_ => List.filter matches nodes
             | NotIn => List.filter (λ n, negb (matches n)) nodes
             end in
  if (0 <? count)%Z then take (Z.to_nat count) raw else raw.

End Selection.
End SelectiveDeployment.

(** ** The API group (package [v1alpha] of [pkg/apis/apps]) *)

Module Scheme.

(** [schema.GroupVersion], [schema.GroupVersionKind] and
    [schema.GroupResource] of [k8s.io/apimachinery]. *)
Record GroupVersion := { Group : string; Version : string }.
Record GroupVersionKind := { gvk_Group : string; gvk_Version : string; gvk_Kind : string }.
Record GroupResource := { gr_Group : string; gr_Resource : string }.

Definition WithKind (gv : GroupVersion) (kind : string) : GroupVersionKind :=
  {| gvk_Group := Group gv; gvk_Version := Version gv; gvk_Kind := kind |}.

(** [gvk.GroupVersion().String()] *)
Definition GroupVersion_String (gv : GroupVersion) : string :=
  if (0 <? String.length (Group gv))%nat then Group gv +:+ "/" +:+ Version gv
  else Version gv.

Section Scheme.
(** [apps.GroupName], a constant of package [edgenet/pkg/apis/apps]. *)
Variable GroupName : string.

(** SchemeGroupVersion is the identifier for the API which includes the name
    of the group and the version of the API *)
Definition SchemeGroupVersion : GroupVersion :=
  {| Group := GroupName; Version := "v1alpha" |}.

(** Resource handles adding types to the schemes:
    [SchemeGroupVersion.WithResource(resource).GroupResource()] *)
Definition Resource (resource : string) : GroupResource :=
  {| gr_Group := Group SchemeGroupVersion; gr_Resource := resource |}.

End Scheme.
End Scheme.

(** ** The team handler ([pkg/controller/v1alpha/team/handler.go]) *)

(** The handler's methods with [createRoleBindings], [setOwnerReferences] and
    [containsRole]. [ObjectUpdated] carries out the requests that module
    [Team] lists for it. The handler's [log.Info] lines write no state the
    handler reads and are left out. *)

Module TeamHandler.

(** The types of [apps_v1alpha], [metav1] and [corev1] as far as the handler
    reads and writes them. A [*bool] is an [option bool]. *)
Record TeamUsers := {
  Authority : string;
  Username : string }.

Record OwnerReference := {
  APIVersion : string;
  Kind : string;
  Name : string;
  UID : string;
  Controller : option bool;
  BlockOwnerDeletion : option bool }.

Record Team := {
  Team_Name : string;
  Team_Namespace : string;
  Team_UID : string;
  Team_Generation : Z;
  Team_OwnerReferences : list OwnerReference;
  Team_Spec_Users : list TeamUsers;
  Team_Spec_Description : string;
  Team_Status_Enabled : bool }.

Record User := {
  User_Name : string;
  User_UID : string;
  User_Spec_FirstName : string;
  User_Spec_LastName : string;
  User_Spec_Email : string;
  User_Spec_Roles : list string;
  User_Status_Active : bool;
  User_Status_AUP : bool }.

Record Namespace := {
  Namespace_Name : string;
  Namespace_OwnerReferences : list OwnerReference;
  Namespace_Labels : gmap string string }.

(** [mailer.ResourceAllocationData] with its [CommonData]. *)
Record CommonData := {
  CommonData_Authority : string;
  CommonData_Username : string;
  CommonData_Name : string;
  CommonData_Email : list string }.

Record ResourceAllocationData := {
  Common : CommonData;
  Data_Authority : string;
  Data_Name : string;
  Data_Namespace : string }.

(** What the handler asks of the API server, of package [registration] and of
    the mailer. *)
Inductive request :=
| CreateRoleBindingsByRoles (user : User) (namespace namespaceType : string)
| Send (subject : string) (contentData : ResourceAllocationData)
| Teams_Update (namespace : string) (team : Team)
| Teams_UpdateStatus (namespace : string) (team : Team)
| Teams_Delete (namespace name : string)
| Namespaces_Create (ns : Namespace)
| RoleBindings_DeleteCollection (namespace : string)
| Slices_DeleteCollection (namespace : string).

(** To check whether user is holder of a role. [strings.ToLower] is the
    standard library's. *)
Section containsRole.
Variable ToLower : string → string.

Fixpoint containsRole (roles : list string) (value : string) : bool :=
  match roles with
  | [] => false
  | ele :: roles =>
      if String.eqb (ToLower value) (ToLower ele) then true
      else containsRole roles value
  end.

End containsRole.

(** [metav1.NewControllerRef(owner, gvk)], given the owner's name and UID. *)
Definition NewControllerRef (name uid : string) (gvk : Scheme.GroupVersionKind)
  : OwnerReference :=
  let blockOwnerDeletion := true in
  let isController := true in
  {| APIVersion := Scheme.GroupVersion_String
                     {| Scheme.Group := Scheme.gvk_Group gvk;
                        Scheme.Version := Scheme.gvk_Version gvk |};
     Kind := Scheme.gvk_Kind gvk;
     Name := name;
     UID := uid;
     BlockOwnerDeletion := Some blockOwnerDeletion;
     Controller := Some isController |}.

Section Handler.
(** [World] is the cluster behind the two clientsets. A read returns what the
    API server answers in the present state, [None] standing for an error
    where the handler looks at the error only; [Namespaces().Get] and
    [Authorities().Get] return an object whatever happens, and the handler
    ignores their error. [serve] is what a request does to the cluster, and
    [Teams_Update_result] the object [Teams(namespace).Update] returns. *)
Context {World : Type}.
Variable GroupName : string.
Variable ToLower : string → string.
Variable Users_Get : string → string → World → option User.
Variable Users_List : string → World → option (list User).
Variable Namespaces_Get : string → World → Namespace * option string.
Variable Authorities_Get_Enabled : string → World → bool.
Variable Teams_Update_result : string → Team → World → Team.
Variable serve : request → World → World.

(** The cluster, and the requests made so far (oldest first). *)
Record cluster := Cluster { world : World; requests : list request }.

Definition H (A : Type) : Type := cluster → A * cluster.

#[global] Instance H_ret : MRet H := λ A a c, (a, c).
#[global] Instance H_bind : MBind H := λ A B f m c, let '(a, c') := m c in f a c'.

Definition read {A} (f : World → A) : H A := λ c, (f (world c), c).

Definition send (r : request) : H unit := λ c,
  (tt, Cluster (serve r (world c)) (requests c ++ [r])).

(** [for _, x := range l { body }] *)
Fixpoint range {A} (l : list A) (body : A → H unit) : H unit :=
  match l with
  | [] => mret tt
  | x :: l => body x;; range l body
  end.

(** The mail a user is sent about the team. *)
Definition invitation (authority username : string) (user : User)
    (ownerAuthority : string) (teamCopy : Team) (teamChildNamespaceStr : string)
  : ResourceAllocationData :=
  {| Common := {| CommonData_Authority := authority;
                  CommonData_Username := username;
                  CommonData_Name := User_Spec_FirstName user +:+ " " +:+ User_Spec_LastName user;
                  CommonData_Email := [User_Spec_Email user] |};
     Data_Authority := ownerAuthority;
     Data_Name := Team_Name teamCopy;
     Data_Namespace := teamChildNamespaceStr |}.

(** createRoleBindings creates user role bindings according to the roles *)
Definition createRoleBindings (teamChildNamespaceStr : string) (teamCopy : Team)
    (ownerAuthority : string) : H unit :=
  (* This part creates the rolebindings for the users who participate in the team *)
  range (Team_Spec_Users teamCopy) (λ teamUser,
    r ← read (Users_Get ("authority-" +:+ Authority teamUser) (Username teamUser));
    match r with
    | Some user =>
        if User_Status_Active user && User_Status_AUP user then
          send (CreateRoleBindingsByRoles user teamChildNamespaceStr "Team");;
          send (Send "team-invitation"
                  (invitation (Authority teamUser) (Username teamUser) user
                              ownerAuthority teamCopy teamChildNamespaceStr))
        else mret tt
    | None => mret tt
    end);;
  (* To create the rolebindings for the users who are authority-admin and
     managers of the authority *)
  userRaw ← read (Users_List ("authority-" +:+ ownerAuthority));
  match userRaw with
  | Some items =>
      range items (λ userRow,
        if User_Status_Active userRow && User_Status_AUP userRow
           && (containsRole ToLower (User_Spec_Roles userRow) "admin"
               || containsRole ToLower (User_Spec_Roles userRow) "manager")
        then
          send (CreateRoleBindingsByRoles userRow teamChildNamespaceStr "Team");;
          send (Send "team-invitation"
                  (invitation ownerAuthority (User_Name userRow) userRow
                              ownerAuthority teamCopy teamChildNamespaceStr))
        else mret tt)
  | None => mret tt
  end.

(** [*metav1.NewControllerRef(...)] with [Controller] pointed at a [false]. *)
Definition not_controlling (r : OwnerReference) : OwnerReference :=
  let takeControl := false in
  {| APIVersion := APIVersion r; Kind := Kind r; Name := Name r; UID := UID r;
     Controller := Some takeControl; BlockOwnerDeletion := BlockOwnerDeletion r |}.

(** The loop of [setOwnerReferences] over [teamCopy.Spec.Users], appending to
    [ownerReferences]. *)
Fixpoint setOwnerReferences_users (users : list TeamUsers)
    (ownerReferences : list OwnerReference) : H (list OwnerReference) :=
  match users with
  | [] => mret ownerReferences
  | teamUser :: users =>
      r ← read (Users_Get ("authority-" +:+ Authority teamUser) (Username teamUser));
      match r with
      | Some user =>
          if User_Status_Active user && User_Status_AUP user then
            let newTeamRef :=
              not_controlling
                (NewControllerRef (User_Name user) (User_UID user)
                   (Scheme.WithKind (Scheme.SchemeGroupVersion GroupName) "User")) in
            setOwnerReferences_users users (ownerReferences ++ [newTeamRef])
          else setOwnerReferences_users users ownerReferences
      | None => setOwnerReferences_users users ownerReferences
      end
  end.

(** setOwnerReferences returns the users and the team as owners *)
Definition setOwnerReferences (teamCopy : Team)
  : H (list OwnerReference * list OwnerReference) :=
  (* The following section makes users who participate in that team become
     the team owners *)
  ownerReferences ← setOwnerReferences_users (Team_Spec_Users teamCopy) [];
  (* The section below makes team who created the child namespace become the
     namespace owner *)
  let newNamespaceRef :=
    not_controlling
      (NewControllerRef (Team_Name teamCopy) (Team_UID teamCopy)
         (Scheme.WithKind (Scheme.SchemeGroupVersion GroupName) "Team")) in
  let namespaceOwnerReferences := [newNamespaceRef] in
  mret (ownerReferences, namespaceOwnerReferences).

Definition with_OwnerReferences (t : Team) (refs : list OwnerReference) : Team :=
  {| Team_Name := Team_Name t; Team_Namespace := Team_Namespace t; Team_UID := Team_UID t;
     Team_Generation := Team_Generation t; Team_OwnerReferences := refs;
     Team_Spec_Users := Team_Spec_Users t; Team_Spec_Description := Team_Spec_Description t;
     Team_Status_Enabled := Team_Status_Enabled t |}.

Definition with_Status_Enabled (t : Team) (b : bool) : Team :=
  {| Team_Name := Team_Name t; Team_Namespace := Team_Namespace t; Team_UID := Team_UID t;
     Team_Generation := Team_Generation t; Team_OwnerReferences := Team_OwnerReferences t;
     Team_Spec_Users := Team_Spec_Users t; Team_Spec_Description := Team_Spec_Description t;
     Team_Status_Enabled := b |}.

(** [teamOwnerNamespace.Labels["authority-name"]]: the empty string when the
    label is missing. *)
Definition authority_name (ns : Namespace) : string :=
  default "" (Namespace_Labels ns !! "authority-name").

(** ObjectCreated is called when an object is created *)
Definition ObjectCreated (obj : Team) : H unit :=
  (* Create a copy of the team object to make changes on it *)
  let teamCopy := obj in
  (* Find the authority from the namespace in which the object is *)
  teamOwnerNamespace ← read (λ w, (Namespaces_Get (Team_Namespace teamCopy) w).1);
  teamOwnerAuthority_Status_Enabled ←
    read (Authorities_Get_Enabled (authority_name teamOwnerNamespace));
  (* Check if the authority is active *)
  if teamOwnerAuthority_Status_Enabled && (Team_Generation teamCopy =? 1)%Z then
    err ← read (λ w, (Namespaces_Get ("team-" +:+ Team_Name teamCopy) w).2);
    match err with
    | Some _ =>
        '(teamOwnerReferences, teamChildNamespaceOwnerReferences) ← setOwnerReferences teamCopy;
        let teamCopy := with_OwnerReferences teamCopy teamOwnerReferences in
        teamCopyUpdated ← read (Teams_Update_result (Team_Namespace teamCopy) teamCopy);
        send (Teams_Update (Team_Namespace teamCopy) teamCopy);;
        let teamCopy := teamCopyUpdated in
        (* Enable the team *)
        let teamCopy := with_Status_Enabled teamCopy true in
        (* defer ...UpdateStatus(teamCopy): the call is made when the method returns *)
        let deferred := Teams_UpdateStatus (Team_Namespace teamCopy) teamCopy in
        (* Each namespace created by teams have an indicator as "team" to
           provide singularity *)
        let namespaceLabels : gmap string string :=
          {[ "owner" := "team"; "owner-name" := Team_Name teamCopy;
             "authority-name" := authority_name teamOwnerNamespace ]} in
        let teamChildNamespace :=
          {| Namespace_Name := Team_Namespace teamCopy +:+ "-team-" +:+ Team_Name teamCopy;
             Namespace_OwnerReferences := teamChildNamespaceOwnerReferences;
             Namespace_Labels := namespaceLabels |} in
        send (Namespaces_Create teamChildNamespace);;
        send deferred
    | None => mret tt
    end
  else if negb teamOwnerAuthority_Status_Enabled then
    send (Teams_Delete (Team_Namespace teamCopy) (Team_Name teamCopy))
  else mret tt.

(** ObjectDeleted is called when an object is deleted: it logs, and nothing
    else ("Mail notification, TBD"). *)
Definition ObjectDeleted (obj : Team) : H unit := mret tt.

(** A request of [ObjectUpdated], as module [Team] lists them, carried out. *)
Definition perform (r : Team.request) : H unit :=
  match r with
  | Team.DeleteRoleBindings namespace => send (RoleBindings_DeleteCollection namespace)
  | Team.CreateRoleBindings namespace teamCopy ownerAuthority =>
      createRoleBindings namespace teamCopy ownerAuthority
  | Team.UpdateOwnerReferences teamCopy =>
      '(teamOwnerReferences, _) ← setOwnerReferences teamCopy;
      let teamCopy := with_OwnerReferences teamCopy teamOwnerReferences in
      send (Teams_Update (Team_Namespace teamCopy) teamCopy)
  | Team.DeleteSlices namespace => send (Slices_DeleteCollection namespace)
  | Team.DeleteTeam namespace name => send (Teams_Delete namespace name)
  end.

(** ObjectUpdated is called when an object is updated *)
Definition ObjectUpdated (obj : Team) (updated : fields) : H unit :=
  let teamCopy := obj in
  (* Find the authority from the namespace in which the object is *)
  teamOwnerNamespace ← read (λ w, (Namespaces_Get (Team_Namespace teamCopy) w).1);
  teamOwnerAuthority_Status_Enabled ←
    read (Authorities_Get_Enabled (authority_name teamOwnerNamespace));
  range (Team.ObjectUpdated Team_Namespace Team_Name Team_Status_Enabled
           (authority_name teamOwnerNamespace) teamOwnerAuthority_Status_Enabled
           teamCopy updated)
        perform.


End Handler.
End TeamHandler.

(** ** The cluster roles [Start] sets up *)

Module ClusterRoles.

(** [rbacv1.PolicyRule] and [rbacv1.ClusterRole], as far as [Start] fills
    them in. *)
Record PolicyRule := {
  APIGroups : list string;
  Resources : list string;
  Verbs : list string }.

Record ClusterRole := {
  Name : string;
  Rules : list PolicyRule }.

Section Start.
(** [World] is the cluster behind [clientset.RbacV1().ClusterRoles()], [Err]
    the type of its errors; [Error] is [err.Error()] and [IsAlreadyExists]
    the test of [k8s.io/apimachinery/pkg/api/errors]. *)
Context {World Err : Type}.
Variable Error : Err → string.
Variable IsAlreadyExists : Err → bool.
Variable Create : ClusterRole → World → option Err * World.
Variable Get : string → World → ClusterRole * option Err.
Variable Update : ClusterRole → World → option Err * World.

(** The cluster, and the lines logged so far. *)
Record state := State { cluster : World; logged : list string }.

Definition Infof (line : string) (s : state) : state :=
  State (cluster s) (logged s ++ [line]).

(** The authority controller, for each of its roles: create the role and, if
    it already exists, get it, overwrite its rules and update it. [title] is
    the role's name as the last log line spells it. *)
Definition create_or_update (name title : string) (policyRule : list PolicyRule)
    (s : state) : state :=
  let authorityRole := {| Name := name; Rules := policyRule |} in
  let '(err, w) := Create authorityRole (cluster s) in
  let s := State w (logged s) in
  match err with
  | Some err =>
      let s := Infof ("Couldn't create " +:+ name +:+ " cluster role: " +:+ Error err) s in
      if IsAlreadyExists err then
        let '(authorityClusterRole, err) := Get (Name authorityRole) (cluster s) in
        match err with
        | None =>
            let authorityClusterRole :=
              {| Name := Name authorityClusterRole; Rules := policyRule |} in
            let '(err, w) := Update authorityClusterRole (cluster s) in
            let s := State w (logged s) in
            match err with
            | None => Infof (title +:+ " cluster role updated") s
            | Some _ => s
            end
        | Some _ => s
        end
      else s
  | None => s
  end.

(** The project controller, for each of its roles: create the role, and log
    if that fails. *)
Definition create_only (name : string) (policyRule : list PolicyRule)
    (s : state) : state :=
  let projectRole := {| Name := name; Rules := policyRule |} in
  let '(err, w) := Create projectRole (cluster s) in
  let s := State w (logged s) in
  match err with
  | Some err => Infof ("Couldn't create " +:+ name +:+ " cluster role: " +:+ Error err) s
  | None => s
  end.

End Start.

Definition rule (resources verbs : list string) : PolicyRule :=
  {| APIGroups := ["apps.edgenet.io"]; Resources := resources; Verbs := verbs |}.

(** Cluster Roles for Authorities *)
Definition authority_admin : list PolicyRule :=
  [ rule ["users"; "users/status"; "userregistrationrequests";
          "userregistrationrequests/status"; "slices"; "slices/status"; "teams";
          "teams/status"; "nodecontributions"] ["*"];
    rule ["acceptableusepolicies"] ["get"; "list"] ].

Definition authority_manager : list PolicyRule :=
  [ rule ["userregistrationrequests"; "userregistrationrequests/status";
          "slices"; "slices/status"; "teams"; "teams/status"] ["*"];
    rule ["users"; "acceptableusepolicies"; "nodecontributions"] ["get"; "list"] ].

Definition authority_tech : list PolicyRule :=
  [ rule ["nodecontributions"] ["*"] ].

Definition authority_user : list PolicyRule :=
  [ rule ["slices"; "teams"; "nodecontributions"] ["get"; "list"] ].

(** Cluster Roles for Projects: the same rule for the three of them. *)
Definition project_rule : list PolicyRule :=
  [ rule ["slices"; "slices/status"] ["*"] ].

Section Roles.
Context {World Err : Type}.
Variable Error : Err → string.
Variable IsAlreadyExists : Err → bool.
Variable Create : ClusterRole → World → option Err * World.
Variable Get : string → World → ClusterRole * option Err.
Variable Update : ClusterRole → World → option Err * World.

(** The cluster role part of the authority controller's [Start]. *)
Definition Start_authority_roles (s : state) : state :=
  let ensure := create_or_update Error IsAlreadyExists Create Get Update in
  (* Authority Admin *)
  let s := ensure "authority-admin" "Authority-admin" authority_admin s in
  (* Authority Manager *)
  let s := ensure "authority-manager" "Authority-manager" authority_manager s in
  (* Authority Tech *)
  let s := ensure "authority-tech" "Authority-tech" authority_tech s in
  (* Authority User *)
  ensure "authority-user" "Authority-user" authority_user s.

(** The cluster role part of the project controller's [Start]. *)
Definition Start_project_roles (s : state) : state :=
  (* Site PI *)
  let s := create_only Error Create "project-pi" project_rule s in
  (* Site Manager *)
  let s := create_only Error Create "project-manager" project_rule s in
  (* Site User *)
  create_only Error Create "project-user" project_rule s.

End Roles.

(** *** An API server that keeps cluster roles by name

    [Create] fails on a name that is taken, [Get] and [Update] on a name that
    is not; nothing else goes wrong. *)
Inductive StatusReason := AlreadyExists | NotFound.

Definition mem_Error (e : StatusReason) : string :=
  match e with AlreadyExists => "already exists" | NotFound => "not found" end.

Definition mem_IsAlreadyExists (e : StatusReason) : bool :=
  match e with AlreadyExists => true | NotFound => false end.

Definition mem_Create (r : ClusterRole) (m : gmap string (list PolicyRule)) : option StatusReason * gmap string (list PolicyRule) :=
  match m !! Name r with
  | Some _ => (Some AlreadyExists, m)
  | None => (None, <[Name r := Rules r]> m)
  end.

Definition mem_Get (name : string) (m : gmap string (list PolicyRule)) : ClusterRole * option StatusReason :=
  match m !! name with
  | Some rules => ({| Name := name; Rules := rules |}, None)
  | None => ({| Name := ""; Rules := [] |}, Some NotFound)
  end.

Definition mem_Update (r : ClusterRole) (m : gmap string (list PolicyRule)) : option StatusReason * gmap string (list PolicyRule) :=
  match m !! Name r with
  | Some _ => (None, <[Name r := Rules r]> m)
  | None => (Some NotFound, m)
  end.

End ClusterRoles.

(** ** [generateRandomString] of the project controller *)

Module Random.

(** How a call ends: with a value, with a run time panic, or with a fatal
    error of the runtime, which stops the process. *)
Inductive result (A : Type) : Type :=
| Value (a : A)
| Panics (msg : string)
| Fatal (msg : string).
Arguments Value {A} a.
Arguments Panics {A} msg.
Arguments Fatal {A} msg.

(** [var letter = []rune("abc...XYZ")]. The runes at hand are ASCII letters
    and the zero rune, one byte each in a string, four bytes each in a slice
    of runes. *)
Definition letter : list Ascii.ascii :=
  String.list_ascii_of_string "abcdefghijklmnopqrstuvwxyzABCDEFGHIJKLMNOPQRSTUVWXYZ".

(** What the function takes from the heap: a slice of [len] runes, or the
    [len] bytes of a string. *)
Inductive allocation :=
| Runes (len : Z)
| Bytes (len : Z).

Section generateRandomString.
(** [Machine] is the state of the process: the generator behind [math/rand]
    and the heap. [Intn] is [rand.Intn]: the number drawn and the state
    afterwards. [allocate] takes memory from the heap, [None] when the system
    has none left. [maxAlloc] is the runtime's bound on the size of one
    allocation, in bytes; a rune takes four. The argument [n] is an [int];
    the bounds of that type play no part, [maxAlloc] being smaller. *)
Context {Machine : Type}.
Variable maxAlloc : Z.
Variable Intn : Z → Machine → Z * Machine.
Variable allocate : allocation → Machine → option Machine.

(** An allocation, then [k]. Without memory the runtime stops the process. *)
Definition allocating {A} (a : allocation) (k : Machine → result A * Machine)
    (m : Machine) : result A * Machine :=
  match allocate a m with
  | Some m => k m
  | None => (Fatal "fatal error: runtime: out of memory", m)
  end.

(** [for i := range b { b[i] = letter[rand.Intn(len(letter))] }], from index
    [i] on. *)
Fixpoint fill (indices : list nat) (b : list Ascii.ascii) (m : Machine)
  : result (list Ascii.ascii) * Machine :=
  match indices with
  | [] => (Value b, m)
  | i :: indices =>
      let '(r, m) := Intn (Z.of_nat (length letter)) m in
      if (r <? 0)%Z then (Panics "runtime error: index out of range", m)
      else
        match letter !! Z.to_nat r with
        | None => (Panics "runtime error: index out of range", m)
        | Some c =>
            if (i <? length b)%nat then fill indices (<[i := c]> b) m
            else (Panics "runtime error: index out of range", m)
        end
  end.

Definition generateRandomString (n : Z) : Machine → result string * Machine :=
  (* var letter = []rune("...") *)
  allocating (Runes (Z.of_nat (length letter))) (λ m,
    (* b := make([]rune, n) *)
    if (n <? 0)%Z || (maxAlloc <? 4 * n)%Z
    then (Panics "runtime error: makeslice: len out of range", m)
    else
      allocating (Runes n) (λ m,
        let b := replicate (Z.to_nat n) Ascii.zero in
        match fill (seq 0 (length b)) b m with
        | (Value b, m) =>
            (* return string(b) *)
            allocating (Bytes (Z.of_nat (length b)))
              (λ m, (Value (String.string_of_list_ascii b), m)) m
        | (Panics msg, m) => (Panics msg, m)
        | (Fatal msg, m) => (Fatal msg, m)
        end) m).

End generateRandomString.
End Random.

(** ** Sample controllers

    Small instances of the engine, used to run the model on concrete inputs. *)

Module Sample.
Import Engine.

(** A watched object: its key and a revision of its content. *)
Record object := Object {
  name : string;
  revision : nat }.

Definition keyOf (o : object) : string * option string := (name o, None).

(** A handler whose methods return normally. *)
Definition quiet {U : Type} (c : call U object) (w : unit) : option string * unit :=
  (None, w).

(** A handler whose [ObjectCreated] panics on the object [default/a]. *)
Definition panicky {U : Type} (c : call U object) (w : unit) : option string * unit :=
  match c with
  | ObjectCreated (Some o) =>
      if String.eqb (name o) "default/a" then (Some "nil pointer dereference", w)
      else (None, w)
  | _ => (None, w)
  end.

Definition authority : Deps unit object unit :=
  Authority.deps quiet cache_GetByKey keyOf keyOf.

Definition authority_panicky : Deps unit object unit :=
  Authority.deps panicky cache_GetByKey keyOf keyOf.

(** A project: its key, the users of its spec and whether it is enabled. *)
Record project := SampleProject {
  project_key : string;
  project_users : option (list (string * string));
  project_enabled : bool }.

Definition projects : Deps fields project unit :=
  Project.deps project_users project_enabled
    (λ _ w, (None, w)) cache_GetByKey
    (λ o, (project_key o, None)) (λ o, (project_key o, None)).

(** A controller with the given items queued and objects cached. *)
Definition controller_with {U : Type} (zero : U) (items : list (item U))
    (objs : gmap string object) : controller U object unit :=
  Controller (Workqueue items items [] false ∅) objs tt (Informerevent "" "" zero) None [].

(** A handler whose [Init] panics, as the team handler's does when it cannot
    create its clientsets. *)
Definition uninitialised {U : Type} (c : call U object) (w : unit) : option string * unit :=
  match c with
  | Init => (Some "stat /root/.kube/config: no such file or directory", w)
  | _ => (None, w)
  end.

Definition authority_uninitialised : Deps unit object unit :=
  Authority.deps uninitialised cache_GetByKey keyOf keyOf.

(** An API server for the team handler. It holds namespaces by name and no
    users, knows one authority, [lip6], which is enabled, and returns the
    team it is asked to update. It creates a namespace when [allowed], and
    refuses when not, as it does to a service account that may not create
    namespaces. The other writes are about objects it does not hold. *)
Definition apiserver : Type := gmap string TeamHandler.Namespace.

Definition Namespaces_Get (name : string) (w : apiserver)
  : TeamHandler.Namespace * option string :=
  match w !! name with
  | Some ns => (ns, None)
  | None =>
      ({| TeamHandler.Namespace_Name := "";
          TeamHandler.Namespace_OwnerReferences := [];
          TeamHandler.Namespace_Labels := ∅ |},
       Some ("namespaces " +:+ name +:+ " not found"))
  end.

Definition Authorities_Get_Enabled (name : string) (w : apiserver) : bool :=
  String.eqb name "lip6".

Definition serve (allowed : bool) (r : TeamHandler.request) (w : apiserver)
  : apiserver :=
  match r with
  | TeamHandler.Namespaces_Create ns =>
      if allowed then <[TeamHandler.Namespace_Name ns := ns]> w else w
  | _ => w
  end.

#[global] Instance TeamUsers_eq_dec : EqDecision TeamHandler.TeamUsers.
Proof. solve_decision. Defined.





(** The users of each namespace, for the team handler: [alice], a user,
    [bob], a manager, and [carol], who is not active. *)
Definition directory : Type := gmap string (list TeamHandler.User).

Definition Users_List (namespace : string) (w : directory)
  : option (list TeamHandler.User) :=
  Some (default [] (w !! namespace)).

Definition Users_Get (namespace name : string) (w : directory)
  : option TeamHandler.User :=
  List.find (λ u, String.eqb (TeamHandler.User_Name u) name) (default [] (w !! namespace)).

Definition person (name role : string) (active : bool) : TeamHandler.User :=
  {| TeamHandler.User_Name := name; TeamHandler.User_UID := "uid-" +:+ name;
     TeamHandler.User_Spec_FirstName := name; TeamHandler.User_Spec_LastName := "Doe";
     TeamHandler.User_Spec_Email := name +:+ "@lip6.fr";
     TeamHandler.User_Spec_Roles := [role];
     TeamHandler.User_Status_Active := active; TeamHandler.User_Status_AUP := true |}.

Definition alice : TeamHandler.User := person "alice" "user" true.
Definition bob : TeamHandler.User := person "bob" "manager" true.
Definition carol : TeamHandler.User := person "carol" "user" false.

Definition staff : directory := {[ "authority-lip6" := [alice; bob; carol] ]}.

(** A generator that counts: the draws of [Intn] go round its range. *)
Definition counting_Intn (n : Z) (src : Z) : Z * Z := ((src mod n)%Z, (src + 1)%Z).

End Sample.

(** * Properties *)

(** ** [dry] *)

Module DryFacts.
Import Dry.
Section Facts.
Context {ProjectUsers : Type}.
Variable Site : ProjectUsers → string.
Variable Username : ProjectUsers → string.

Lemma dry_inner_acc (oldValue : ProjectUsers) (newProject : list ProjectUsers) (b : bool) :
  foldl (λ exists_ newValue,
           if String.eqb (Site oldValue) (Site newValue)
              && String.eqb (Username oldValue) (Username newValue)
           then true else exists_)
        b newProject
  = b || dry_inner Site Username oldValue newProject.
Proof.
  unfold dry_inner. revert b.
  induction newProject as [|n l IH]; intros b; simpl.
  - by rewrite orb_false_r.
  - rewrite IH. symmetry. rewrite IH.
    by destruct (String.eqb _ _ && String.eqb _ _), b.
Qed.

Lemma dry_inner_cons (oldValue n : ProjectUsers) (l : list ProjectUsers) :
  dry_inner Site Username oldValue (n :: l)
  = String.eqb (Site oldValue) (Site n) && String.eqb (Username oldValue) (Username n)
    || dry_inner Site Username oldValue l.
Proof.
  unfold dry_inner at 1. simpl. rewrite dry_inner_acc.
  by destruct (String.eqb _ _ && String.eqb _ _).
Qed.

Lemma dry_inner_true (oldValue : ProjectUsers) (newProject : list ProjectUsers) :
  dry_inner Site Username oldValue newProject = true
  ↔ pair_appears Site Username newProject oldValue.
Proof.
  unfold pair_appears.
  induction newProject as [|n l IH].
  - split; [done | intros (? & []%elem_of_nil & _)].
  - rewrite dry_inner_cons, orb_true_iff, andb_true_iff, !String.eqb_eq, IH.
    split.
    + intros [[Hs Hu] | (m & Hm & Hs & Hu)].
      * exists n. split; [left | done].
      * exists m. split; [by right | done].
    + intros (m & [-> | Hm]%elem_of_cons & Hs & Hu); [by left | right; by exists m].
Qed.

Lemma dry_acc (oldProject newProject : list ProjectUsers) (acc : list string) :
  foldl (λ uniqueProject oldValue,
           if negb (dry_inner Site Username oldValue newProject)
           then uniqueProject ++ [Sprintf_delta (Site oldValue) (Username oldValue)]
           else uniqueProject)
        acc oldProject
  = acc ++ dry_spec Site Username oldProject newProject.
Proof.
  revert acc. induction oldProject as [|o l IH]; intros acc; simpl.
  - unfold dry_spec. simpl. by rewrite app_nil_r.
  - rewrite IH. unfold dry_spec. rewrite filter_cons.
    destruct (dry_inner Site Username o newProject) eqn:Hin; simpl.
    + apply dry_inner_true in Hin.
      destruct (decide (¬ pair_appears Site Username newProject o)); done.
    + destruct (decide (¬ pair_appears Site Username newProject o)) as [|Hyes].
      * rewrite fmap_cons. by rewrite <- app_assoc.
      * exfalso. apply Hyes. intros Hp%dry_inner_true. congruence.
Qed.

(** C9. For all lists [oldProject] and [newProject], [dry] returns exactly one
    entry ["<Site>?/delta/? <Username>"] for each element of [oldProject]
    whose [(Site, Username)] pair appears in no element of [newProject], in
    the order of [oldProject], and no entry for the other elements. *)
Theorem dry_removed_users (oldProject newProject : list ProjectUsers) :
  dry Site Username oldProject newProject
  = (λ o, Site o +:+ "?/delta/? " +:+ Username o)
      <$> filter (λ o, ¬ ∃ n, n ∈ newProject ∧ Site o = Site n ∧ Username o = Username n)
                 oldProject.
Proof.
  unfold dry. rewrite dry_acc. simpl. reflexivity.
Qed.

End Facts.
End DryFacts.

(** ** [SetNodeGeolocation] *)

Module NodelabelerFacts.
Import Nodelabeler.
Section Facts.
Context {Node Cluster : Type}.
Variable Name : Node → string.
Variable GetNodeIPAddresses : Node → string * string.
Variable GetGeolocationByIP : string → string → Cluster → bool * Cluster.

(** The lookups [SetNodeGeolocation] makes, in order. *)
Lemma SetNodeGeolocation_lookups (obj : Node) (c : Cluster) :
  let internalIP := (GetNodeIPAddresses obj).1 in
  let externalIP := (GetNodeIPAddresses obj).2 in
  let succeeded :=
    bool_decide (externalIP ≠ "") && (GetGeolocationByIP (Name obj) externalIP c).1 in
  lookups (SetNodeGeolocation Name GetNodeIPAddresses GetGeolocationByIP obj (State c []))
  = (if bool_decide (externalIP ≠ "") then [(External, externalIP)] else [])
    ++ (if bool_decide (internalIP ≠ "") && negb succeeded
        then [(Internal, internalIP)] else []).
Proof.
  unfold SetNodeGeolocation, lookup_by.
  destruct (GetNodeIPAddresses obj) as [i e]; simpl.
  destruct (String.eqb_spec e ""), (String.eqb_spec i ""); simpl;
    repeat case_bool_decide; try done; simpl;
    destruct (GetGeolocationByIP (Name obj) e c) as [[] c1]; simpl; try done;
    destruct (GetGeolocationByIP (Name obj) i _) as [r2 c2]; done.
Qed.

(** C2. The external IP is preferred: when it is non-empty it is looked up
    first; the internal IP is looked up if and only if it is non-empty and the
    external lookup did not succeed (no external IP, or its lookup returned
    false); when the external lookup succeeds no internal lookup is made. *)
Theorem SetNodeGeolocation_prefers_external (obj : Node) (c : Cluster) :
  let internalIP := (GetNodeIPAddresses obj).1 in
  let externalIP := (GetNodeIPAddresses obj).2 in
  let succeeded :=
    bool_decide (externalIP ≠ "") && (GetGeolocationByIP (Name obj) externalIP c).1 in
  let made :=
    lookups (SetNodeGeolocation Name GetNodeIPAddresses GetGeolocationByIP obj (State c [])) in
  (externalIP ≠ "" → head made = Some (External, externalIP))
  ∧ (externalIP = "" → ∀ ip, (External, ip) ∉ made)
  ∧ ((∃ ip, (Internal, ip) ∈ made) ↔ internalIP ≠ "" ∧ succeeded = false)
  ∧ (succeeded = true → ∀ ip, (Internal, ip) ∉ made)
  ∧ (∀ ip, (Internal, ip) ∈ made → made = [(Internal, ip)] ∨ made = [(External, externalIP); (Internal, ip)])
  ∧ (∀ ip, (Internal, ip) ∈ made → ip = internalIP).
Proof.
  intros internalIP externalIP succeeded made.
  pose proof (SetNodeGeolocation_lookups obj c) as Hmade. simpl in Hmade.
  fold internalIP externalIP succeeded made in Hmade.
  rewrite Hmade. clear Hmade made.
  destruct (bool_decide (externalIP ≠ "")) eqn:He;
    destruct (bool_decide (internalIP ≠ "")) eqn:Hi;
    destruct succeeded eqn:Hs; simpl;
    try apply bool_decide_eq_true in He; try apply bool_decide_eq_false in He;
    try apply bool_decide_eq_true in Hi; try apply bool_decide_eq_false in Hi;
    (split_and!; [ | | split | | | ]);
    try (intros [ip Hin]); try (intros Hx ip Hin); try (intros ip Hin);
    try (intros [? ?]); try (intros ?);
    repeat match goal with
           | H : _ ∈ [] |- _ => apply elem_of_nil in H; destruct H
           | H : _ ∈ _ :: _ |- _ => apply elem_of_cons in H as [H|H]
           | H : (_, _) = (_, _) |- _ => inversion H; clear H; subst
           end;
    try done; try (exists internalIP; set_solver); try (by left); try (by right).
Qed.

End Facts.
End NodelabelerFacts.

(** ** The engine *)

Module EngineFacts.
Import Engine.

Section Facts.
Context {U Obj World : Type} `{EqDecision U} {deps : Deps U Obj World}.
Implicit Types (s : controller U Obj World) (e : informerevent U) (c : call U Obj).

(** The call [processNextItem] dispatches for event [e] when the indexer
    answers [r], if any. *)
Definition to_dispatch e (r : lookup Obj) : option (call U Obj) :=
  if negb (exists_ r) then
    if String.eqb (function e) delete then Some (ObjectDeleted (found r)) else None
  else if String.eqb (function e) create then Some (ObjectCreated (found r))
  else if String.eqb (function e) update then Some (ObjectUpdated (found r) (updated e))
  else None.

Lemma emitted_app {A} (m : M A) s l :
  log (m s).2 = log s ++ l → emitted m s = l.
Proof. unfold emitted. intros ->. by rewrite drop_app_length. Qed.

Lemma elem_of_calls (l : list (entry U Obj)) c : c ∈ calls l ↔ Invoke c ∈ l.
Proof.
  unfold calls. rewrite list_elem_of_omap. split.
  - intros (en & Hen & Hc). destruct en; by simplify_eq.
  - intros Hin. by exists (Invoke c).
Qed.

Ltac run_pni :=
  unfold processNextItem, defer, as_informerevent, getByKey, queue_NumRequeues,
    invoke, on_queue, logf, queue_Get, wq_Get, panic, mbind, M_bind, mret, M_ret;
  simpl.

Ltac norm_log :=
  simpl; rewrite <- ?app_assoc; rewrite ?drop_app_length; simpl.

Ltac split_pni :=
  repeat (match goal with
          | |- context [String.eqb ?a ?b] => destruct (String.eqb a b) eqn:?
          | |- context [handler ?a ?b] => destruct (handler a b) as [[?|] ?] eqn:?
          | |- context [(?n <? 5)%nat] => destruct (n <? 5)%nat eqn:?
          | |- context [if printsKey then _ else _] => destruct printsKey
          end; simpl).

(** With an event at the head of the queue, the handler calls
    [processNextItem] makes. *)
Lemma processNextItem_calls s e rest :
  queue (wq s) = EventItem e :: rest →
  calls (emitted processNextItem s)
  = option_list (to_dispatch e (GetByKey (store s) (key e))).
Proof.
  intros Hq. unfold emitted, to_dispatch. run_pni. rewrite Hq. simpl.
  destruct (GetByKey (store s) (key e)) as [fo [] [er|]]; simpl;
    split_pni; norm_log; done.
Qed.

(** How it ends: with [true], unless the handler panics. *)
Lemma processNextItem_outcome s e rest :
  queue (wq s) = EventItem e :: rest →
  (processNextItem s).1
  = match to_dispatch e (GetByKey (store s) (key e)) with
    | Some c => match (handler c (world s)).1 with
                | Some v => Panic v
                | None => Ret true
                end
    | None => Ret true
    end.
Proof.
  intros Hq. unfold to_dispatch. run_pni. rewrite Hq. simpl.
  destruct (GetByKey (store s) (key e)) as [fo [] [er|]]; simpl;
    split_pni; by simplify_eq.
Qed.

(** A bare key at the head of the queue makes the type assertion panic. *)
Lemma processNextItem_key s k rest :
  queue (wq s) = KeyItem k :: rest →
  (processNextItem s).1
  = Panic "interface conversion: interface {} is string, not informerevent"
  ∧ emitted processNextItem s = [Info "processNextItem: start"].
Proof.
  intros Hq. unfold emitted. run_pni. rewrite Hq. simpl. by norm_log.
Qed.

(** With nothing queued, [processNextItem] blocks or, once the queue is shut
    down, returns [false]. *)
Lemma processNextItem_empty s :
  queue (wq s) = [] →
  (processNextItem s).1 = (if shuttingDown (wq s) then Ret false else Parked)
  ∧ emitted processNextItem s = [Info "processNextItem: start"].
Proof.
  intros Hq. unfold emitted. run_pni. rewrite Hq. simpl.
  destruct (shuttingDown (wq s)); by norm_log.
Qed.

(** C6. For every dequeued event, the object passed to the handler is the one
    [GetByKey] returns for the event's key on the indexer as it is when the
    event is to_dispatch; the event carries a key, a function and a change
    summary, and no object. *)
Theorem processNextItem_object_from_cache s c :
  Invoke c ∈ emitted processNextItem s →
  ∃ e rest,
    queue (wq s) = EventItem e :: rest
    ∧ is_dispatch c = true
    ∧ call_obj c = found (GetByKey (store s) (key e)).
Proof.
  intros Hin.
  destruct (queue (wq s)) as [|[e|k] rest] eqn:Hq.
  - apply processNextItem_empty in Hq as [_ Hl]. rewrite Hl in Hin.
    apply list_elem_of_singleton in Hin. done.
  - exists e, rest. split; [done|].
    apply elem_of_calls in Hin. rewrite (processNextItem_calls _ _ _ Hq) in Hin.
    unfold to_dispatch in Hin.
    repeat case_match; simpl in Hin;
      first [ by apply elem_of_nil in Hin
            | apply list_elem_of_singleton in Hin; by subst c ].
  - apply processNextItem_key in Hq as [_ Hl]. rewrite Hl in Hin.
    apply list_elem_of_singleton in Hin. done.
Qed.

Lemma not_elem_of_without (it : item U) (l : list (item U)) : it ∉ without it l.
Proof. unfold without. rewrite list_elem_of_filter. by intros [Hne _]. Qed.

(** The queue after an event has been handled without a panic: the rest,
    and behind it the bare key if the lookup failed with fewer than 5
    requeues counted (unless the queue already knows the key). *)
Lemma processNextItem_queue s e rest :
  queue (wq s) = EventItem e :: rest →
  shuttingDown (wq s) = false →
  (processNextItem s).1 = Ret true →
  queue (wq (processNextItem s).2)
  = match err (GetByKey (store s) (key e)) with
    | Some _ =>
        if (wq_NumRequeues (key e) (wq s) <? 5)%nat then
          if decide (KeyItem (key e) ∈ dirty (wq s)) then rest
          else if decide (KeyItem (key e) ∈ processing (wq s)) then rest
          else rest ++ [KeyItem (key e)]
        else rest
    | None => rest
    end.
Proof.
  intros Hq Hsd. run_pni. rewrite Hq. simpl.
  pose proof (not_elem_of_without (EventItem e) (dirty (wq s))) as Hnot.
  assert (Hnot' : EventItem e ∉ KeyItem (key e) :: without (EventItem e) (dirty (wq s))).
  { rewrite not_elem_of_cons. split; [done | exact Hnot]. }
  assert (Hd : KeyItem (key e) ∈ without (EventItem e) (dirty (wq s))
               ↔ KeyItem (key e) ∈ dirty (wq s)).
  { unfold without. rewrite list_elem_of_filter. split; [by intros [_ ?] | done]. }
  assert (Hp : KeyItem (key e) ∈ EventItem e :: processing (wq s)
               ↔ KeyItem (key e) ∈ processing (wq s)).
  { rewrite elem_of_cons. split; [by intros [?|?] | by right]. }
  destruct (GetByKey (store s) (key e)) as [fo [] [er|]]; simpl;
    unfold wq_NumRequeues; simpl;
    split_pni; unfold wq_Done, wq_Forget, wq_AddRateLimited, wq_Add, wq_NumRequeues;
    simpl; rewrite ?Hsd; simpl; repeat case_decide; simpl; try done;
    repeat case_decide; simpl; try done; tauto.
Qed.

(** C10. When the key of a dequeued event is no longer in the local cache, a
    handler is invoked only for a Delete event ([ObjectDeleted] with the nil
    object); a Create or Update event is dropped without any handler call:
    [processNextItem] returns [true], logs nothing but its start, and leaves
    the rest of the queue. *)
Theorem processNextItem_absent_key s e rest :
  GetByKey = cache_GetByKey →
  queue (wq s) = EventItem e :: rest →
  store s !! key e = None →
  calls (emitted processNextItem s)
  = (if String.eqb (function e) delete then [ObjectDeleted None] else [])
  ∧ (function e ≠ delete →
     (processNextItem s).1 = Ret true
     ∧ emitted processNextItem s = [Info "processNextItem: start"]
     ∧ queue (wq (processNextItem s).2) = rest).
Proof.
  intros HG Hq Hk.
  assert (Hr : GetByKey (store s) (key e) = Lookup None false None).
  { rewrite HG. unfold cache_GetByKey. rewrite Hk.
    rewrite bool_decide_false; [done | by intros []]. }
  split.
  - rewrite (processNextItem_calls _ _ _ Hq), Hr. unfold to_dispatch. simpl.
    by destruct (String.eqb _ _).
  - intros Hf. apply String.eqb_neq in Hf.
    unfold emitted. run_pni. rewrite Hq. simpl. rewrite Hr. simpl. rewrite Hf. simpl.
    unfold wq_Done. simpl.
    rewrite decide_False by apply not_elem_of_without. simpl.
    split_and!; [done | by norm_log | done].
Qed.

(** *** What computations add to the log *)

(** [m] only ever appends to the log, and what it appends satisfies [P]. *)
Definition emits {A} (P : entry U Obj → Prop) (m : M A) : Prop :=
  ∀ s, ∃ l, log (m s).2 = log s ++ l ∧ Forall P l.

Lemma emits_emitted {A} P (m : M A) s :
  emits P m → log (m s).2 = log s ++ emitted m s ∧ Forall P (emitted m s).
Proof.
  intros Hm. destruct (Hm s) as (l & Hl & HP).
  by rewrite (emitted_app _ _ _ Hl).
Qed.

Lemma emits_mono {A} (P Q : entry U Obj → Prop) (m : M A) :
  (∀ en, P en → Q en) → emits P m → emits Q m.
Proof.
  intros HPQ Hm s. destruct (Hm s) as (l & Hl & HP).
  exists l. split; [done|]. eapply Forall_impl; eauto.
Qed.

Lemma emits_silent {A} P (m : M A) :
  (∀ s, log (m s).2 = log s) → emits P m.
Proof. intros Hm s. exists []. by rewrite Hm, app_nil_r. Qed.

Lemma emits_mret {A} P (a : A) : emits P (mret a).
Proof. by apply emits_silent. Qed.

Lemma emits_panic {A} P v : emits P (panic (A := A) v).
Proof. by apply emits_silent. Qed.

Lemma emits_logf P en : P en → emits P (logf en).
Proof. intros HP s. exists [en]. split; [done | by constructor]. Qed.

Lemma emits_on_queue P f : emits P (on_queue f).
Proof. by apply emits_silent. Qed.

Lemma emits_on_store P f : emits P (on_store f).
Proof. by apply emits_silent. Qed.

Lemma emits_set_event P e er : emits P (set_event e er).
Proof. by apply emits_silent. Qed.

Lemma emits_get_event P : emits P get_event.
Proof. by apply emits_silent. Qed.

Lemma emits_getByKey P k : emits P (getByKey k).
Proof. by apply emits_silent. Qed.

Lemma emits_queue_NumRequeues P k : emits P (queue_NumRequeues k).
Proof. by apply emits_silent. Qed.

Lemma emits_queue_Get P : emits P queue_Get.
Proof.
  apply emits_silent. intros s. unfold queue_Get.
  destruct (wq_Get (wq s)) as [[it q]|]; [done|]. by destruct (shuttingDown _).
Qed.

Lemma emits_as_informerevent P it : emits P (as_informerevent it).
Proof. destruct it; [apply emits_mret | apply emits_panic]. Qed.

Lemma emits_invoke P c : P (Invoke c) → emits P (invoke c).
Proof.
  intros HP s. exists [Invoke c]. split; [|by constructor].
  unfold invoke. by destruct (handler c (world s)) as [[v|] w].
Qed.

Lemma emits_bind {A B} P (m : M A) (f : A → M B) :
  emits P m → (∀ a, emits P (f a)) → emits P (m ≫= f).
Proof.
  intros Hm Hf s. destruct (Hm s) as (l & Hl & HP).
  unfold mbind, M_bind. destruct (m s) as [[a|v| |v| ] s1]; simpl in *;
    try (by exists l).
  destruct (Hf a s1) as (l' & Hl' & HP').
  exists (l ++ l'). rewrite Hl', Hl, <- app_assoc. split; [done|].
  by apply Forall_app.
Qed.

Lemma emits_defer {A} P (d : option string → M unit) (body : M A) :
  emits P body → (∀ p, emits P (d p)) → emits P (defer d body).
Proof.
  intros Hm Hd s. destruct (Hm s) as (l & Hl & HP).
  unfold defer. destruct (body s) as [[a|v| |v| ] s1]; simpl in *;
    try (by exists l).
  - destruct (Hd None s1) as (l' & Hl' & HP').
    exists (l ++ l'). rewrite Forall_app, app_assoc, <- Hl. split; [|done].
    by destruct (d None s1) as [[| | | | ] s2].
  - destruct (Hd (Some v) s1) as (l' & Hl' & HP').
    exists (l ++ l'). rewrite Forall_app, app_assoc, <- Hl. split; [|done].
    by destruct (d (Some v) s1) as [[| | | | ] s2].
Qed.

Lemma emits_goroutine P (m : M unit) : emits P m → emits P (goroutine m).
Proof.
  intros Hm s. destruct (Hm s) as (l & Hl & HP). exists l. split; [|done].
  unfold goroutine. by destruct (m s) as [[| | | | ] s1].
Qed.

Lemma emits_HandleCrash P p : (∀ v, P (Crash v)) → emits P (HandleCrash p).
Proof.
  intros HP. destruct p as [v|]; simpl; [|apply emits_mret].
  apply emits_bind; [by apply emits_logf | intros _; apply emits_panic].
Qed.

Lemma emits_if {A} P (b : bool) (m1 m2 : M A) :
  emits P m1 → emits P m2 → emits P (if b then m1 else m2).
Proof. by destruct b. Qed.

(** Whatever [processNextItem] does, the log only grows. *)
Lemma emits_processNextItem : emits (λ _, True) processNextItem.
Proof.
  unfold processNextItem.
  apply emits_bind; [by apply emits_logf|]. intros _.
  apply emits_bind; [apply emits_queue_Get|]. intros [it|]; [|apply emits_mret].
  apply emits_defer; [|intros _; apply emits_on_queue].
  apply emits_bind; [apply emits_as_informerevent|]. intros e.
  apply emits_bind; [apply emits_getByKey|]. intros r.
  apply emits_bind.
  { destruct (err r); [|apply emits_mret].
    apply emits_bind; [apply emits_queue_NumRequeues|]. intros n.
    apply emits_if.
    - apply emits_bind; [by apply emits_logf | intros _; apply emits_on_queue].
    - apply emits_bind; [by apply emits_logf|]. intros _.
      apply emits_bind; [apply emits_on_queue | intros _; by apply emits_logf]. }
  intros _. apply emits_bind.
  { repeat first [ apply emits_if | apply emits_mret | by apply emits_logf
                 | by apply emits_invoke | apply emits_bind; [|intros _] ]. }
  intros _. apply emits_bind; [apply emits_on_queue | intros _; apply emits_mret].
Qed.

Lemma emits_runWorker_loop fuel : emits (λ _, True) (runWorker_loop fuel).
Proof.
  induction fuel as [|fuel IH]; simpl; [by apply emits_silent|].
  apply emits_bind; [apply emits_processNextItem|]. intros [].
  - apply emits_bind; [by apply emits_logf | by intros _].
  - by apply emits_logf.
Qed.

Lemma emits_runWorker fuel : emits (λ _, True) (runWorker fuel).
Proof.
  apply emits_bind; [by apply emits_logf | intros _; apply emits_runWorker_loop].
Qed.

Lemma emits_wait_Until (f : M unit) : emits (λ _, True) f → emits (λ _, True) (wait_Until f).
Proof. intros Hf. apply emits_defer; [done | intros p; by apply emits_HandleCrash]. Qed.

(** The informer's closures log an [Info] line and never fail. *)
Definition is_info (en : entry U Obj) : Prop :=
  match en with Info _ => True | _ => False end.

Lemma deliver_quiet n s :
  (deliver n s).1 = Ret tt ∧ ∃ l, log (deliver n s).2 = log s ++ l ∧ Forall is_info l.
Proof.
  assert (Hnil : ∃ l : list (entry U Obj), log s = log s ++ l ∧ Forall is_info l).
  { exists []. by rewrite app_nil_r. }
  destruct n as [obj|obj|obj]; simpl.
  - destruct (DeletionHandlingMetaNamespaceKeyFunc obj) as [k [er|]]; [done|].
    unfold AddFunc, UpdateFunc, mbind, M_bind, on_store, get_store, get_event; simpl.
    destruct (store s !! k) as [old|]; simpl;
      destruct (MetaNamespaceKeyFunc obj) as [k' [er|]]; simpl;
      (split; [done|]); eexists [_]; (split; [done|]); by repeat constructor.
  - destruct (DeletionHandlingMetaNamespaceKeyFunc obj) as [k [er|]]; [done|].
    unfold AddFunc, UpdateFunc, mbind, M_bind, on_store, get_store, get_event; simpl.
    destruct (store s !! k) as [old|]; simpl;
      destruct (MetaNamespaceKeyFunc obj) as [k' [er|]]; simpl;
      (split; [done|]); eexists [_]; (split; [done|]); by repeat constructor.
  - destruct (DeletionHandlingMetaNamespaceKeyFunc obj) as [k [er|]] eqn:Hk; [done|].
    unfold DeleteFunc, mbind, M_bind, on_store, get_store, get_event; simpl.
    destruct (store s !! k) as [old|]; simpl; [|done]. rewrite Hk. simpl.
    (split; [done|]); eexists [_]; (split; [done|]); by repeat constructor.
Qed.

Lemma informer_Run_quiet ns s :
  (informer_Run ns s).1 = Ret tt
  ∧ ∃ l, log (informer_Run ns s).2 = log s ++ l ∧ Forall is_info l.
Proof.
  revert s. induction ns as [|n ns IH]; intros s; simpl.
  - split; [done|]. exists []. by rewrite app_nil_r.
  - unfold mbind, M_bind.
    destruct (deliver_quiet n s) as (Ho & l & Hl & HP).
    destruct (deliver n s) as [o s1]; simpl in *. subst o.
    destruct (IH s1) as (Ho' & l' & Hl' & HP').
    split; [done|]. exists (l ++ l'). rewrite Hl', Hl, <- app_assoc.
    split; [done | by apply Forall_app].
Qed.

Lemma emits_informer_Run ns : emits (λ _, True) (informer_Run ns).
Proof.
  intros s. destruct (informer_Run_quiet ns s) as (_ & l & Hl & HP).
  exists l. split; [done|]. eapply Forall_impl; eauto.
Qed.

Lemma emits_await_stop parked after fuel : emits (λ _, True) (await_stop parked after fuel).
Proof.
  revert parked. induction after as [|ns after IH]; intros parked; simpl.
  - apply emits_mret.
  - apply emits_bind; [apply emits_informer_Run|]. intros _.
    apply emits_bind; [|intros p; apply IH].
    apply emits_goroutine, emits_wait_Until.
    destruct parked; [apply emits_runWorker_loop | apply emits_runWorker].
Qed.

(** *** The cache sync barrier *)

(** Entries that may come before the cache has synced: no dispatch to the
    handler, no start of the worker. *)
Definition quiet (en : entry U Obj) : Prop :=
  match en with
  | Invoke c => is_dispatch c = false
  | Go f => f ≠ "wait.Until(c.runWorker)"
  | CacheSync _ => False
  | _ => True
  end.

Lemma mbind_eq {A B} (m : M A) (f : A → M B) s :
  (m ≫= f) s
  = match m s with
    | (Ret a, s') => f a s'
    | (Panic v, s') => (Panic v, s')
    | (Parked, s') => (Parked, s')
    | (Crashed v, s') => (Crashed v, s')
    | (Exhausted, s') => (Exhausted, s')
    end.
Proof. reflexivity. Qed.

Lemma run_body_shape hasSynced before after fuel s o s' :
  run_body hasSynced before after fuel s = (o, s') →
  ∃ pre post,
    log s' = log s ++ pre ++ post
    ∧ Forall quiet pre
    ∧ ((post = [] ∧ ∃ v, o = Panic v ∧ (handler Init (world s)).1 = Some v)
       ∨ ∃ post', post = CacheSync hasSynced :: post'
                  ∧ (hasSynced = false →
                     post' = [HandleError "Error syncing cache"] ∧ o = Ret tt)).
Proof.
  unfold run_body. intros Heq.
  rewrite mbind_eq in Heq. unfold logf at 1 in Heq. cbv beta iota in Heq.
  rewrite mbind_eq in Heq. unfold invoke at 1 in Heq. simpl in Heq.
  destruct (handler Init (world s)) as [[v|] w] eqn:HInit.
  { simplify_eq. exists [Info "run: initiating"; Invoke Init], []. simpl.
    rewrite <- app_assoc. split_and!; [done | by repeat constructor | left; eauto]. }
  rewrite mbind_eq in Heq. unfold logf at 1 in Heq. cbv beta iota in Heq.
  rewrite mbind_eq in Heq.
  match type of Heq with
  | context [informer_Run before ?s3] =>
      destruct (informer_Run_quiet before s3) as (Ho & l & Hl & HP);
      destruct (informer_Run before s3) as [o3 s4]
  end.
  simpl in Ho, Hl. subst o3.
  rewrite mbind_eq in Heq. unfold WaitForCacheSync at 1 in Heq.
  rewrite mbind_eq in Heq. unfold logf at 1 in Heq. cbv beta iota in Heq.
  unfold mret at 1, M_ret at 1 in Heq. cbv beta iota in Heq.
  assert (Hpre : Forall quiet ([Info "run: initiating"; Invoke Init; Go "c.informer.Run"] ++ l)).
  { apply Forall_app. split; [by repeat constructor|].
    eapply Forall_impl; [exact HP|]. by intros []. }
  destruct hasSynced;
    [change (negb true) with false in Heq | change (negb false) with true in Heq];
    cbv iota in Heq.
  - match type of Heq with
    | ?rest ?s5 = _ =>
        assert (Hrest : emits (λ _, True) rest);
        [| destruct (Hrest s5) as (l2 & Hl2 & _); rewrite Heq in Hl2; simpl in Hl2 ]
    end.
    { apply emits_bind; [by apply emits_logf|]. intros _.
      apply emits_bind; [by apply emits_logf|]. intros _.
      apply emits_bind; [|intros p; apply emits_await_stop].
      apply emits_goroutine, emits_wait_Until, emits_runWorker. }
    eexists _, (CacheSync true :: l2). split_and!; [|exact Hpre|right].
    + rewrite Hl2, Hl. simpl. by rewrite <- !app_assoc.
    + eexists. split; [done|]. done.
  - unfold logf in Heq. simplify_eq. simpl.
    eexists _, [CacheSync false; HandleError "Error syncing cache"].
    split_and!; [|exact Hpre|right; eauto].
    rewrite Hl. by rewrite <- !app_assoc.
Qed.

Lemma run_eq hasSynced before after fuel s :
  run hasSynced before after fuel s
  = match run_body hasSynced before after fuel s with
    | (Ret a, s1) =>
        (Ret a, Controller (wq_ShutDown (wq s1)) (store s1) (world s1) (event s1) (errv s1)
                           (log s1 ++ [ShutDown]))
    | (Panic v, s1) =>
        (Panic v, Controller (wq_ShutDown (wq s1)) (store s1) (world s1) (event s1) (errv s1)
                             ((log s1 ++ [ShutDown]) ++ [Crash v]))
    | r => r
    end.
Proof.
  unfold run, defer. by destruct (run_body hasSynced before after fuel s) as [[[]|v| |v| ] s1].
Qed.

Lemma run_shape hasSynced before after fuel s :
  ∃ pre post,
    emitted (run hasSynced before after fuel) s = pre ++ post
    ∧ Forall quiet pre
    ∧ (post = []
       ∨ ∃ post', post = CacheSync hasSynced :: post'
                  ∧ (hasSynced = false → Forall quiet post')).
Proof.
  unfold emitted. rewrite run_eq.
  destruct (run_body hasSynced before after fuel s) as [o s1] eqn:Hbody.
  destruct (run_body_shape _ _ _ _ _ _ _ Hbody)
    as (pre & post & Hl & Hpre & [[-> (v & -> & _)] | (post' & -> & Hfalse)]).
  - exists (pre ++ [ShutDown; Crash v]), []. simpl. rewrite Hl, ?app_nil_r.
    rewrite <- !app_assoc, drop_app_length. simpl.
    split_and!; [done | | by left].
    apply Forall_app. split; [done | by repeat constructor].
  - destruct o as [[]|v| |v| ]; simpl; rewrite Hl.
    + exists pre, (CacheSync hasSynced :: post' ++ [ShutDown]).
      rewrite <- !app_assoc, drop_app_length. simpl.
      split_and!; [done | done | right].
      eexists; split; [done|]. intros Hs. destruct (Hfalse Hs) as [-> _].
      by repeat constructor.
    + exists pre, (CacheSync hasSynced :: post' ++ [ShutDown; Crash v]).
      rewrite <- !app_assoc, drop_app_length. simpl.
      split_and!; [done | done | right].
      eexists; split; [done|]. intros Hs. by destruct (Hfalse Hs) as [_ ?].
    + exists pre, (CacheSync hasSynced :: post').
      rewrite drop_app_length.
      split_and!; [done | done | right].
      eexists; split; [done|]. intros Hs. by destruct (Hfalse Hs) as [_ ?].
    + exists pre, (CacheSync hasSynced :: post').
      rewrite drop_app_length.
      split_and!; [done | done | right].
      eexists; split; [done|]. intros Hs. by destruct (Hfalse Hs) as [_ ?].
    + exists pre, (CacheSync hasSynced :: post').
      rewrite drop_app_length.
      split_and!; [done | done | right].
      eexists; split; [done|]. intros Hs. by destruct (Hfalse Hs) as [_ ?].
Qed.

Lemma after_the_barrier (l pre post : list (entry U Obj)) hasSynced x a b :
  l = pre ++ post →
  Forall quiet pre →
  (post = [] ∨ ∃ post', post = CacheSync hasSynced :: post'
                        ∧ (hasSynced = false → Forall quiet post')) →
  ¬ quiet x →
  (∀ ok, x ≠ CacheSync ok) →
  l = a ++ x :: b →
  CacheSync true ∈ a.
Proof.
  intros -> Hpre Hpost Hx Hx' Heq.
  apply app_eq_inv in Heq as [(k & -> & Hk) | (k & -> & Hk)].
  - destruct k as [|y k]; simpl in Hk.
    + destruct Hpost as [-> | (post' & -> & _)]; [done|].
      simplify_eq. by destruct (Hx' hasSynced).
    + simplify_eq. apply Forall_app in Hpre as [_ Hpre].
      apply Forall_cons in Hpre as [? _]. done.
  - destruct Hpost as [-> | (post' & -> & Hfalse)].
    { by destruct k. }
    destruct k as [|y k]; simpl in Hk; simplify_eq.
    { by destruct (Hx' hasSynced). }
    destruct hasSynced.
    + apply elem_of_app. right. left.
    + exfalso. specialize (Hfalse eq_refl).
      apply Forall_app in Hfalse as [_ Hfalse].
      apply Forall_cons in Hfalse as [? _]. done.
Qed.

(** C3. In every execution of [run], no handler method ([ObjectCreated],
    [ObjectUpdated], [ObjectDeleted]) is invoked, and the worker is not
    started, before [WaitForCacheSync] has returned true; if the
    synchronization fails, nothing is to_dispatch, no worker is started, and
    [run] returns. *)
Theorem run_cache_sync_barrier hasSynced before after fuel s :
  let l := emitted (run hasSynced before after fuel) s in
  (∀ pre c post, l = pre ++ Invoke c :: post → is_dispatch c = true → CacheSync true ∈ pre)
  ∧ (∀ pre post, l = pre ++ Go "wait.Until(c.runWorker)" :: post → CacheSync true ∈ pre)
  ∧ (hasSynced = false →
     (∀ c, Invoke c ∈ l → is_dispatch c = false)
     ∧ (Go "wait.Until(c.runWorker)" ∉ l)
     ∧ ((handler Init (world s)).1 = None →
        (run hasSynced before after fuel s).1 = Ret tt)).
Proof.
  intros l.
  destruct (run_shape hasSynced before after fuel s) as (p1 & p2 & Hl & Hp1 & Hp2).
  fold l in Hl. split_and!.
  - intros pre c post Hsplit Hc.
    apply (after_the_barrier l p1 p2 hasSynced (Invoke c) pre post Hl Hp1 Hp2);
      [simpl; by rewrite Hc | done | done].
  - intros pre post Hsplit.
    apply (after_the_barrier l p1 p2 hasSynced (Go "wait.Until(c.runWorker)")
             pre post Hl Hp1 Hp2); [simpl; by intros [] | done | done].
  - intros ->.
    assert (Hall : ∀ en, en ∈ l → en = CacheSync false ∨ quiet en).
    { intros en. rewrite Hl, elem_of_app. rewrite Forall_forall in Hp1.
      intros [Hen | Hen]; [right; by apply Hp1|].
      destruct Hp2 as [-> | (post' & -> & Hq)]; [by apply elem_of_nil in Hen|].
      apply elem_of_cons in Hen as [-> | Hen]; [by left|].
      right. specialize (Hq eq_refl). rewrite Forall_forall in Hq. by apply Hq. }
    split_and!.
    + intros c Hc. by destruct (Hall _ Hc).
    + intros Hgo. by destruct (Hall _ Hgo).
    + intros HInit. rewrite run_eq.
      destruct (run_body false before after fuel s) as [o s1] eqn:Hbody.
      destruct (run_body_shape _ _ _ _ _ _ _ Hbody)
        as (pre & post & _ & _ & [[_ (v & _ & Hv)] | (post' & _ & Hfalse)]).
      * congruence.
      * destruct (Hfalse eq_refl) as [_ ->]. done.
Qed.
(** *** Failures and panics *)

(** [queue.Done], deferred, has run whether the handler returned or panicked. *)
Lemma processNextItem_done s e rest :
  queue (wq s) = EventItem e :: rest →
  processing (wq (processNextItem s).2) = without (EventItem e) (EventItem e :: processing (wq s)).
Proof.
  intros Hq. run_pni. rewrite Hq. simpl.
  destruct (GetByKey (store s) (key e)) as [fo [] [er|]]; simpl;
    split_pni; unfold wq_Done, wq_Forget, wq_AddRateLimited, wq_Add; simpl;
    repeat (case_decide; simpl); try done;
    destruct (shuttingDown (wq s)); simpl; repeat (case_decide; simpl); done.
Qed.

Lemma calls_app (l1 l2 : list (entry U Obj)) : calls (l1 ++ l2) = calls l1 ++ calls l2.
Proof. apply omap_app. Qed.

(** A worker that finds an event whose handler panics. *)
Lemma worker_crash s e rest c v fuel :
  queue (wq s) = EventItem e :: rest →
  to_dispatch e (GetByKey (store s) (key e)) = Some c →
  (handler c (world s)).1 = Some v →
  let worker := goroutine (wait_Until (runWorker (S fuel))) in
  (worker s).1 = Crashed v
  ∧ calls (emitted worker s) = [c]
  ∧ last (emitted worker s) = Some (Crash v).
Proof.
  intros Hq Hd Hv worker.
  set (s1 := Controller (wq s) (store s) (world s) (event s) (errv s)
                        (log s ++ [Info "runWorker: starting"])).
  pose proof (processNextItem_outcome s1 e rest Hq) as Ho.
  pose proof (processNextItem_calls s1 e rest Hq) as Hc.
  destruct (emits_emitted _ processNextItem s1 emits_processNextItem) as [Hl _].
  simpl in Ho, Hc. rewrite Hd in Ho, Hc. rewrite Hv in Ho.
  assert (Hw : worker s
               = (Crashed v,
                  Controller (wq (processNextItem s1).2) (store (processNextItem s1).2)
                    (world (processNextItem s1).2) (event (processNextItem s1).2)
                    (errv (processNextItem s1).2)
                    (log s ++ [Info "runWorker: starting"]
                       ++ emitted processNextItem s1 ++ [Crash v]))).
  { subst worker. unfold goroutine, wait_Until, defer, runWorker. rewrite mbind_eq.
    unfold logf at 1. cbv beta iota. simpl runWorker_loop. rewrite mbind_eq.
    fold s1. destruct (processNextItem s1) as [o s2]. simpl in Ho, Hl. subst o.
    simpl. rewrite Hl. simpl. by rewrite <- !app_assoc. }
  unfold emitted at 1 2. rewrite Hw. simpl. rewrite drop_app_length.
  split; [done|]. split.
  - change (Info "runWorker: starting" :: emitted processNextItem s1 ++ [Crash v])
      with ([Info "runWorker: starting"] ++ emitted processNextItem s1 ++ [Crash v]).
    rewrite !calls_app, Hc. done.
  - change (Info "runWorker: starting" :: emitted processNextItem s1 ++ [Crash v])
      with (([Info "runWorker: starting"] ++ emitted processNextItem s1) ++ [Crash v]).
    by rewrite last_snoc.
Qed.

(** C4, as the code has it. A handler that returns never stops the worker:
    [processNextItem] returns [true], whatever the lookup said. A panic raised
    by the handler is not recovered: the deferred [queue.Done] runs, the panic
    leaves [processNextItem] and [runWorker], [HandleCrash] logs it and panics
    again, and the process ends with nothing else to_dispatch. *)
Theorem processNextItem_panic_not_recovered s e rest :
  queue (wq s) = EventItem e :: rest →
  ((∀ c, c ∈ calls (emitted processNextItem s) → (handler c (world s)).1 = None) →
   (processNextItem s).1 = Ret true)
  ∧ (∀ c v,
       c ∈ calls (emitted processNextItem s) →
       (handler c (world s)).1 = Some v →
       (processNextItem s).1 = Panic v
       ∧ (EventItem e ∉ processing (wq (processNextItem s).2))
       ∧ ∀ fuel,
           let worker := goroutine (wait_Until (runWorker (S fuel))) in
           (worker s).1 = Crashed v
           ∧ calls (emitted worker s) = [c]
           ∧ last (emitted worker s) = Some (Crash v)).
Proof.
  intros Hq.
  rewrite (processNextItem_calls _ _ _ Hq), (processNextItem_outcome _ _ _ Hq).
  destruct (to_dispatch e (GetByKey (store s) (key e))) as [c0|] eqn:Hd; simpl.
  - split.
    + intros Hc. rewrite Hc; [done | by left].
    + intros c v ->%list_elem_of_singleton Hv. rewrite Hv.
      split_and!; [done | |].
      * rewrite (processNextItem_done _ _ _ Hq). apply not_elem_of_without.
      * intros fuel. by eapply worker_crash.
  - split; [done|]. by intros c v []%elem_of_nil.
Qed.

(** On its way out [processNextItem] forgets the key: the requeue count the
    rate limiter keeps for it is back at zero. *)
Lemma processNextItem_forgets s e rest :
  queue (wq s) = EventItem e :: rest →
  (processNextItem s).1 = Ret true →
  failures (wq (processNextItem s).2) = base.delete (key e) (failures (wq s)).
Proof.
  intros Hq. run_pni. rewrite Hq. simpl.
  destruct (GetByKey (store s) (key e)) as [fo [] [er|]]; simpl;
    split_pni; unfold wq_Done, wq_Forget, wq_AddRateLimited, wq_Add, wq_NumRequeues; simpl;
    try done;
    repeat (case_decide; simpl); rewrite ?delete_delete_eq; try done;
    destruct (shuttingDown (wq s)); simpl; repeat (case_decide; simpl);
    by rewrite ?delete_insert_eq, ?delete_delete_eq.
Qed.

Lemma processNextItem_resets_requeues s e rest :
  queue (wq s) = EventItem e :: rest →
  (processNextItem s).1 = Ret true →
  wq_NumRequeues (key e) (wq (processNextItem s).2) = 0%nat.
Proof.
  intros Hq Ho. unfold wq_NumRequeues.
  by rewrite (processNextItem_forgets _ _ _ Hq Ho), lookup_delete_eq.
Qed.

(** The rate limiter of a controller that has only run [processNextItem]
    counts nothing. *)
Lemma processNextItem_no_failures s :
  failures (wq s) = ∅ →
  (processNextItem s).1 = Ret true →
  failures (wq (processNextItem s).2) = ∅.
Proof.
  intros Hf Ho. destruct (queue (wq s)) as [|[e|k] rest] eqn:Hq.
  - apply processNextItem_empty in Hq as [Hq _]. rewrite Hq in Ho.
    destruct (shuttingDown (wq s)); done.
  - by rewrite (processNextItem_forgets _ _ _ Hq Ho), Hf, delete_empty.
  - apply processNextItem_key in Hq as [Hq _]. by rewrite Hq in Ho.
Qed.

(** The branch that gives up ("no more retries", [HandleError]) is taken only
    when 5 requeues are counted on entry. *)
Lemma processNextItem_gives_up s e rest er :
  queue (wq s) = EventItem e :: rest →
  HandleError er ∈ emitted processNextItem s →
  (5 ≤ wq_NumRequeues (key e) (wq s))%nat.
Proof.
  intros Hq. unfold emitted. run_pni. rewrite Hq. simpl.
  unfold wq_NumRequeues; simpl.
  destruct (default 0 (failures (wq s) !! key e) <? 5)%nat eqn:Hn.
  - destruct (GetByKey (store s) (key e)) as [fo [] [er'|]]; simpl;
      split_pni; norm_log; intros Hin;
      repeat (apply elem_of_cons in Hin as [Hin|Hin]; [done|]);
      by apply elem_of_nil in Hin.
  - intros _. apply Nat.ltb_ge in Hn. exact Hn.
Qed.

(** *** The worker comes to rest *)

Definition is_event (it : item U) : bool :=
  match it with EventItem _ => true | KeyItem _ => false end.

(** The events waiting in a queue. *)
Definition pending (l : list (item U)) : nat := length (List.filter is_event l).

Lemma processNextItem_queue_tail s e rest :
  queue (wq s) = EventItem e :: rest →
  ∃ tl, queue (wq (processNextItem s).2) = rest ++ tl
        ∧ (tl = [] ∨ tl = [KeyItem (key e)]).
Proof.
  intros Hq. run_pni. rewrite Hq. simpl.
  pose proof (not_elem_of_without (EventItem e) (dirty (wq s))) as Hnot.
  assert (Hnot' : EventItem e ∉ KeyItem (key e) :: without (EventItem e) (dirty (wq s))).
  { rewrite not_elem_of_cons. split; [done | exact Hnot]. }
  destruct (GetByKey (store s) (key e)) as [fo [] [er|]]; simpl;
    split_pni; unfold wq_Done, wq_Forget, wq_AddRateLimited, wq_Add; simpl;
    destruct (shuttingDown (wq s)); simpl; repeat (case_decide; simpl); try done;
    first [ by exists []; rewrite app_nil_r; auto
          | by exists [KeyItem (key e)]; auto ].
Qed.

Lemma pending_tail (rest tl : list (item U)) e :
  tl = [] ∨ tl = [KeyItem (key e)] → pending (rest ++ tl) = pending rest.
Proof.
  unfold pending. rewrite List.filter_app, length_app.
  intros [-> | ->]; simpl; lia.
Qed.

(** The worker always comes to rest: it blocks on the empty queue, returns
    once the queue is shut down, or panics, within one iteration per waiting
    event and one more. *)
Lemma runWorker_loop_rests fuel s :
  pending (queue (wq s)) < fuel → (runWorker_loop fuel s).1 ≠ Exhausted.
Proof.
  revert s. induction fuel as [|fuel IH]; intros s Hfuel; [lia|].
  simpl. rewrite mbind_eq.
  destruct (queue (wq s)) as [|[e|k] rest] eqn:Hq.
  - destruct (processNextItem_empty s Hq) as [Ho _].
    destruct (processNextItem s) as [o s1]. simpl in Ho. subst o.
    by destruct (shuttingDown (wq s)).
  - pose proof (processNextItem_outcome s e rest Hq) as Ho.
    destruct (processNextItem_queue_tail s e rest Hq) as (tl & Htl & Hcase).
    destruct (processNextItem s) as [o s1]. simpl in Ho, Htl. subst o.
    destruct (to_dispatch _ _) as [c|]; [destruct (handler c (world s)).1|];
      try done;
      rewrite mbind_eq; unfold logf at 1; cbv beta iota;
      apply IH; simpl; rewrite Htl, (pending_tail _ _ _ Hcase);
      unfold pending in *; simpl in Hfuel; lia.
  - destruct (processNextItem_key s k rest Hq) as [Ho _].
    destruct (processNextItem s) as [o s1]. simpl in Ho. by subst o.
Qed.

End Facts.

(** *** The order of dispatch *)

Section Order.
Context {U : Type} `{EqDecision U}.
Implicit Types (l : list (item U)) (x : item U).

Lemma firsts_snoc l x :
  firsts (l ++ [x]) = if decide (x ∈ firsts l) then firsts l else firsts l ++ [x].
Proof. unfold firsts. by rewrite foldl_app. Qed.

Lemma elem_of_firsts l x : x ∈ firsts l ↔ x ∈ l.
Proof.
  induction l as [|y l IH] using rev_ind; [done|].
  rewrite firsts_snoc. case_decide as Hy.
  - rewrite elem_of_app, list_elem_of_singleton, IH.
    split; [by left|]. intros [?| ->]; [done|]. by apply IH.
  - by rewrite !elem_of_app, IH.
Qed.

Lemma firsts_snoc_seen l x : x ∈ l → firsts (l ++ [x]) = firsts l.
Proof. intros Hx. rewrite firsts_snoc, decide_True; [done|]. by apply elem_of_firsts. Qed.

Lemma firsts_snoc_new l x : x ∉ l → firsts (l ++ [x]) = firsts l ++ [x].
Proof. intros Hx. rewrite firsts_snoc, decide_False; [done|]. by rewrite elem_of_firsts. Qed.

Lemma firsts_prefix l1 l2 : firsts l1 `prefix_of` firsts (l1 ++ l2).
Proof.
  induction l2 as [|x l2 IH] using rev_ind.
  - by rewrite app_nil_r.
  - rewrite app_assoc, firsts_snoc. case_decide; [done|].
    by apply prefix_app_r.
Qed.

Lemma NoDup_firsts l : NoDup (firsts l).
Proof.
  induction l as [|x l IH] using rev_ind; [constructor|].
  rewrite firsts_snoc. case_decide; [done|].
  apply NoDup_app. split_and!; [done | | apply NoDup_singleton].
  intros y Hy ->%list_elem_of_singleton. done.
Qed.

(** Up to the first occurrence of [x]. *)
Lemma firsts_split l1 l2 x :
  x ∉ l1 → ∃ k, firsts (l1 ++ x :: l2) = firsts l1 ++ x :: k.
Proof.
  intros Hx. induction l2 as [|y l2 (k & IH)] using rev_ind.
  - exists []. by rewrite firsts_snoc_new.
  - change (l1 ++ x :: l2 ++ [y]) with (l1 ++ (x :: l2) ++ [y]).
    rewrite app_assoc, firsts_snoc. case_decide.
    + by exists k.
    + exists (k ++ [y]). rewrite IH. by rewrite <- app_assoc.
Qed.

Lemma NoDup_split_unique (l1 l2 k1 k2 : list (item U)) y :
  NoDup (l1 ++ y :: l2) → l1 ++ y :: l2 = k1 ++ y :: k2 → l1 = k1.
Proof.
  revert k1. induction l1 as [|a l1 IH]; intros k1 Hnd Heq.
  - destruct k1 as [|b k1]; [done|]. simpl in *. simplify_eq.
    apply NoDup_cons in Hnd as [Hnot _]. destruct Hnot.
    apply elem_of_app. right. left.
  - destruct k1 as [|b k1]; simpl in *; simplify_eq.
    + apply NoDup_cons in Hnd as [Hnot _]. destruct Hnot.
      apply elem_of_app. right. left.
    + f_equal. apply NoDup_cons in Hnd as [_ Hnd]. by eapply IH.
Qed.

End Order.

(** *** The informer and the worker side by side *)

Section Together.
Context {U Obj World : Type} `{EqDecision U} {deps : Deps U Obj World}.
Implicit Types (s : controller U Obj World) (h : history U Obj World)
  (t : turn Obj) (x : item U) (p : position U Obj) (q : workqueue U).

Ltac run_pni :=
  unfold processNextItem, defer, as_informerevent, getByKey, queue_NumRequeues,
    invoke, on_queue, logf, queue_Get, wq_Get, panic, mbind, M_bind, mret, M_ret;
  simpl.

Ltac split_pni :=
  repeat (match goal with
          | |- context [String.eqb ?a ?b] => destruct (String.eqb a b) eqn:?
          | |- context [handler ?a ?b] => destruct (handler a b) as [[?|] ?] eqn:?
          | |- context [(?n <? 5)%nat] => destruct (n <? 5)%nat eqn:?
          | |- context [if printsKey then _ else _] => destruct printsKey
          end; simpl).

Lemma together_snoc ts t (st : position U Obj * controller U Obj World) :
  together (ts ++ [t]) st = record (together ts st) t.
Proof. unfold together. by rewrite foldl_app. Qed.

(** How a call of [processNextItem] ends, as a position of the worker. *)
Definition call_ends (o : outcome bool) : position U Obj :=
  match o with
  | Ret continue => Returned continue
  | Panic v => Panicking v
  | Parked => InGet
  | Crashed v => Gone v
  | Exhausted => Calling
  end.

Lemma now_together ts (st : position U Obj * controller U Obj World) :
  now (together ts st) = foldl take_turn st ts.
Proof.
  unfold together.
  assert (Hgen : ∀ h, now (foldl record h ts) = foldl take_turn (now h) ts).
  { induction ts as [|t ts IH]; intros h; [done|]. simpl. by rewrite IH. }
  by rewrite Hgen.
Qed.

Lemma mbind_assoc {A B C} (m : M A) (f : A → M B) (g : B → M C) s :
  ((m ≫= f) ≫= g) s = (m ≫= (λ a, f a ≫= g)) s.
Proof. rewrite !mbind_eq. by destruct (m s) as [[a|v| |v| ] s1]. Qed.

Lemma defer_ext {A} (d : option string → M unit) (b1 b2 : M A) s :
  b1 s = b2 s → defer d b1 s = defer d b2 s.
Proof. unfold defer. by intros ->. Qed.

Lemma mbind_ext {A B} (m : M A) (f g : A → M B) s :
  (∀ a s', f a s' = g a s') → (m ≫= f) s = (m ≫= g) s.
Proof. intros Hfg. rewrite !mbind_eq. destruct (m s) as [[a|v| |v| ] s1]; auto. Qed.

Lemma mret_bind {A B} (a : A) (f : A → M B) s : (mret a ≫= f) s = f a s.
Proof. done. Qed.

(** [processNextItem] from [Get] on, in stretches. *)
Lemma processNextItem_stretches s :
  processNextItem s
  = (logf (Info "processNextItem: start") ;;
     got ← queue_Get;
     match got with
     | None => mret false
     | Some event =>
         defer (λ _, on_queue (wq_Done event))
               (x ← look_up event; retry x.1 x.2 ;; dispatch x.1 x.2 ;; mret true)
     end) s.
Proof.
  unfold processNextItem.
  apply mbind_ext. intros _ s1. apply mbind_ext. intros [event|] s2; [|done].
  apply defer_ext. unfold look_up. rewrite mbind_assoc.
  apply mbind_ext. intros e s3. rewrite mbind_assoc.
  apply mbind_ext. intros r s4. rewrite mret_bind. cbn [fst snd].
  unfold retry. apply mbind_ext. intros _ s5.
  unfold dispatch. symmetry. apply mbind_assoc.
Qed.

Lemma look_up_ends event s :
  (∃ e r, look_up event s = (Ret (e, r), s)) ∨ (∃ v, look_up event s = (Panic v, s)).
Proof. destruct event as [e|k]; [left | right]; by eexists _, _ || eexists. Qed.

Lemma retry_returns e (r : lookup Obj) s : (retry e r s).1 = Ret tt.
Proof.
  unfold retry. destruct (err r) as [er|]; [|done].
  rewrite mbind_eq. unfold queue_NumRequeues. cbv beta iota.
  by destruct (_ <? 5)%nat.
Qed.

Lemma dispatch_ends e (r : lookup Obj) s :
  (dispatch e r s).1 = Ret tt ∨ ∃ v, (dispatch e r s).1 = Panic v.
Proof.
  unfold dispatch, mbind, M_bind, invoke, logf, on_queue, mret, M_ret. simpl.
  destruct (negb (exists_ r)); split_pni; eauto.
Qed.

(** The stretches, run one after the other with nothing in between, are
    [processNextItem]. *)
Lemma worker_alone s :
  ∃ k, now (together (replicate k Worker) (Calling, s))
       = (call_ends (processNextItem s).1, (processNextItem s).2).
Proof.
  destruct (processNextItem s) as [o sf] eqn:Hpni. cbn [fst snd].
  rewrite processNextItem_stretches in Hpni.
  rewrite mbind_eq in Hpni. unfold logf at 1 in Hpni. cbv beta iota in Hpni.
  set (s1 := Controller (wq s) (store s) (world s) (event s) (errv s)
                        (log s ++ [Info "processNextItem: start"])) in *.
  assert (H1 : take_turn (Calling, s) Worker = (InGet, s1)) by done.
  rewrite mbind_eq in Hpni.
  assert (H2 : take_turn (InGet, s1) Worker
               = stretch queue_Get
                   (λ got, match got with
                           | Some event => Taken event
                           | None => Returned false
                           end) Panicking InGet s1) by done.
  unfold stretch in H2.
  assert (Hgot : (∃ it s2, queue_Get s1 = (Ret (Some it), s2))
                 ∨ queue_Get s1 = (Ret None, s1) ∨ queue_Get s1 = (Parked, s1)).
  { unfold queue_Get.
    destruct (wq_Get (wq s1)) as [[it q]|]; [|destruct (shuttingDown (wq s1))]; eauto. }
  destruct Hgot as [(it & s2 & Hget) | [Hget | Hget]];
    rewrite Hget in H2, Hpni.
  2:{ exists 2. rewrite now_together. cbn [replicate foldl]. rewrite H1, H2.
      by injection Hpni as <- <-. }
  2:{ exists 2. rewrite now_together. cbn [replicate foldl]. rewrite H1, H2.
      by injection Hpni as <- <-. }
  assert (H3 : take_turn (Taken it, s2) Worker
               = stretch (look_up it) (λ er, Found it er.1 er.2)
                         (λ v, Leaving it (Some v)) (Taken it) s2) by done.
  assert (H6 : ∀ s0, take_turn (Leaving it None, s0) Worker
                     = (Returned true, (on_queue (wq_Done it) s0).2)) by done.
  assert (H6' : ∀ v s0, take_turn (Leaving it (Some v), s0) Worker
                        = (Panicking v, (on_queue (wq_Done it) s0).2)) by done.
  unfold defer in Hpni. rewrite mbind_eq in Hpni. unfold stretch in H3.
  destruct (look_up_ends it s2) as [(e & r & Hlook) | (v & Hlook)];
    rewrite Hlook in H3, Hpni.
  2:{ exists 4. rewrite now_together. cbn [replicate foldl].
      rewrite H1, H2, H3, H6'. by injection Hpni as <- <-. }
  cbn [fst snd] in H3, Hpni.
  assert (H4 : take_turn (Found it e r, s2) Worker
               = stretch (retry e r) (λ _, Retried it e r)
                         (λ v, Leaving it (Some v)) (Found it e r) s2) by done.
  unfold stretch in H4. rewrite mbind_eq in Hpni.
  pose proof (retry_returns e r s2) as Hretry.
  destruct (retry e r s2) as [o4 s4]. simpl in Hretry. subst o4.
  assert (H5 : take_turn (Retried it e r, s4) Worker
               = stretch (dispatch e r) (λ _, Leaving it None)
                         (λ v, Leaving it (Some v)) (Retried it e r) s4) by done.
  unfold stretch in H5. rewrite mbind_eq in Hpni.
  destruct (dispatch_ends e r s4) as [Hdis | [v Hdis]];
    destruct (dispatch e r s4) as [o5 s5]; simpl in Hdis; subst o5.
  - exists 6. rewrite now_together. cbn [replicate foldl].
    rewrite H1, H2, H3, H4, H5, H6. by injection Hpni as <- <-.
  - exists 6. rewrite now_together. cbn [replicate foldl].
    rewrite H1, H2, H3, H4, H5, H6'. by injection Hpni as <- <-.
Qed.

(** The queue as far as its items go: the counters of the rate limiter
    left aside. *)
Definition items_eq q q' : Prop :=
  queue q = queue q' ∧ dirty q = dirty q' ∧ processing q = processing q'
  ∧ shuttingDown q = shuttingDown q'.

Lemma items_eq_refl q : items_eq q q.
Proof. done. Qed.

Lemma wq_Add_items x q q0 : items_eq q q0 → items_eq (wq_Add x q) (wq_Add x q0).
Proof.
  destruct q, q0. intros (Hq & Hd & Hp & Hs). simpl in *. subst.
  unfold wq_Add, items_eq. simpl.
  destruct shuttingDown1; [done|]. by repeat case_decide.
Qed.

(** What the closure adds is what it leaves in [event]. *)
Lemma deliver_offered n s :
  wq (deliver n s).2
  = match offered n s with
    | Some e => wq_Add (EventItem e) (wq s)
    | None => wq s
    end.
Proof.
  unfold offered.
  destruct n as [obj|obj|obj]; simpl;
    destruct (DeletionHandlingMetaNamespaceKeyFunc obj) as [k [er|]] eqn:Hk; try done;
    unfold AddFunc, UpdateFunc, DeleteFunc, mbind, M_bind, on_store, get_store,
      get_event, set_event, logf, on_queue, mret, M_ret; simpl;
    destruct (store s !! k) as [old|]; simpl; try done;
    rewrite ?Hk; simpl;
    try (by destruct (MetaNamespaceKeyFunc obj) as [k' [er|]]).
Qed.

(** What a turn does to the queue's items: nothing, or what one of [Add],
    [Get] and [Done] does. *)
Inductive queue_call q q' p p' : option (item U) → option (item U) → Prop :=
| call_none :
    items_eq q q' → holding p' = holding p → queue_call q q' p p' None None
| call_Add x :
    items_eq (wq_Add x q) q' → holding p' = holding p →
    queue_call q q' p p' (Some x) None
| call_Get x q1 :
    wq_Get q = Some (x, q1) → items_eq q1 q' →
    holding p = None → holding p' = Some x →
    queue_call q q' p p' None (Some x)
| call_Done x :
    holding p = Some x → holding p' = None → items_eq (wq_Done x q) q' →
    queue_call q q' p p' None None.

Lemma turn_queue_call (st : position U Obj * controller U Obj World) t :
  queue_call (wq st.2) (wq (take_turn st t).2) st.1 (take_turn st t).1
             (added_by st t) (taken_by st t).
Proof.
  destruct st as [p s]. unfold take_turn, added_by, taken_by. simpl.
  destruct t as [n|].
  - (* the informer *)
    assert (Hp : queue_call (wq s) (wq (deliver n s).2) p p
                   (EventItem <$> offered n s) None).
    { rewrite deliver_offered. destruct (offered n s) as [e|]; simpl.
      - by apply call_Add.
      - by apply call_none. }
    destruct p; try exact Hp. by apply call_none.
  - (* the worker *)
    destruct p as [ | | |event|event e r|event e r|event [v|]|[]|v| |v];
      unfold worker, stretch; simpl.
    + by apply call_none.
    + by apply call_none.
    + unfold queue_Get.
      destruct (wq_Get (wq s)) as [[x q1]|] eqn:Hget; simpl.
      * by eapply call_Get.
      * destruct (shuttingDown (wq s)); by apply call_none.
    + unfold look_up, as_informerevent, mbind, M_bind.
      destruct event as [e|k]; simpl; by apply call_none.
    + unfold retry. destruct (err r) as [er|]; [|by apply call_none].
      unfold mbind, M_bind, queue_NumRequeues. simpl.
      destruct (_ <? 5)%nat; simpl.
      * apply call_Add; [|done]. unfold wq_AddRateLimited. by apply wq_Add_items.
      * by apply call_none.
    + unfold dispatch, mbind, M_bind, invoke, logf, on_queue, mret, M_ret. simpl.
      destruct (negb (exists_ r)); split_pni; by apply call_none.
    + by apply (call_Done _ _ _ _ event).
    + by apply (call_Done _ _ _ _ event).
    + by apply call_none.
    + by apply call_none.
    + by apply call_none.
    + by apply call_none.
    + by apply call_none.
Qed.

(** What holds of the queue in every interleaving. *)
Record inv h : Prop := Inv {
  inv_open : shuttingDown (wq (now h).2) = false;
  inv_firsts : firsts (dispatched h ++ queue (wq (now h).2)) = firsts (added h);
  inv_dirty : ∀ x, x ∈ dirty (wq (now h).2) → x ∈ added h;
  inv_processing : processing (wq (now h).2) = option_list (holding (now h).1);
  inv_holding : ∀ x, holding (now h).1 = Some x → x ∈ dispatched h }.

Lemma seen h x : inv h → x ∈ dispatched h ++ queue (wq (now h).2) ↔ x ∈ added h.
Proof. intros [_ Hf _ _ _]. by rewrite <- (elem_of_firsts (added h)), <- Hf, elem_of_firsts. Qed.

Lemma inv_record h t : inv h → inv (record h t).
Proof.
  intros Hinv. pose proof Hinv as [Hopen Hf Hd Hp Hh].
  pose proof (turn_queue_call (now h) t) as Hcall.
  unfold record.
  destruct Hcall as [(Hq' & Hd' & Hp' & Hs') Hhold
                    | x (Hq' & Hd' & Hp' & Hs') Hhold
                    | x q1 Hget (Hq' & Hd' & Hp' & Hs') Hnone Hhold
                    | x Hhold Hnone (Hq' & Hd' & Hp' & Hs') ];
    split; simpl; rewrite <- ?Hq', <- ?Hd', <- ?Hp', <- ?Hs', ?Hhold, ?app_nil_r;
    try done.
  - (* Add *) unfold wq_Add. rewrite Hopen. by repeat case_decide.
  - unfold wq_Add. rewrite Hopen.
    destruct (decide (x ∈ dirty (wq (now h).2))) as [Hin|Hnin].
    { rewrite firsts_snoc_seen by (by apply Hd). done. }
    destruct (decide (x ∈ processing (wq (now h).2))) as [Hin|Hnin']; simpl.
    + rewrite firsts_snoc_seen; [done|].
      apply (seen h x Hinv), elem_of_app. left. apply Hh.
      rewrite Hp in Hin. destruct (holding (now h).1) as [y|]; simpl in Hin.
      * by apply list_elem_of_singleton in Hin as ->.
      * by apply elem_of_nil in Hin.
    + by rewrite app_assoc, !firsts_snoc, Hf.
  - unfold wq_Add. rewrite Hopen. intros y.
    repeat case_decide; simpl; rewrite ?elem_of_cons, elem_of_app, list_elem_of_singleton;
      intros; destruct_or?; subst; eauto.
  - unfold wq_Add. rewrite Hopen. by repeat case_decide.
  - (* Get *) unfold wq_Get in Hget.
    destruct (queue (wq (now h).2)); simplify_eq. done.
  - unfold wq_Get in Hget.
    destruct (queue (wq (now h).2)) as [|y rest] eqn:Hqueue; simplify_eq. simpl.
    by rewrite <- app_assoc.
  - unfold wq_Get in Hget.
    destruct (queue (wq (now h).2)) as [|y rest] eqn:Hqueue; simplify_eq. simpl.
    intros z [_ Hz]%list_elem_of_filter. eauto.
  - unfold wq_Get in Hget.
    destruct (queue (wq (now h).2)) as [|y rest] eqn:Hqueue; simplify_eq. simpl.
    by rewrite Hp, Hnone.
  - intros y [= <-]. apply elem_of_app. right. left.
  - (* Done *) unfold wq_Done. by case_decide.
  - unfold wq_Done. case_decide; simpl; [|done].
    rewrite app_assoc, firsts_snoc_seen; [done|].
    apply elem_of_app. left. by apply Hh.
  - unfold wq_Done. by case_decide.
  - unfold wq_Done. rewrite Hnone.
    assert (Hw : without x (processing (wq (now h).2)) = []).
    { rewrite Hp, Hhold. simpl.
      destruct (without x [x]) as [|y l] eqn:Hl; [done|]. exfalso.
      assert (Hy : y ∈ without x [x]) by (rewrite Hl; left).
      apply list_elem_of_filter in Hy as [Hne Hy].
      by apply list_elem_of_singleton in Hy. }
    case_decide; simpl; by rewrite Hw.
  - by rewrite Hnone.
Qed.

Lemma inv_together ts (w : World) (zero : U) :
  inv (together ts (Starting, Start_controller w zero)).
Proof.
  induction ts as [|t ts IH] using rev_ind.
  - split; try done; simpl; by intros x []%elem_of_nil.
  - rewrite together_snoc. by apply inv_record.
Qed.

(** *** [run] starts one worker *)

(** Entries that tell no start of a goroutine. *)
Definition no_go (en : entry U Obj) : Prop :=
  match en with Go _ => False | _ => True end.

Lemma goroutines_app (l1 l2 : list (entry U Obj)) :
  goroutines (l1 ++ l2) = goroutines l1 ++ goroutines l2.
Proof. apply omap_app. Qed.

Lemma goroutines_no_go (l : list (entry U Obj)) : Forall no_go l → goroutines l = [].
Proof. induction 1 as [|[] l Hen _ IH]; simpl in *; done. Qed.

Lemma no_go_processNextItem : emits no_go processNextItem.
Proof.
  unfold processNextItem.
  apply emits_bind; [by apply emits_logf|]. intros _.
  apply emits_bind; [apply emits_queue_Get|]. intros [it|]; [|apply emits_mret].
  apply emits_defer; [|intros _; apply emits_on_queue].
  apply emits_bind; [apply emits_as_informerevent|]. intros e.
  apply emits_bind; [apply emits_getByKey|]. intros r.
  apply emits_bind.
  { destruct (err r); [|apply emits_mret].
    apply emits_bind; [apply emits_queue_NumRequeues|]. intros n.
    apply emits_if.
    - apply emits_bind; [by apply emits_logf | intros _; apply emits_on_queue].
    - apply emits_bind; [by apply emits_logf|]. intros _.
      apply emits_bind; [apply emits_on_queue | intros _; by apply emits_logf]. }
  intros _. apply emits_bind.
  { repeat first [ apply emits_if | apply emits_mret | by apply emits_logf
                 | by apply emits_invoke | apply emits_bind; [|intros _] ]. }
  intros _. apply emits_bind; [apply emits_on_queue | intros _; apply emits_mret].
Qed.

Lemma no_go_runWorker_loop fuel : emits no_go (runWorker_loop fuel).
Proof.
  induction fuel as [|fuel IH]; simpl; [by apply emits_silent|].
  apply emits_bind; [apply no_go_processNextItem|]. intros [].
  - apply emits_bind; [by apply emits_logf | by intros _].
  - by apply emits_logf.
Qed.

Lemma no_go_worker (f : M unit) fuel :
  (f = runWorker_loop fuel ∨ f = runWorker fuel) →
  emits no_go (goroutine (wait_Until f)).
Proof.
  intros Hf. apply emits_goroutine, emits_defer; [|intros p; by apply emits_HandleCrash].
  destruct Hf as [-> | ->]; [apply no_go_runWorker_loop|].
  apply emits_bind; [by apply emits_logf | intros _; apply no_go_runWorker_loop].
Qed.

Lemma no_go_informer_Run ns : emits no_go (informer_Run ns).
Proof.
  intros s. destruct (informer_Run_quiet ns s) as (_ & l & Hl & HP).
  exists l. split; [done|]. eapply Forall_impl; [exact HP|]. by intros [].
Qed.

Lemma no_go_await_stop parked after fuel : emits no_go (await_stop parked after fuel).
Proof.
  revert parked. induction after as [|ns after IH]; intros parked; simpl.
  - apply emits_mret.
  - apply emits_bind; [apply no_go_informer_Run|]. intros _.
    apply emits_bind; [|intros p; apply IH].
    apply (no_go_worker _ fuel). destruct parked; auto.
Qed.

Lemma run_body_goroutines hasSynced before after fuel s o s' :
  run_body hasSynced before after fuel s = (o, s') →
  ∃ l, log s' = log s ++ l
       ∧ goroutines l `prefix_of` ["c.informer.Run"; "wait.Until(c.runWorker)"].
Proof.
  unfold run_body. intros Heq.
  rewrite mbind_eq in Heq. unfold logf at 1 in Heq. cbv beta iota in Heq.
  rewrite mbind_eq in Heq. unfold invoke at 1 in Heq. simpl in Heq.
  destruct (handler Init (world s)) as [[v|] w] eqn:HInit.
  { simplify_eq. exists [Info "run: initiating"; Invoke Init]. simpl.
    rewrite <- app_assoc. split; [done|]. apply prefix_nil. }
  rewrite mbind_eq in Heq. unfold logf at 1 in Heq. cbv beta iota in Heq.
  rewrite mbind_eq in Heq.
  match type of Heq with
  | context [informer_Run before ?s3] =>
      destruct (informer_Run_quiet before s3) as (Ho & l & Hl & HP);
      destruct (informer_Run before s3) as [o3 s4]
  end.
  simpl in Ho, Hl. subst o3.
  assert (Hno : goroutines l = []).
  { apply goroutines_no_go. eapply Forall_impl; [exact HP|]. by intros []. }
  rewrite mbind_eq in Heq. unfold WaitForCacheSync at 1 in Heq.
  rewrite mbind_eq in Heq. unfold logf at 1 in Heq. cbv beta iota in Heq.
  unfold mret at 1, M_ret at 1 in Heq. cbv beta iota in Heq.
  destruct hasSynced;
    [change (negb true) with false in Heq | change (negb false) with true in Heq];
    cbv iota in Heq.
  - rewrite mbind_eq in Heq. unfold logf at 1 in Heq. cbv beta iota in Heq.
    rewrite mbind_eq in Heq. unfold logf at 1 in Heq. cbv beta iota in Heq.
    match type of Heq with
    | ?rest ?s5 = _ =>
        assert (Hrest : emits no_go rest);
        [| destruct (Hrest s5) as (l2 & Hl2 & HP2); rewrite Heq in Hl2; simpl in Hl2 ]
    end.
    { apply emits_bind; [|intros p; apply no_go_await_stop].
      apply (no_go_worker _ fuel). by right. }
    exists ([Info "run: initiating"; Invoke Init; Go "c.informer.Run"] ++ l
            ++ [CacheSync true; Info "run: cache sync complete";
                Go "wait.Until(c.runWorker)"] ++ l2).
    split.
    + rewrite Hl2, Hl. simpl. by rewrite <- !app_assoc.
    + rewrite !goroutines_app, Hno, (goroutines_no_go l2 HP2). done.
  - unfold logf in Heq. simplify_eq. simpl.
    exists ([Info "run: initiating"; Invoke Init; Go "c.informer.Run"] ++ l
            ++ [CacheSync false; HandleError "Error syncing cache"]).
    split.
    + rewrite Hl. simpl. by rewrite <- !app_assoc.
    + rewrite !goroutines_app, Hno. simpl. by exists ["wait.Until(c.runWorker)"].
Qed.

Lemma run_starts_one_worker hasSynced before after fuel s :
  goroutines (emitted (run hasSynced before after fuel) s)
  `prefix_of` ["c.informer.Run"; "wait.Until(c.runWorker)"].
Proof.
  unfold emitted. rewrite run_eq.
  destruct (run_body hasSynced before after fuel s) as [o s1] eqn:Hbody.
  destruct (run_body_goroutines _ _ _ _ _ _ _ Hbody) as (l & Hl & Hgo).
  destruct o as [[]|v| |v| ];
    simpl in *; rewrite Hl, <- ?app_assoc, drop_app_length, ?goroutines_app; simpl;
    by rewrite ?app_nil_r.
Qed.

(** C8, as the code has it. [run] starts one worker, after the informer.
    Its goroutine goes through [processNextItem] stretch by stretch; whatever
    the informer delivers in between, at any time at most one item is being
    processed, the one the worker has taken and not yet marked done, so that
    no two handler invocations overlap; and events are first dispatched in
    the order in which they were first enqueued: when an event is taken off
    the queue for the first time, every event enqueued before it has been
    taken. *)
Theorem events_dispatched_in_enqueue_order :
  (∀ hasSynced before after fuel s,
     goroutines (emitted (run hasSynced before after fuel) s)
     `prefix_of` ["c.informer.Run"; "wait.Until(c.runWorker)"])
  ∧ (∀ s, ∃ k, now (together (replicate k Worker) (Calling, s))
               = (call_ends (processNextItem s).1, (processNextItem s).2))
  ∧ (∀ (w : World) (zero : U) ts,
       let h := together ts (Starting, Start_controller w zero) in
       processing (wq (now h).2) = option_list (holding (now h).1)
       ∧ firsts (dispatched h) `prefix_of` firsts (added h)
       ∧ (∀ x y pre post a b,
            dispatched h = pre ++ y :: post → y ∉ pre →
            added h = a ++ y :: b → y ∉ a →
            x ∈ a → x ∈ pre)).
Proof.
  split_and!; [apply run_starts_one_worker | apply worker_alone |].
  intros w zero ts h. pose proof (inv_together ts w zero) as [_ Hf _ Hp _]. fold h in Hf, Hp.
  assert (Hpre : firsts (dispatched h) `prefix_of` firsts (added h)).
  { rewrite <- Hf. apply firsts_prefix. }
  split_and!; [exact Hp | exact Hpre |].
  intros x y pre post a b Hd Hy Ha Hya Hx.
  destruct Hpre as [k Hk].
  destruct (firsts_split pre post y Hy) as (k1 & Hk1).
  destruct (firsts_split a b y Hya) as (k2 & Hk2).
  rewrite <- Hd in Hk1. rewrite <- Ha in Hk2.
  rewrite Hk1, Hk2, <- app_assoc in Hk. simpl in Hk.
  assert (Heq : firsts a = firsts pre).
  { eapply NoDup_split_unique; [|exact Hk].
    rewrite <- Hk2. apply NoDup_firsts. }
  apply (elem_of_firsts pre). rewrite <- Heq. by apply elem_of_firsts.
Qed.

End Together.

(** A Create event for [default/a], which the cache no longer holds. *)
Lemma processNextItem_absent_key_witness :
  let s := Sample.controller_with tt
             [EventItem (Informerevent "default/a" create tt)] ∅ in
  calls (emitted (processNextItem (deps := Sample.authority)) s) = []
  ∧ (processNextItem (deps := Sample.authority) s).1 = Ret true.
Proof.
  intros s.
  destruct (processNextItem_absent_key (deps := Sample.authority) s
              (Informerevent "default/a" create tt) [] eq_refl eq_refl eq_refl)
    as [Hcalls Hdrop].
  split; [exact Hcalls|].
  apply Hdrop. discriminate.
Defined.


(** The informer adds [default/a] at revision 1 and sees it updated to
    revision 2 before the worker gets to the Create event: the handler is given
    revision 2, the object the cache holds at dispatch. *)
Lemma processNextItem_object_from_cache_witness :
  let s := (informer_Run (deps := Sample.authority)
              [ Added (Sample.Object "default/a" 1);
                Updated (Sample.Object "default/a" 2) ]
              (Start_controller tt tt)).2 in
  let c := ObjectCreated (Some (Sample.Object "default/a" 2)) in
  Invoke c ∈ emitted (processNextItem (deps := Sample.authority)) s
  ∧ ∃ e rest,
      queue (wq s) = EventItem e :: rest
      ∧ is_dispatch c = true
      ∧ call_obj c = found (GetByKey (Deps := Sample.authority) (store s) (key e)).
Proof.
  intros s c.
  assert (Hin : Invoke c ∈ emitted (processNextItem (deps := Sample.authority)) s).
  { vm_compute. do 2 right. left. }
  split; [exact Hin|].
  exact (processNextItem_object_from_cache (deps := Sample.authority) s c Hin).
Defined.



(** C8, as stated, fails. The queue compares events as values. The worker
    has taken the Update event of [default/p] and is about to call the
    handler when the informer sees the object updated again and then
    deleted: the second Update event equals the one being processed and is
    only marked, the Delete event is queued; when the worker is done the
    marked event is queued again, behind the Delete event, and is taken after
    it, though it was enqueued before. *)
Lemma equal_event_dispatched_after_later_one :
  let p1 := Sample.Object "default/p" 1 in
  let p2 := Sample.Object "default/p" 2 in
  let p3 := Sample.Object "default/p" 3 in
  let C := EventItem (Informerevent "default/p" create tt) in
  let U := EventItem (Informerevent "default/p" update tt) in
  let D := EventItem (Informerevent "default/p" delete tt) in
  let ts := [Informer (Added p1)] ++ replicate 8 Worker
            ++ [Informer (Updated p2)] ++ replicate 4 Worker
            ++ [Informer (Updated p3); Informer (Deleted p3)]
            ++ replicate 17 Worker in
  let h := together (deps := Sample.authority) ts (Starting, Start_controller tt tt) in
  added h = [C; U; U; D]
  ∧ dispatched h = [C; U; D; U]
  ∧ calls (log (now h).2)
    = [ObjectCreated (Some p1); ObjectUpdated (Some p2) tt; ObjectDeleted None].
Proof. vm_compute. split_and!; reflexivity. Qed.

(** C4, as stated, fails. The informer adds [default/a] and [default/b]; the
    handler panics on [default/a]. The process ends there: [default/b] stays
    queued and is never handled, and [default/c], added later, is not even
    seen. *)
Lemma handler_panic_ends_the_process :
  let r := run (deps := Sample.authority_panicky) true
             [ Added (Sample.Object "default/a" 1); Added (Sample.Object "default/b" 1) ]
             [ [ Added (Sample.Object "default/c" 1) ] ] 8
             (Start_controller tt tt) in
  r.1 = Crashed "nil pointer dereference"
  ∧ calls (log r.2) = [Init; ObjectCreated (Some (Sample.Object "default/a" 1))]
  ∧ queue (wq r.2) = [EventItem (Informerevent "default/b" create tt)]
  ∧ store r.2 !! "default/c" = None.
Proof. vm_compute. done. Qed.

(** The same handler, on the Create event of [default/a]. *)
Lemma processNextItem_panic_not_recovered_witness :
  let s := Sample.controller_with tt
             [EventItem (Informerevent "default/a" create tt)]
             {[ "default/a" := Sample.Object "default/a" 1 ]} in
  (processNextItem (deps := Sample.authority_panicky) s).1 = Panic "nil pointer dereference"
  ∧ (goroutine (wait_Until (runWorker (deps := Sample.authority_panicky) 1)) s).1
    = Crashed "nil pointer dereference".
Proof.
  intros s.
  destruct (processNextItem_panic_not_recovered (deps := Sample.authority_panicky) s
              (Informerevent "default/a" create tt) [] eq_refl) as [_ Hpanic].
  destruct (Hpanic (ObjectCreated (Some (Sample.Object "default/a" 1)))
                   "nil pointer dereference") as (Ho & _ & Hworker).
  - vm_compute. left.
  - reflexivity.
  - split; [exact Ho|]. exact (proj1 (Hworker 0)).
Defined.

End EngineFacts.

(** ** The project controller's change summary *)

Module ProjectFacts.
Import Engine EngineFacts.

Section Facts.
Context {Obj ProjectUsers World : Type} `{EqDecision ProjectUsers}.
Variable Spec_Users : Obj → option (list ProjectUsers).
Variable Status_Enabled : Obj → bool.
Variable handler : call fields Obj → World → option string * World.
Variable GetByKey : gmap string Obj → string → lookup Obj.
Variable MetaNamespaceKeyFunc : Obj → string * option string.
Variable DeletionHandlingMetaNamespaceKeyFunc : Obj → string * option string.

#[local] Instance project_deps : Deps fields Obj World :=
  Project.deps Spec_Users Status_Enabled handler GetByKey
    MetaNamespaceKeyFunc DeletionHandlingMetaNamespaceKeyFunc.

Lemma DeepEqual_elems_eq (a b : list ProjectUsers) :
  length a = length b → Project.DeepEqual_elems a b = bool_decide (a = b).
Proof.
  revert b. induction a as [|x a IH]; intros [|y b] Hlen; simpl in *; try done.
  rewrite IH by congruence.
  destruct (decide (x = y)) as [->|Hne].
  - rewrite bool_decide_true by done. simpl.
    apply bool_decide_ext. naive_solver.
  - rewrite (bool_decide_false (x = y)) by done. simpl.
    symmetry. apply bool_decide_false. naive_solver.
Qed.

(** [reflect.DeepEqual] on the two slices decides equality of the Go values
    (a nil slice and an empty one differ). *)
Lemma DeepEqual_eq (x y : option (list ProjectUsers)) :
  Project.DeepEqual x y = bool_decide (x = y).
Proof.
  destruct x as [a|], y as [b|]; simpl; try done.
  - destruct (Nat.eqb_spec (length a) (length b)) as [Hlen|Hlen]; simpl.
    + rewrite DeepEqual_elems_eq by done. apply bool_decide_ext. naive_solver.
    + symmetry. apply bool_decide_false. intros [= ->]. done.
Qed.

Lemma changed_eq (oldObj newObj : Obj) (u : fields) :
  Project.changed Spec_Users Status_Enabled oldObj newObj u
  = Fields (bool_decide (Spec_Users oldObj ≠ Spec_Users newObj))
           (bool_decide (Status_Enabled oldObj ≠ Status_Enabled newObj)).
Proof.
  unfold Project.changed. rewrite DeepEqual_eq. simpl.
  destruct (decide (Spec_Users oldObj = Spec_Users newObj)) as [Hu|Hu];
    [rewrite (bool_decide_true _ Hu) | rewrite (bool_decide_false _ Hu)];
    destruct (Status_Enabled oldObj), (Status_Enabled newObj); simpl;
    repeat case_bool_decide; done.
Qed.

(** C5. For every Update event the change summary is computed before the event
    is enqueued: [enabled] is set exactly when [Status.Enabled] of the old and
    the new object differ, [users] exactly when their [Spec.Users] differ; the
    enqueued event carries it, and [processNextItem] passes it unchanged to
    [ObjectUpdated]. With neither flag set, the team handler's [ObjectUpdated]
    sends no write for an enabled team of an enabled authority. *)
Theorem UpdateFunc_change_summary (s : controller fields Obj World)
    (oldObj newObj : Obj) (k : string) :
  MetaNamespaceKeyFunc newObj = (k, None) →
  let s1 := (UpdateFunc oldObj newObj s).2 in
  let ev := event s1 in
  key ev = k
  ∧ function ev = update
  ∧ (enabled (updated ev) = true ↔ Status_Enabled oldObj ≠ Status_Enabled newObj)
  ∧ (users (updated ev) = true ↔ Spec_Users oldObj ≠ Spec_Users newObj)
  ∧ wq s1 = wq_Add (EventItem ev) (wq s)
  ∧ (∀ s2 rest,
       queue (wq s2) = EventItem ev :: rest →
       exists_ (GetByKey (store s2) k) = true →
       calls (emitted processNextItem s2)
       = [ObjectUpdated (found (GetByKey (store s2) k)) (updated ev)])
  ∧ (users (updated ev) = false → enabled (updated ev) = false →
     ∀ (T : Type) (GetNamespace GetName : T → string) (TeamEnabled : T → bool)
       (authorityName : string) (team : T),
       TeamEnabled team = true →
       Team.ObjectUpdated GetNamespace GetName TeamEnabled authorityName true team
         (updated ev) = []).
Proof.
  intros Hk s1 ev.
  assert (Hev : ev = Informerevent k update
                       (Fields (bool_decide (Spec_Users oldObj ≠ Spec_Users newObj))
                               (bool_decide (Status_Enabled oldObj ≠ Status_Enabled newObj)))).
  { subst ev s1. unfold UpdateFunc, mbind, M_bind, get_event, set_event, logf, on_queue.
    simpl. rewrite Hk. simpl. by rewrite changed_eq. }
  split_and!.
  - by rewrite Hev.
  - by rewrite Hev.
  - rewrite Hev. simpl. apply bool_decide_eq_true.
  - rewrite Hev. simpl. apply bool_decide_eq_true.
  - subst ev s1. unfold UpdateFunc, mbind, M_bind, get_event, set_event, logf, on_queue.
    simpl. rewrite Hk. done.
  - intros s2 rest Hq Hex.
    rewrite (processNextItem_calls _ _ _ Hq). unfold to_dispatch.
    rewrite Hev in *. simpl in *. by rewrite Hex.
  - intros Hu He T GetNamespace GetName TeamEnabled authorityName team Hteam.
    unfold Team.ObjectUpdated. by rewrite Hteam, Hu, He.
Qed.

End Facts.

(** A project whose users change while its status stays: the worker hands
    [ObjectUpdated] the summary [users = true], [enabled = false]. *)
Lemma UpdateFunc_change_summary_witness :
  let oldObj := Sample.SampleProject "default/p" (Some [("site-a", "alice")]) true in
  let newObj := Sample.SampleProject "default/p" (Some []) true in
  let s1 := (UpdateFunc (deps := Sample.projects) oldObj newObj
               (Start_controller tt (Fields false false))).2 in
  updated (event s1) = Fields true false
  ∧ queue (wq s1) = [EventItem (Informerevent "default/p" update (Fields true false))].
Proof.
  intros oldObj newObj s1.
  destruct (UpdateFunc_change_summary Sample.project_users Sample.project_enabled
              (λ _ w, (None, w)) cache_GetByKey
              (λ o, (Sample.project_key o, None)) (λ o, (Sample.project_key o, None))
              (Start_controller tt (Fields false false)) oldObj newObj "default/p" eq_refl)
    as (Hkey & Hfun & He & Hu & Hwq & _).
  split.
  - assert (Husers : users (updated (event s1)) = true) by (by apply Hu).
    assert (Henabled : enabled (updated (event s1)) ≠ true).
    { intros Ht. by apply He in Ht. }
    destruct (updated (event s1)) as [u [|]]; simpl in *; [done | by subst u].
  - etrans; [exact (f_equal queue Hwq) | reflexivity].
Defined.

End ProjectFacts.

(** ** The selector clause *)

Module SelectiveDeploymentFacts.
Import SelectiveDeployment.

Example negative_count_rejected :
  valid_clause [("value", JString "Paris"); ("operator", JString "In");
                ("count", JInteger (-1))] = false.
Proof. reflexivity. Qed.

Example zero_count_accepted :
  valid_clause [("value", JString "Paris"); ("operator", JString "In");
                ("count", JInteger 0)] = true.
Proof. reflexivity. Qed.

Lemma valid_count (v : json) :
  valid_property (Property "integer" None (Some 0%Z)) v = true →
  ∃ n, v = JInteger n ∧ (0 ≤ n)%Z.
Proof.
  destruct v as [str|n|]; [done | | done].
  change (valid_property (Property "integer" None (Some 0%Z)) (JInteger n))
    with (0 <=? n)%Z.
  intros Hn%Z.leb_le. eauto.
Qed.

(** C7. The schema admits a clause only if its [count] is a non-negative
    integer, and a count of 0 puts no limit on the nodes a clause selects: all
    matching nodes ([In]), or all the others ([NotIn]), are its candidates. *)
Theorem count_zero_is_unlimited (clause : list (string * json)) :
  (valid_clause clause = true →
   ∀ v, ("count", v) ∈ clause → ∃ n, v = JInteger n ∧ (0 ≤ n)%Z)
  ∧ (∀ (Node : Type) (matches : Node → bool) (nodes : list Node),
       candidates In_ 0 matches nodes = List.filter matches nodes
       ∧ candidates NotIn 0 matches nodes = List.filter (λ n, negb (matches n)) nodes).
Proof.
  split; [|done].
  unfold valid_clause. rewrite forallb_forall.
  intros Hall v Hin. apply list_elem_of_In in Hin.
  specialize (Hall _ Hin). simpl in Hall. by apply valid_count.
Qed.

End SelectiveDeploymentFacts.

(** ** [dry], again *)

Module DryMore.
Import Dry DryFacts.
Section Facts.
Context {ProjectUsers : Type}.
Variable Site : ProjectUsers → string.
Variable Username : ProjectUsers → string.

(** [dry] as a filter, for the proofs below. *)
Lemma dry_filter (oldProject newProject : list ProjectUsers) :
  dry Site Username oldProject newProject
  = (λ o, Sprintf_delta (Site o) (Username o))
      <$> filter (λ o, ¬ pair_appears Site Username newProject o) oldProject.
Proof. unfold dry. by rewrite dry_acc. Qed.

Lemma dry_nil (oldProject newProject : list ProjectUsers) :
  dry Site Username oldProject newProject = []
  ↔ ∀ o, o ∈ oldProject → pair_appears Site Username newProject o.
Proof.
  rewrite dry_filter. split.
  - intros Hnil%fmap_nil_inv o Ho.
    destruct (decide (pair_appears Site Username newProject o)) as [|Hno]; [done|].
    by destruct (filter_nil_not_elem_of _ _ o Hnil Hno).
  - intros Hall. induction oldProject as [|o l IH]; [done|].
    rewrite filter_cons, decide_False.
    + apply IH. intros o' Ho'. apply Hall. by right.
    + intros Hno. apply Hno, Hall. left.
Qed.

(** X1. [dry] returns the nil slice exactly when every user of [oldProject]
    is still in [newProject]; in particular a project compared with itself
    has no removed users. *)
Theorem dry_nothing_removed (oldProject newProject : list ProjectUsers) :
  (dry Site Username oldProject newProject = []
   ↔ ∀ o, o ∈ oldProject →
          ∃ n, n ∈ newProject ∧ Site o = Site n ∧ Username o = Username n)
  ∧ dry Site Username oldProject oldProject = [].
Proof.
  split; [apply dry_nil|].
  apply dry_nil. intros o Ho. by exists o.
Qed.

(** X2. [dry] works through [oldProject] user by user: the result for a
    concatenation is the concatenation of the results, it never has more
    entries than [oldProject] has users, and with an empty [newProject] it has
    one for every user. *)
Theorem dry_app (old1 old2 newProject : list ProjectUsers) :
  dry Site Username (old1 ++ old2) newProject
  = dry Site Username old1 newProject ++ dry Site Username old2 newProject
  ∧ (length (dry Site Username old1 newProject) ≤ length old1)%nat
  ∧ dry Site Username old1 []
    = (λ o, Site o +:+ "?/delta/? " +:+ Username o) <$> old1.
Proof.
  rewrite !dry_filter, filter_app, fmap_app, length_fmap.
  split_and!; [done | apply length_filter |].
  f_equal. induction old1 as [|o l IH]; [done|].
  rewrite filter_cons, decide_True.
  - by rewrite IH.
  - by intros (n & []%elem_of_nil & _).
Qed.

(** X3. Only the set of users of [newProject] matters to [dry], not their
    order and not how often they are listed. *)
Theorem dry_new_as_set (oldProject newProject newProject' : list ProjectUsers) :
  (∀ n, n ∈ newProject ↔ n ∈ newProject') →
  dry Site Username oldProject newProject = dry Site Username oldProject newProject'.
Proof.
  intros Hset. rewrite !dry_filter.
  f_equal. apply list_filter_iff. intros o. unfold pair_appears.
  split; intros Hno (n & Hn & Heq); apply Hno; exists n; split; try done; by apply Hset.
Qed.

End Facts.

(** The same two users, listed in another order and one of them twice. *)
Lemma dry_new_as_set_witness :
  let old := [("site-a", "alice"); ("site-a", "bob"); ("site-b", "carol")] in
  dry fst snd old [("site-b", "carol"); ("site-a", "alice")]
  = dry fst snd old [("site-a", "alice"); ("site-b", "carol"); ("site-a", "alice")].
Proof.
  intros old.
  refine (dry_new_as_set fst snd old _ _ _).
  intros n. rewrite !elem_of_cons. tauto.
Defined.

End DryMore.

(** ** The worker, the informer and [run] *)

Module WorkerFacts.
Import Engine EngineFacts.

Section Facts.
Context {U Obj World : Type} `{EqDecision U} {deps : Deps U Obj World}.
Implicit Types (s : controller U Obj World) (e : informerevent U) (c : call U Obj).

Ltac run_pni :=
  unfold processNextItem, defer, as_informerevent, getByKey, queue_NumRequeues,
    invoke, on_queue, logf, queue_Get, wq_Get, panic, mbind, M_bind, mret, M_ret;
  simpl.

Ltac split_pni :=
  repeat (match goal with
          | |- context [String.eqb ?a ?b] => destruct (String.eqb a b) eqn:?
          | |- context [handler ?a ?b] => destruct (handler a b) as [[?|] ?] eqn:?
          | |- context [(?n <? 5)%nat] => destruct (n <? 5)%nat eqn:?
          | |- context [if printsKey then _ else _] => destruct printsKey
          end; simpl).

(** The queue once the worker is done with the event [e] it took: [e] is
    neither dirty nor being processed, and its key has no failure counted. *)
Definition handled (e : informerevent U) (rest : list (item U)) (q : workqueue U)
  : workqueue U :=
  Workqueue rest (without (EventItem e) (dirty q))
            (without (EventItem e) (EventItem e :: processing q))
            (shuttingDown q) (base.delete (key e) (failures q)).

(** An event whose lookup does not fail and whose handler returns. *)
Lemma processNextItem_handled s e rest :
  queue (wq s) = EventItem e :: rest →
  err (GetByKey (store s) (key e)) = None →
  (∀ c, (handler c (world s)).1 = None) →
  ∃ w l,
    processNextItem s
    = (Ret true, Controller (handled e rest (wq s)) (store s) w (event s) (errv s) (log s ++ l))
    ∧ calls l = option_list (to_dispatch e (GetByKey (store s) (key e))).
Proof.
  intros Hq Herr Hh. unfold to_dispatch, handled. run_pni. rewrite Hq. simpl.
  pose proof (not_elem_of_without (EventItem e) (dirty (wq s))) as Hnot.
  destruct (GetByKey (store s) (key e)) as [fo [] er]; simpl in *; subst er; simpl;
    split_pni;
    try match goal with
        | Hc : handler ?c _ = (Some _, _) |- _ =>
            pose proof (Hh c) as Hn; rewrite Hc in Hn; discriminate Hn
        end;
    unfold wq_Done, wq_Forget; simpl; rewrite decide_False by done; simpl;
    rewrite <- ?app_assoc; simpl;
    eexists _, _; (split; [reflexivity|]); done.
Qed.

(** *** The informer's closures at the queue *)

Lemma AddFunc_eq s obj :
  AddFunc obj s
  = let ev := Informerevent (MetaNamespaceKeyFunc obj).1 create (updated (event s)) in
    (Ret tt,
     Controller (match (MetaNamespaceKeyFunc obj).2 with
                 | None => wq_Add (EventItem ev) (wq s)
                 | Some _ => wq s
                 end)
                (store s) (world s) ev (MetaNamespaceKeyFunc obj).2
                (log s ++ [Info ("Add " +:+ resource +:+ ": " +:+ (MetaNamespaceKeyFunc obj).1)])).
Proof.
  unfold AddFunc, mbind, M_bind, get_event, set_event, logf, on_queue, mret, M_ret.
  by destruct (MetaNamespaceKeyFunc obj) as [k [er|]].
Qed.

Lemma UpdateFunc_eq s oldObj newObj :
  UpdateFunc oldObj newObj s
  = let ev := Informerevent (MetaNamespaceKeyFunc newObj).1 update
                            (changed oldObj newObj (updated (event s))) in
    (Ret tt,
     Controller (match (MetaNamespaceKeyFunc newObj).2 with
                 | None => wq_Add (EventItem ev) (wq s)
                 | Some _ => wq s
                 end)
                (store s) (world s) ev (MetaNamespaceKeyFunc newObj).2
                (log s ++ [Info ("Update " +:+ resource +:+ ": "
                                 +:+ (MetaNamespaceKeyFunc newObj).1)])).
Proof.
  unfold UpdateFunc, mbind, M_bind, get_event, set_event, logf, on_queue, mret, M_ret.
  by destruct (MetaNamespaceKeyFunc newObj) as [k [er|]].
Qed.

Lemma DeleteFunc_eq s obj :
  DeleteFunc obj s
  = let ev := Informerevent (DeletionHandlingMetaNamespaceKeyFunc obj).1 delete
                            (updated (event s)) in
    (Ret tt,
     Controller (match (DeletionHandlingMetaNamespaceKeyFunc obj).2 with
                 | None => wq_Add (EventItem ev) (wq s)
                 | Some _ => wq s
                 end)
                (store s) (world s) ev (DeletionHandlingMetaNamespaceKeyFunc obj).2
                (log s ++ [Info ("Delete " +:+ resource +:+ ": "
                                 +:+ (DeletionHandlingMetaNamespaceKeyFunc obj).1)])).
Proof.
  unfold DeleteFunc, mbind, M_bind, get_event, set_event, logf, on_queue, mret, M_ret.
  by destruct (DeletionHandlingMetaNamespaceKeyFunc obj) as [k [er|]].
Qed.

(** [Add] appends the item or leaves the queue as it is; it touches neither
    the shutdown flag nor the failure counters. *)
Lemma wq_Add_queue (it : item U) (q : workqueue U) :
  ∃ tl, queue (wq_Add it q) = queue q ++ tl
        ∧ (tl = [] ∨ tl = [it])
        ∧ shuttingDown (wq_Add it q) = shuttingDown q.
Proof.
  unfold wq_Add. destruct (shuttingDown q) eqn:Hsd; [exists []; by rewrite app_nil_r; auto|].
  repeat case_decide; simpl;
    first [ by exists []; rewrite app_nil_r; auto | by exists [it]; auto ].
Qed.

Lemma wq_Add_shut (it : item U) (q : workqueue U) :
  shuttingDown q = true → wq_Add it q = q.
Proof. unfold wq_Add. by intros ->. Qed.

(** What a closure does to the queue: at most one event more. *)
Lemma deliver_queue n s :
  ∃ tl, queue (wq (deliver n s).2) = queue (wq s) ++ tl
        ∧ Forall (λ it, is_event it = true) tl
        ∧ (length tl ≤ 1)%nat
        ∧ shuttingDown (wq (deliver n s).2) = shuttingDown (wq s)
        ∧ (shuttingDown (wq s) = true → wq (deliver n s).2 = wq s).
Proof.
  assert (Hnil : ∃ tl : list (item U),
             queue (wq s) = queue (wq s) ++ tl
             ∧ Forall (λ it, is_event it = true) tl ∧ (length tl ≤ 1)%nat
             ∧ shuttingDown (wq s) = shuttingDown (wq s)
             ∧ (shuttingDown (wq s) = true → wq s = wq s)).
  { exists []. rewrite app_nil_r. split_and!; simpl; try done; lia. }
  assert (Hadd : ∀ ev, ∃ tl : list (item U),
             queue (wq_Add (EventItem ev) (wq s)) = queue (wq s) ++ tl
             ∧ Forall (λ it, is_event it = true) tl ∧ (length tl ≤ 1)%nat
             ∧ shuttingDown (wq_Add (EventItem ev) (wq s)) = shuttingDown (wq s)
             ∧ (shuttingDown (wq s) = true → wq_Add (EventItem ev) (wq s) = wq s)).
  { intros ev. destruct (wq_Add_queue (EventItem ev) (wq s)) as (tl & Htl & Hcase & Hsd).
    exists tl. split_and!; [done | | | done | apply wq_Add_shut].
    - destruct Hcase as [-> | ->]; by repeat constructor.
    - destruct Hcase as [-> | ->]; simpl; lia. }
  destruct n as [obj|obj|obj]; simpl.
  - destruct (DeletionHandlingMetaNamespaceKeyFunc obj) as [k [er|]]; [exact Hnil|].
    rewrite mbind_eq. unfold get_store. cbv beta iota.
    destruct (store s !! k) as [old|]; rewrite mbind_eq; unfold on_store; cbv beta iota.
    + rewrite UpdateFunc_eq. simpl.
      destruct (MetaNamespaceKeyFunc obj).2; [exact Hnil | apply Hadd].
    + rewrite AddFunc_eq. simpl.
      destruct (MetaNamespaceKeyFunc obj).2; [exact Hnil | apply Hadd].
  - destruct (DeletionHandlingMetaNamespaceKeyFunc obj) as [k [er|]]; [exact Hnil|].
    rewrite mbind_eq. unfold get_store. cbv beta iota.
    destruct (store s !! k) as [old|]; rewrite mbind_eq; unfold on_store; cbv beta iota.
    + rewrite UpdateFunc_eq. simpl.
      destruct (MetaNamespaceKeyFunc obj).2; [exact Hnil | apply Hadd].
    + rewrite AddFunc_eq. simpl.
      destruct (MetaNamespaceKeyFunc obj).2; [exact Hnil | apply Hadd].
  - destruct (DeletionHandlingMetaNamespaceKeyFunc obj) as [k [er|]] eqn:Hk; [exact Hnil|].
    rewrite mbind_eq. unfold get_store. cbv beta iota.
    destruct (store s !! k) as [old|]; [|exact Hnil].
    rewrite mbind_eq. unfold on_store. cbv beta iota. rewrite DeleteFunc_eq. simpl.
    rewrite Hk. simpl. apply Hadd.
Qed.

Lemma informer_Run_queue ns s :
  ∃ tl, queue (wq (informer_Run ns s).2) = queue (wq s) ++ tl
        ∧ Forall (λ it, is_event it = true) tl
        ∧ (length tl ≤ length ns)%nat
        ∧ shuttingDown (wq (informer_Run ns s).2) = shuttingDown (wq s)
        ∧ (shuttingDown (wq s) = true → wq (informer_Run ns s).2 = wq s).
Proof.
  revert s. induction ns as [|n ns IH]; intros s; simpl.
  - exists []. rewrite app_nil_r. split_and!; simpl; try done.
  - rewrite mbind_eq.
    destruct (deliver_quiet n s) as [Ho _].
    destruct (deliver_queue n s) as (tl & Htl & Hev & Hlen & Hsd & Hshut).
    destruct (deliver n s) as [o s1]. simpl in *. subst o.
    destruct (IH s1) as (tl' & Htl' & Hev' & Hlen' & Hsd' & Hshut').
    exists (tl ++ tl'). rewrite Htl', Htl, <- app_assoc, length_app.
    split_and!; [done | by apply Forall_app | lia | congruence |].
    intros Hs. rewrite Hshut', (Hshut Hs); [done|]. by rewrite Hsd.
Qed.

(** *** A store that answers and a handler that returns *)

Section Safe.
Hypothesis GetByKey_answers : ∀ (m : gmap string Obj) k, err (GetByKey m k) = None.
Hypothesis handler_returns : ∀ c (w : World), (handler c w).1 = None.

(** The call made for each of the events [es], against the store [m]. *)
Definition dispatches (m : gmap string Obj) (es : list (informerevent U))
  : list (call U Obj) :=
  omap (λ e, to_dispatch e (GetByKey m (key e))) es.

Lemma runWorker_loop_drains fuel s es :
  queue (wq s) = EventItem <$> es →
  length es < fuel →
  ∃ q w l,
    runWorker_loop fuel s
    = ((if shuttingDown (wq s) then Ret tt else Parked),
       Controller q (store s) w (event s) (errv s) (log s ++ l))
    ∧ queue q = []
    ∧ shuttingDown q = shuttingDown (wq s)
    ∧ processing q ⊆ processing (wq s)
    ∧ (∀ x, x ∈ dirty q → x ∈ dirty (wq s) ∧ x ∉ EventItem <$> es)
    ∧ calls l = dispatches (store s) es.
Proof.
  revert s es. induction fuel as [|fuel IH]; intros s es Hq Hfuel; [lia|].
  simpl. rewrite mbind_eq. destruct es as [|e es]; simpl in *.
  - destruct (processNextItem_empty s Hq) as [Ho Hl].
    destruct (emits_emitted _ processNextItem s emits_processNextItem) as [Hlog _].
    rewrite Hl in Hlog.
    destruct (processNextItem s) as [o s1] eqn:Hp. simpl in *. subst o.
    assert (Hs1 : wq s1 = wq s ∧ store s1 = store s ∧ event s1 = event s ∧ errv s1 = errv s).
    { revert Hp. unfold processNextItem, logf, queue_Get, wq_Get, mbind, M_bind, mret, M_ret.
      simpl. rewrite Hq. destruct (shuttingDown (wq s)); intros [= <-]; done. }
    destruct Hs1 as (Hwq & Hst & Hev & Her).
    destruct (shuttingDown (wq s)) eqn:Hsd.
    + unfold logf. eexists (wq s1), (world s1), _.
      rewrite Hlog, Hst, Hev, Her, <- app_assoc. split; [reflexivity|].
      rewrite Hwq, Hq, Hsd.
      split_and!; try done. intros x Hx. split; [done | apply not_elem_of_nil].
    + eexists (wq s1), (world s1), _. destruct s1; simpl in *. subst.
      split; [reflexivity|]. rewrite Hq, ?Hsd.
      split_and!; try done. intros x Hx. split; [done | apply not_elem_of_nil].
  - destruct (processNextItem_handled s e (EventItem <$> es) Hq
                (GetByKey_answers _ _) (λ c, handler_returns c _))
      as (w & l & -> & Hl).
    rewrite mbind_eq. unfold logf at 1. cbv beta iota.
    match goal with
    | |- context [runWorker_loop fuel ?s1] =>
        destruct (IH s1 es eq_refl ltac:(lia)) as (q & w' & l' & -> & Hq' & Hsd & Hp & Hd & Hl')
    end.
    simpl in *. eexists q, w', _. rewrite <- !app_assoc.
    split; [reflexivity|]. split_and!; try done.
    + intros x Hx. apply Hp in Hx. unfold without in Hx.
      apply list_elem_of_filter in Hx as [Hne Hx].
      apply elem_of_cons in Hx as [->|Hx]; done.
    + intros x Hx. apply Hd in Hx as [Hx Hes]. unfold without in Hx.
      apply list_elem_of_filter in Hx as [Hne Hx]. split; [done|].
      rewrite not_elem_of_cons. done.
    + rewrite calls_app. simpl.
      unfold dispatches in *. rewrite Hl. fold (calls l'). rewrite Hl'.
      by destruct (to_dispatch e _).
Qed.


(** X4. The worker handles every queued event, in queue order, with at most
    one handler call per event, made against the store as it is; then it
    blocks on the empty queue or, if the queue is shut down, returns. *)
Theorem runWorker_handles_every_event fuel s es :
  queue (wq s) = EventItem <$> es →
  length es < fuel →
  let r := runWorker fuel s in
  r.1 = (if shuttingDown (wq s) then Ret tt else Parked)
  ∧ calls (emitted (runWorker fuel) s)
    = omap (λ e, to_dispatch e (GetByKey (store s) (key e))) es
  ∧ queue (wq r.2) = []
  ∧ store r.2 = store s.
Proof.
  intros Hq Hfuel r.
  set (s1 := Controller (wq s) (store s) (world s) (event s) (errv s)
                        (log s ++ [Info "runWorker: starting"])).
  destruct (runWorker_loop_drains fuel s1 es Hq Hfuel)
    as (q & w & l & Hr & Hq' & _ & _ & _ & Hl).
  assert (Heq : runWorker fuel s = runWorker_loop fuel s1) by done.
  subst r. unfold emitted. rewrite Heq, Hr. simpl.
  rewrite <- app_assoc, drop_app_length. simpl.
  split_and!; done.
Qed.

(** X5. With a store whose lookups never fail, as the thread safe store of
    the informers of [Start] is, the retry branch of [processNextItem] is
    never taken: it logs no error, gives up on nothing, counts no requeue and
    puts no bare key into the queue, so the type assertion on the next item
    holds. *)
Theorem retry_branch_unreachable s :
  let s' := (processNextItem s).2 in
  (∀ en, en ∈ emitted processNextItem s →
         match en with Error _ | HandleError _ => False | _ => True end)
  ∧ (Forall (λ it, is_event it = true) (queue (wq s)) →
     Forall (λ it, is_event it = true) (queue (wq s'))
     ∧ ∀ v, (processNextItem s).1 = Panic v →
            ∃ c, Invoke c ∈ emitted processNextItem s ∧ (handler c (world s)).1 = Some v)
  ∧ (∀ k, (wq_NumRequeues k (wq s') ≤ wq_NumRequeues k (wq s))%nat).
Proof.
  intros s'. subst s'.
  destruct (queue (wq s)) as [|[e|k0] rest] eqn:Hq.
  - destruct (processNextItem_empty s Hq) as [Ho Hl]. rewrite Hl, Ho.
    assert (Hwq : wq (processNextItem s).2 = wq s).
    { unfold processNextItem, logf, queue_Get, wq_Get, mbind, M_bind, mret, M_ret.
      simpl. rewrite Hq. by destruct (shuttingDown (wq s)). }
    rewrite Hwq, Hq. split_and!.
    + by intros en ->%list_elem_of_singleton.
    + intros _. split; [done|]. intros v. by destruct (shuttingDown (wq s)).
    + done.
  - pose proof (GetByKey_answers (store s) (key e)) as Herr.
    pose proof (not_elem_of_without (EventItem e) (dirty (wq s))) as Hnot.
    split_and!.
    + unfold emitted. run_pni. rewrite Hq. simpl.
      destruct (GetByKey (store s) (key e)) as [fo [] er]; simpl in *; subst er; simpl;
        split_pni; rewrite <- ?app_assoc, ?drop_app_length;
        intros en Hen; repeat (apply elem_of_cons in Hen as [->|Hen]; [done|]);
        by apply elem_of_nil in Hen.
    + intros Hall. apply Forall_cons in Hall as [_ Hall]. split.
      * run_pni. rewrite Hq. simpl.
        destruct (GetByKey (store s) (key e)) as [fo [] er]; simpl in *; subst er; simpl;
          split_pni; unfold wq_Done, wq_Forget; simpl; rewrite ?decide_False by done; done.
      * intros v Hv. rewrite (processNextItem_outcome s e rest Hq) in Hv.
        pose proof (processNextItem_calls s e rest Hq) as Hc.
        destruct (to_dispatch e _) as [c|]; [|done].
        exists c. split.
        -- apply elem_of_calls. rewrite Hc. left.
        -- destruct (handler c (world s)).1; by simplify_eq.
    + intros k. unfold wq_NumRequeues. run_pni. rewrite Hq. simpl.
      destruct (GetByKey (store s) (key e)) as [fo [] er]; simpl in *; subst er; simpl;
        split_pni; unfold wq_Done, wq_Forget; simpl; rewrite ?decide_False by done; simpl;
        try done;
        (destruct (decide (k = key e)) as [->|Hne];
         [rewrite lookup_delete_eq; simpl; lia | by rewrite lookup_delete_ne]).
  - split_and!.
    + destruct (processNextItem_key s k0 rest Hq) as [_ ->].
      by intros en ->%list_elem_of_singleton.
    + by intros [[=] _]%Forall_cons.
    + intros k. unfold wq_NumRequeues. run_pni. rewrite Hq. simpl.
      unfold wq_Done. simpl. by case_decide.
Qed.




End Safe.

(** X7. [processNextItem] returns [false], which ends the loop of [runWorker],
    only when the queue is shut down and empty, and blocks only when the queue
    is empty and open: while items are queued it returns [true] or panics. *)
Theorem processNextItem_stops_only_on_shutdown s :
  ((processNextItem s).1 = Ret false
   ↔ queue (wq s) = [] ∧ shuttingDown (wq s) = true)
  ∧ ((processNextItem s).1 = Parked
     ↔ queue (wq s) = [] ∧ shuttingDown (wq s) = false)
  ∧ (queue (wq s) ≠ [] →
     (processNextItem s).1 = Ret true ∨ ∃ v, (processNextItem s).1 = Panic v).
Proof.
  destruct (queue (wq s)) as [|[e|k] rest] eqn:Hq.
  - destruct (processNextItem_empty s Hq) as [-> _].
    destruct (shuttingDown (wq s)); split_and!; try done;
      split; intros; first [done | by destruct_and!].
  - rewrite (processNextItem_outcome s e rest Hq).
    destruct (to_dispatch e _) as [c|]; [destruct (handler c (world s)).1 as [v|]|];
      split_and!; eauto; split; intros; first [done | by destruct_and!].
  - destruct (processNextItem_key s k rest Hq) as [-> _].
    split_and!; eauto; split; intros; first [done | by destruct_and!].
Qed.

(** The informer finds the queue shut down: nothing is enqueued. *)
Lemma informer_Run_shut ns s :
  shuttingDown (wq s) = true → wq (informer_Run ns s).2 = wq s.
Proof. intros Hs. by destruct (informer_Run_queue ns s) as (_ & _ & _ & _ & _ & ->). Qed.

(** Computations out of which no panic comes. *)
Definition contained {A} (m : M A) : Prop := ∀ s v, (m s).1 ≠ Panic v.

Lemma contained_bind {A B} (m : M A) (f : A → M B) :
  contained m → (∀ a, contained (f a)) → contained (m ≫= f).
Proof.
  intros Hm Hf s v. rewrite mbind_eq. specialize (Hm s).
  destruct (m s) as [[a|v'| |v'| ] s1]; simpl in *; try done.
  - apply Hf.
  - by destruct (Hm v').
Qed.

Lemma contained_logf en : contained (logf en).
Proof. done. Qed.

Lemma contained_goroutine (m : M unit) : contained (goroutine m).
Proof. intros s v. unfold goroutine. by destruct (m s) as [[[]|v'| |v'| ] s1]. Qed.

Lemma contained_informer_Run ns : contained (informer_Run ns).
Proof. intros s v. by destruct (informer_Run_quiet ns s) as [-> _]. Qed.

Lemma contained_await_stop parked after fuel : contained (await_stop parked after fuel).
Proof.
  revert parked. induction after as [|ns after IH]; intros parked; simpl; [done|].
  apply contained_bind; [apply contained_informer_Run|]. intros _.
  apply contained_bind; [apply contained_goroutine | intros p; apply IH].
Qed.

(** [run] panics only if [Init] does: a panic of the worker ends the process
    where it is. *)
Lemma run_body_panics hasSynced before after fuel s v :
  (run_body hasSynced before after fuel s).1 = Panic v →
  (handler Init (world s)).1 = Some v.
Proof.
  unfold run_body.
  rewrite mbind_eq. unfold logf at 1. cbv beta iota.
  rewrite mbind_eq. unfold invoke at 1. simpl.
  destruct (handler Init (world s)) as [[v'|] w]; simpl; [by intros [= ->]|].
  intros Hp. exfalso. revert Hp.
  match goal with |- (?m ?s1).1 = _ → _ => assert (Hc : contained m); [|apply Hc] end.
  apply contained_bind; [apply contained_logf|]. intros _.
  apply contained_bind; [apply contained_informer_Run|]. intros _.
  apply contained_bind.
  { apply contained_bind; [apply contained_logf | by intros _]. }
  intros ok. destruct (negb ok); [apply contained_logf|].
  apply contained_bind; [apply contained_logf|]. intros _.
  apply contained_bind; [apply contained_logf|]. intros _.
  apply contained_bind; [apply contained_goroutine | intros p; apply contained_await_stop].
Qed.

(** X8. Whenever [run] returns or panics, its deferred calls have run in
    reverse order: the queue is shut down first, then [HandleCrash] logs the
    panic; and from then on the queue takes nothing the informer's closures
    add. [run] itself panics only if [Init] does. *)
Theorem run_shuts_the_queue_down hasSynced before after fuel s :
  let r := run hasSynced before after fuel s in
  match r.1 with
  | Ret _ =>
      shuttingDown (wq r.2) = true
      ∧ last (log r.2) = Some ShutDown
      ∧ ∀ ns, wq (informer_Run ns r.2).2 = wq r.2
  | Panic v =>
      shuttingDown (wq r.2) = true
      ∧ (∃ l, log r.2 = l ++ [ShutDown; Crash v])
      ∧ (handler Init (world s)).1 = Some v
      ∧ ∀ ns, wq (informer_Run ns r.2).2 = wq r.2
  | _ => True
  end.
Proof.
  intros r. subst r. rewrite run_eq.
  pose proof (run_body_panics hasSynced before after fuel s) as Hpanic.
  destruct (run_body hasSynced before after fuel s) as [o s1] eqn:Hbody.
  destruct o as [[]|v| |v| ]; simpl; try done.
  - split_and!; [done | by rewrite last_snoc |].
    intros ns. by apply informer_Run_shut.
  - split_and!; [done | | by apply Hpanic |].
    + exists (log s1). by rewrite <- app_assoc.
    + intros ns. by apply informer_Run_shut.
Qed.

(** X9. If [Init] panics, [run] starts neither the informer nor the worker:
    the queue is shut down, [HandleCrash] logs the panic and panics again;
    started with [go], that ends the process. *)
Theorem run_Init_panics hasSynced before after fuel s v :
  (handler Init (world s)).1 = Some v →
  let r := run hasSynced before after fuel s in
  r.1 = Panic v
  ∧ emitted (run hasSynced before after fuel) s
    = [Info "run: initiating"; Invoke Init; ShutDown; Crash v]
  ∧ store r.2 = store s
  ∧ queue (wq r.2) = queue (wq s)
  ∧ (goroutine (run hasSynced before after fuel) s).1 = Crashed v.
Proof.
  intros HInit r.
  assert (Hbody : run_body hasSynced before after fuel s
                  = (Panic v, Controller (wq s) (store s) (handler Init (world s)).2
                                (event s) (errv s)
                                ((log s ++ [Info "run: initiating"]) ++ [Invoke Init]))).
  { unfold run_body.
    rewrite mbind_eq. unfold logf at 1. cbv beta iota.
    rewrite mbind_eq. unfold invoke at 1. simpl.
    destruct (handler Init (world s)) as [p w]. simpl in HInit. by subst p. }
  assert (Hrun : run hasSynced before after fuel s
                 = (Panic v, Controller (wq_ShutDown (wq s)) (store s) (handler Init (world s)).2
                               (event s) (errv s)
                               (log s ++ [Info "run: initiating"; Invoke Init; ShutDown; Crash v]))).
  { rewrite run_eq, Hbody. simpl. by rewrite <- !app_assoc. }
  subst r. unfold emitted, goroutine. rewrite Hrun. simpl.
  by rewrite drop_app_length.
Qed.

(** *** From the informer to the handler *)

(** A queue at rest: nothing queued, nothing marked, not shut down. *)
Definition idle (q : workqueue U) : Prop :=
  queue q = [] ∧ dirty q = [] ∧ processing q = [] ∧ shuttingDown q = false.

(** The key the informer files a notification under: both key functions
    agree on it ([DeleteFunc] uses one only). *)
Definition keyed (n : notification Obj) (k : string) : Prop :=
  DeletionHandlingMetaNamespaceKeyFunc (subject n) = (k, None)
  ∧ match n with
    | Deleted _ => True
    | _ => MetaNamespaceKeyFunc (subject n) = (k, None)
    end.

(** The event the closure adds that the informer calls for a notification,
    the indexer holding [m] and the shared [event] variable the change
    summary [u]: an Update event for an object the indexer holds already, a
    Create event for one it does not; no event for a skipped deletion. *)
Definition event_of (n : notification Obj) (k : string) (m : gmap string Obj) (u : U)
  : option (informerevent U) :=
  match n, m !! k with
  | Deleted _, Some _ => Some (Informerevent k delete u)
  | Deleted _, None => None
  | _, Some old => Some (Informerevent k update (changed old (subject n) u))
  | _, None => Some (Informerevent k create u)
  end.

(** The informer's store after a notification. *)
Definition mirrored (n : notification Obj) (k : string) (m : gmap string Obj)
  : gmap string Obj :=
  match n with
  | Deleted _ => base.delete k m
  | _ => <[k := subject n]> m
  end.

Lemma deliver_keyed n k s :
  keyed n k →
  ∃ l,
    deliver n s
    = (Ret tt,
       match event_of n k (store s) (updated (event s)) with
       | Some e =>
           Controller (wq_Add (EventItem e) (wq s)) (mirrored n k (store s)) (world s)
                      e None (log s ++ l)
       | None => s
       end)
    ∧ calls l = []
    ∧ (event_of n k (store s) (updated (event s)) = None →
       mirrored n k (store s) = store s).
Proof.
  intros [HD HM]. unfold event_of.
  destruct n as [obj|obj|obj]; simpl in *; rewrite HD;
    rewrite mbind_eq; unfold get_store; cbv beta iota;
    destruct (store s !! k) as [old|] eqn:Hk;
    try (rewrite mbind_eq; unfold on_store; cbv beta iota).
  - rewrite UpdateFunc_eq, HM. simpl. eexists. split; [reflexivity | done].
  - rewrite AddFunc_eq, HM. simpl. eexists. split; [reflexivity | done].
  - rewrite UpdateFunc_eq, HM. simpl. eexists. split; [reflexivity | done].
  - rewrite AddFunc_eq, HM. simpl. eexists. split; [reflexivity | done].
  - rewrite DeleteFunc_eq, HD. simpl. eexists. split; [reflexivity | done].
  - exists []. split_and!; [done | done |]. intros _. by apply delete_id.
Qed.

Section Cached.
Hypothesis store_is_cache : GetByKey = cache_GetByKey.
Hypothesis handler_returns : ∀ c (w : World), (handler c w).1 = None.

Lemma cache_answers (m : gmap string Obj) k : err (GetByKey m k) = None.
Proof. by rewrite store_is_cache. Qed.

Lemma to_dispatch_cached e (m : gmap string Obj) :
  to_dispatch e (GetByKey m (key e))
  = match m !! key e with
    | Some obj =>
        if String.eqb (function e) create then Some (ObjectCreated (Some obj))
        else if String.eqb (function e) update then Some (ObjectUpdated (Some obj) (updated e))
        else None
    | None => if String.eqb (function e) delete then Some (ObjectDeleted None) else None
    end.
Proof.
  rewrite store_is_cache. unfold to_dispatch, cache_GetByKey. simpl.
  by destruct (m !! key e) as [obj|] eqn:Hm.
Qed.

(** The worker, started or woken up with the events [es] queued on a queue
    that held nothing else. *)
Lemma worker_wakes (f : M unit) fuel s es :
  (f = runWorker_loop fuel ∨ f = runWorker fuel) →
  queue (wq s) = EventItem <$> es →
  dirty (wq s) ⊆ EventItem <$> es →
  processing (wq s) = [] →
  shuttingDown (wq s) = false →
  length es < fuel →
  ∃ s' l,
    f s = (Parked, s')
    ∧ log s' = log s ++ l
    ∧ calls l = dispatches (store s) es
    ∧ idle (wq s')
    ∧ store s' = store s ∧ event s' = event s.
Proof.
  intros Hf Hq Hd Hp Hsd Hfuel.
  assert (Hloop : ∀ s0, wq s0 = wq s → store s0 = store s → event s0 = event s →
            ∃ s' l, runWorker_loop fuel s0 = (Parked, s')
                    ∧ log s' = log s0 ++ l ∧ calls l = dispatches (store s) es
                    ∧ idle (wq s') ∧ store s' = store s ∧ event s' = event s).
  { intros s0 Hwq Hst Hev. rewrite <- Hwq in Hq, Hd, Hp, Hsd.
    destruct (runWorker_loop_drains cache_answers handler_returns fuel s0 es Hq Hfuel)
      as (q & w & l & Hr & Hq' & Hsd' & Hp' & Hd' & Hl).
    rewrite Hsd in Hr, Hsd'. rewrite Hst in Hl.
    eexists _, l. rewrite Hr. simpl.
    split_and!; [done | done | done | | done | done].
    unfold idle. simpl. split_and!; [done | | | done].
    - destruct (dirty q) as [|x d]; [done|]. exfalso.
      destruct (Hd' x) as [Hx Hnx]; [left|]. by apply Hnx, Hd.
    - destruct (processing q) as [|x p]; [done|]. exfalso.
      assert (Hx : x ∈ processing (wq s0)) by (apply Hp'; left).
      rewrite Hp in Hx. by apply elem_of_nil in Hx. }
  destruct Hf as [-> | ->].
  - by apply Hloop.
  - set (s1 := Controller (wq s) (store s) (world s) (event s) (errv s)
                          (log s ++ [Info "runWorker: starting"])).
    destruct (Hloop s1) as (s' & l & Hr & Hlog & Hl & Hidle & Hst & Hev);
      [done | done | done |].
    assert (Heq : runWorker fuel s = runWorker_loop fuel s1) by done.
    exists s', (Info "runWorker: starting" :: l). rewrite Heq, Hr.
    split_and!; try done. rewrite Hlog. simpl. by rewrite <- app_assoc.
Qed.

(** The key the informer files a notification under. *)
Definition key_of (n : notification Obj) : string :=
  (DeletionHandlingMetaNamespaceKeyFunc (subject n)).1.

(** The change summary the shared [event] variable holds after a
    notification. *)
Definition summary (n : notification Obj) (m : gmap string Obj) (u : U) : U :=
  from_option updated u (event_of n (key_of n) m u).

(** The events the closures make of the notifications [ns], the indexer
    holding [m] and the change summary of the shared [event] variable being
    [u] to begin with. *)
Fixpoint events_of (ns : list (notification Obj)) (m : gmap string Obj) (u : U)
  : list (informerevent U) :=
  match ns with
  | [] => []
  | n :: ns =>
      option_list (event_of n (key_of n) m u)
      ++ events_of ns (mirrored n (key_of n) m) (summary n m u)
  end.

(** The change summary the shared [event] variable is left with. *)
Fixpoint summary_after (ns : list (notification Obj)) (m : gmap string Obj) (u : U) : U :=
  match ns with
  | [] => u
  | n :: ns => summary_after ns (mirrored n (key_of n) m) (summary n m u)
  end.





Lemma length_events_of ns m u : (length (events_of ns m u) ≤ length ns)%nat.
Proof.
  revert m u. induction ns as [|n ns IH]; intros m u; simpl; [done|].
  rewrite length_app. specialize (IH (mirrored n (key_of n) m) (summary n m u)).
  destruct (event_of _ _ _ _); simpl; lia.
Qed.




(** The events of a list in the order of their first occurrence. *)
Definition first_events (es : list (informerevent U)) : list (informerevent U) :=
  omap (λ it, match it with EventItem e => Some e | KeyItem _ => None end)
       (firsts (EventItem <$> es)).

Lemma firsts_NoDup (l : list (item U)) : NoDup l → firsts l = l.
Proof.
  induction l as [|x l IH] using rev_ind; [done|].
  intros (Hl & Hx & _)%NoDup_app. rewrite firsts_snoc_new, IH; [done | done |].
  intros Hin. apply (Hx x Hin). left.
Qed.

Lemma length_firsts (l : list (item U)) : (length (firsts l) ≤ length l)%nat.
Proof.
  induction l as [|x l IH] using rev_ind; [done|].
  rewrite firsts_snoc, length_app. case_decide; rewrite ?length_app; simpl; lia.
Qed.

Lemma events_back (l : list (item U)) :
  Forall (λ it, is_event it = true) l →
  EventItem <$> omap (λ it, match it with EventItem e => Some e | KeyItem _ => None end) l = l.
Proof.
  induction 1 as [|[e|k] l Hit _ IH]; [done | | done].
  cbn [omap list_omap fmap list_fmap]. f_equal. exact IH.
Qed.

Lemma first_events_fmap es : EventItem <$> first_events es = firsts (EventItem <$> es).
Proof.
  apply events_back, Forall_forall. intros x Hx.
  rewrite elem_of_firsts in Hx. by apply list_elem_of_fmap in Hx as (e & -> & _).
Qed.

Lemma first_events_NoDup es : NoDup es → first_events es = es.
Proof.
  intros Hnd. unfold first_events. rewrite firsts_NoDup.
  - clear Hnd. induction es as [|e es IH]; [done|].
    cbn [omap list_omap fmap list_fmap]. f_equal. exact IH.
  - apply NoDup_fmap_2; [|done]. by intros ?? [=].
Qed.

Lemma length_first_events es : (length (first_events es) ≤ length es)%nat.
Proof.
  rewrite <- (length_fmap EventItem (first_events es)), first_events_fmap.
  etrans; [apply length_firsts|]. by rewrite length_fmap.
Qed.

(** The informer runs while the worker sleeps: an event that waits already
    is not queued again. *)
Lemma informer_Run_keyed ns s pre :
  Forall (λ n, keyed n (key_of n)) ns →
  queue (wq s) = firsts pre →
  (∀ x, x ∈ dirty (wq s) ↔ x ∈ pre) →
  processing (wq s) = [] →
  shuttingDown (wq s) = false →
  ∃ s' l,
    informer_Run ns s = (Ret tt, s')
    ∧ log s' = log s ++ l ∧ calls l = []
    ∧ queue (wq s')
      = firsts (pre ++ (EventItem <$> events_of ns (store s) (updated (event s))))
    ∧ (∀ x, x ∈ dirty (wq s')
            ↔ x ∈ pre ++ (EventItem <$> events_of ns (store s) (updated (event s))))
    ∧ processing (wq s') = []
    ∧ shuttingDown (wq s') = false
    ∧ store s' = foldl (λ m n, mirrored n (key_of n) m) (store s) ns
    ∧ updated (event s') = summary_after ns (store s) (updated (event s))
    ∧ world s' = world s.
Proof.
  intros Hkeyed. revert s pre.
  induction Hkeyed as [|n ns Hn _ IH]; intros s pre Hq Hd Hp Hsd.
  - exists s, []. simpl. rewrite !app_nil_r. split_and!; done.
  - simpl. rewrite mbind_eq.
    destruct (deliver_keyed n (key_of n) s Hn) as (l & -> & Hl & Hskip).
    unfold summary.
    destruct (event_of n (key_of n) (store s) (updated (event s))) as [e|] eqn:He.
    + assert (Hadd : ∃ q, wq_Add (EventItem e) (wq s) = q
                          ∧ queue q = firsts (pre ++ [EventItem e])
                          ∧ (∀ x, x ∈ dirty q ↔ x ∈ pre ++ [EventItem e])
                          ∧ processing q = [] ∧ shuttingDown q = false).
      { eexists. split; [reflexivity|]. unfold wq_Add. rewrite Hsd.
        destruct (decide (EventItem e ∈ dirty (wq s))) as [Hin|Hnin].
        - apply Hd in Hin. rewrite firsts_snoc_seen by done.
          split_and!; try done. intros x.
          rewrite elem_of_app, list_elem_of_singleton, Hd.
          split; [by left | by intros [?| ->]].
        - rewrite Hp. rewrite decide_False by apply not_elem_of_nil. simpl.
          rewrite Hd in Hnin. rewrite firsts_snoc_new, Hq by done.
          split_and!; try done. intros x.
          rewrite elem_of_cons, elem_of_app, list_elem_of_singleton, Hd. tauto. }
      destruct Hadd as (q & -> & Hq1 & Hd1 & Hp1 & Hsd1).
      match goal with
      | |- context [informer_Run ns ?s1] =>
          destruct (IH s1 (pre ++ [EventItem e]))
            as (s' & l' & -> & Hlog & Hl' & Hq' & Hd' & Hp' & Hsd' & Hst' & Hev' & Hw');
          try done
      end.
      simpl in *. exists s', (l ++ l').
      rewrite <- !app_assoc in Hq'. simpl in Hq'.
      rewrite Hlog, <- app_assoc, calls_app, Hl, Hl'.
      split_and!; try done.
      intros x. rewrite Hd', <- app_assoc. done.
    + destruct (IH s pre)
        as (s' & l' & -> & Hlog & Hl' & Hq' & Hd' & Hp' & Hsd' & Hst' & Hev' & Hw');
        try done.
      simpl. rewrite (Hskip eq_refl). exists s', l'. split_and!; done.
Qed.


Lemma length_first_events_of ns (m : gmap string Obj) u :
  (length (first_events (events_of ns m u)) ≤ length ns)%nat.
Proof. etrans; [apply length_first_events | apply length_events_of]. Qed.

(** The informer delivers [ns] to a queue at rest, then the worker, started
    or woken up, works until it blocks. *)
Lemma informer_then_worker (f : M unit) ns s fuel :
  (f = runWorker_loop fuel ∨ f = runWorker fuel) →
  Forall (λ n, keyed n (key_of n)) ns →
  idle (wq s) →
  length (first_events (events_of ns (store s) (updated (event s)))) < fuel →
  ∃ s' l,
    (informer_Run ns ;; f) s = (Parked, s')
    ∧ log s' = log s ++ l
    ∧ calls l
      = dispatches (foldl (λ m n, mirrored n (key_of n) m) (store s) ns)
                   (first_events (events_of ns (store s) (updated (event s))))
    ∧ idle (wq s')
    ∧ store s' = foldl (λ m n, mirrored n (key_of n) m) (store s) ns
    ∧ updated (event s') = summary_after ns (store s) (updated (event s)).
Proof.
  intros Hf Hkeyed (Hq & Hd & Hp & Hsd) Hfuel.
  destruct (informer_Run_keyed ns s [] Hkeyed)
    as (s1 & l & Hrun & Hlog & Hl & Hq1 & Hd1 & Hp1 & Hsd1 & Hst1 & Hev1 & _); try done.
  { rewrite Hd. done. }
  simpl in Hq1, Hd1. rewrite <- first_events_fmap in Hq1.
  set (es := events_of ns (store s) (updated (event s))) in *.
  destruct (worker_wakes f fuel s1 (first_events es))
    as (s' & l' & Hr & Hlog' & Hl' & Hidle' & Hst' & Hev'); try done.
  { intros x Hx%Hd1. by rewrite first_events_fmap, elem_of_firsts. }
  exists s', (l ++ l'). rewrite mbind_eq, Hrun, Hr.
  rewrite Hlog', Hlog, <- app_assoc, calls_app, Hl, Hl', Hst', Hev', Hst1, Hev1.
  split_and!; done.
Qed.




(** *** Any notifications, then the worker *)

(** What the worker does with an event when the store is [m]. *)
Definition judged (m : gmap string Obj) (e : informerevent U) : option (call U Obj) :=
  match m !! key e with
  | Some obj =>
      if String.eqb (function e) create then Some (ObjectCreated (Some obj))
      else if String.eqb (function e) update then Some (ObjectUpdated (Some obj) (updated e))
      else None
  | None => if String.eqb (function e) delete then Some (ObjectDeleted None) else None
  end.

Lemma worker_after_informer ns s fuel :
  Forall (λ n, keyed n (key_of n)) ns →
  idle (wq s) →
  length (first_events (events_of ns (store s) (updated (event s)))) < fuel →
  let m := informer_Run ns ;; runWorker fuel in
  (m s).1 = Parked
  ∧ calls (emitted m s)
    = omap (judged (foldl (λ m n, mirrored n (key_of n) m) (store s) ns))
           (first_events (events_of ns (store s) (updated (event s))))
  ∧ idle (wq (m s).2).
Proof.
  intros Hkeyed Hidle Hfuel m.
  destruct (informer_then_worker (runWorker fuel) ns s fuel) as
    (s' & l & Hr & Hlog & Hl & Hidle' & _); [by right | done | done | done |].
  subst m. unfold emitted. rewrite Hr. simpl. rewrite Hlog, drop_app_length, Hl.
  split_and!; [done | | done].
  unfold dispatches. apply list_omap_ext, Forall_Forall2_diag, Forall_forall.
  intros e _. apply to_dispatch_cached.
Qed.

(** X11. Dispatch is level triggered. Whatever notifications the informer has
    delivered before the worker runs, an event that waits is not queued a
    second time, and every queued event is judged by the store as all the
    notifications have left it, not by what it reported: a Create or Update
    event calls [ObjectCreated] or [ObjectUpdated] with the object the store
    holds now, and nothing if the key is gone; a Delete event calls
    [ObjectDeleted], with the nil object, only if the key is still gone. *)
Theorem dispatch_is_level_triggered ns s fuel :
  Forall (λ n, keyed n (key_of n)) ns →
  idle (wq s) →
  length ns < fuel →
  let final := foldl (λ m n, mirrored n (key_of n) m) (store s) ns in
  calls (emitted (informer_Run ns ;; runWorker fuel) s)
  = omap (judged final) (first_events (events_of ns (store s) (updated (event s)))).
Proof.
  intros Hkeyed Hidle Hfuel final.
  destruct (worker_after_informer ns s fuel Hkeyed Hidle) as (_ & -> & _); [|done].
  pose proof (length_first_events_of ns (store s) (updated (event s))). lia.
Qed.

Lemma first_events_snoc es e :
  first_events (es ++ [e])
  = if decide (e ∈ es) then first_events es else first_events es ++ [e].
Proof.
  unfold first_events. rewrite fmap_app. simpl. rewrite firsts_snoc.
  assert (Hin : EventItem e ∈ firsts (EventItem <$> es) ↔ e ∈ es).
  { rewrite elem_of_firsts, list_elem_of_fmap. split.
    - by intros (e' & [= <-] & ?).
    - intros ?. by exists e. }
  destruct (decide (e ∈ es)) as [He|He].
  - by rewrite decide_True by (by apply Hin).
  - rewrite decide_False by (by rewrite Hin). by rewrite omap_app.
Qed.

(** X12. An object added and deleted before the worker gets to its Create
    event is never handed to [ObjectCreated]: the event of the addition finds
    the key gone and is dropped, and the Delete event calls [ObjectDeleted]
    with the nil object. And an object deleted and added again before the
    worker gets to the Delete event is never reported as deleted: the Delete
    event, if the cache held the object and there is one, finds the key there
    and calls nothing, the Create event calls [ObjectCreated]. *)
Theorem added_then_deleted obj obj' k s fuel :
  keyed (Added obj) k →
  keyed (Deleted obj') k →
  idle (wq s) →
  2 < fuel →
  calls (emitted (informer_Run [Added obj; Deleted obj'] ;; runWorker fuel) s)
  = [ObjectDeleted None]
  ∧ calls (emitted (informer_Run [Deleted obj'; Added obj] ;; runWorker fuel) s)
    = [ObjectCreated (Some obj)].
Proof.
  intros Ha Hd Hidle Hfuel.
  assert (Hka : key_of (Added obj) = k) by (unfold key_of; by rewrite (proj1 Ha)).
  assert (Hkd : key_of (Deleted obj') = k) by (unfold key_of; by rewrite (proj1 Hd)).
  assert (Ha' : keyed (Added obj) (key_of (Added obj))) by (by rewrite Hka).
  assert (Hd' : keyed (Deleted obj') (key_of (Deleted obj'))) by (by rewrite Hkd).
  split.
  - destruct (worker_after_informer [Added obj; Deleted obj'] s fuel) as (_ & -> & _);
      [ repeat first [apply Forall_nil_2 | apply Forall_cons; split]; done
      | done | eapply Nat.le_lt_trans; [apply length_first_events_of | simpl; lia] | ].
    simpl. unfold summary, event_of. rewrite Hka, Hkd.
    destruct (store s !! k) as [old|] eqn:Hm; simpl; rewrite lookup_insert_eq; simpl;
      (rewrite first_events_NoDup;
       [| apply NoDup_cons; split; [|apply NoDup_singleton];
          by intros ?%list_elem_of_singleton]);
      simpl; unfold judged; simpl; by rewrite lookup_delete_eq.
  - destruct (worker_after_informer [Deleted obj'; Added obj] s fuel) as (_ & -> & _);
      [ repeat first [apply Forall_nil_2 | apply Forall_cons; split]; done
      | done | eapply Nat.le_lt_trans; [apply length_first_events_of | simpl; lia] | ].
    simpl. unfold summary, event_of. rewrite Hka, Hkd.
    destruct (store s !! k) as [old|] eqn:Hm; simpl.
    + rewrite lookup_delete_eq. simpl.
      rewrite first_events_NoDup
        by (apply NoDup_cons; split; [|apply NoDup_singleton];
            by intros ?%list_elem_of_singleton).
      simpl. unfold judged. simpl. by rewrite lookup_insert_eq.
    + rewrite lookup_delete_eq. simpl.
      unfold judged. simpl. by rewrite lookup_insert_eq.
Qed.

(** X13. The three closures write to one [event] variable, and a Create or
    Delete event carries the change summary the last update left there. So
    the Create event of an object that is added, deleted and added again
    before the worker runs is one queue item, and one call of
    [ObjectCreated], only as long as no update with another summary comes
    before the second addition; else the object is handed to [ObjectCreated]
    twice. *)
Theorem stale_summary_splits_events a a' b old ka kb s fuel :
  keyed (Added a) ka →
  keyed (Deleted a') ka →
  keyed (Updated b) kb →
  ka ≠ kb →
  store s !! ka = None →
  store s !! kb = Some old →
  changed old b (updated (event s)) ≠ updated (event s) →
  idle (wq s) →
  4 < fuel →
  let u := changed old b (updated (event s)) in
  calls (emitted (informer_Run [Added a; Deleted a'; Added a] ;; runWorker fuel) s)
  = [ObjectCreated (Some a)]
  ∧ calls (emitted (informer_Run [Added a; Deleted a'; Updated b; Added a] ;;
                    runWorker fuel) s)
    = [ObjectCreated (Some a); ObjectUpdated (Some b) u; ObjectCreated (Some a)].
Proof.
  intros Ha Hd Hb Hne Hma Hmb Hu Hidle Hfuel u.
  assert (Hka : key_of (Added a) = ka) by (unfold key_of; by rewrite (proj1 Ha)).
  assert (Hkd : key_of (Deleted a') = ka) by (unfold key_of; by rewrite (proj1 Hd)).
  assert (Hkb : key_of (Updated b) = kb) by (unfold key_of; by rewrite (proj1 Hb)).
  assert (Ha' : keyed (Added a) (key_of (Added a))) by (by rewrite Hka).
  assert (Hd' : keyed (Deleted a') (key_of (Deleted a'))) by (by rewrite Hkd).
  assert (Hb' : keyed (Updated b) (key_of (Updated b))) by (by rewrite Hkb).
  split.
  - (* the second Create event is the first one again *)
    destruct (worker_after_informer [Added a; Deleted a'; Added a] s fuel)
      as (_ & -> & _);
      [ repeat first [apply Forall_nil_2 | apply Forall_cons; split]; done
      | done | eapply Nat.le_lt_trans; [apply length_first_events_of | simpl; lia] | ].
    simpl. unfold summary, event_of. rewrite Hka, Hkd, Hma. simpl.
    rewrite lookup_insert_eq. simpl. rewrite lookup_delete_eq. simpl.
    set (C := Informerevent ka create (updated (event s))).
    set (D := Informerevent ka delete (updated (event s))).
    change [C; D; C] with ([C; D] ++ [C]).
    rewrite first_events_snoc, decide_True by left.
    rewrite first_events_NoDup
      by (apply NoDup_cons; split; [|apply NoDup_singleton];
          by intros ?%list_elem_of_singleton).
    simpl. unfold judged. simpl. by rewrite lookup_insert_eq.
  - (* the update before it makes it another event *)
    destruct (worker_after_informer [Added a; Deleted a'; Updated b; Added a] s fuel)
      as (_ & -> & _);
      [ repeat first [apply Forall_nil_2 | apply Forall_cons; split]; done
      | done | eapply Nat.le_lt_trans; [apply length_first_events_of | simpl; lia] | ].
    simpl. unfold summary, event_of. rewrite Hka, Hkd, Hkb, Hma. simpl.
    rewrite lookup_insert_eq. simpl.
    rewrite lookup_delete_ne, lookup_insert_ne, Hmb by done. simpl.
    rewrite lookup_insert_ne, lookup_delete_eq by done. simpl.
    fold u.
    rewrite first_events_NoDup.
    2:{ repeat (apply NoDup_cons; split); try apply NoDup_nil_2;
          rewrite ?not_elem_of_cons; split_and?; try apply not_elem_of_nil;
          intros [=]; by auto. }
    simpl. unfold judged. simpl.
    rewrite lookup_insert_eq. simpl.
    rewrite lookup_insert_ne, lookup_insert_eq by done. simpl. done.
Qed.

(** X14. Two updates of an object that leave the same change summary, both
    delivered before the worker runs, make one queue item: [ObjectUpdated] is
    called once, with the object of the second update. *)
Theorem equal_updates_coalesce o1 o2 o3 k s fuel :
  keyed (Updated o2) k →
  keyed (Updated o3) k →
  store s !! k = Some o1 →
  changed o2 o3 (changed o1 o2 (updated (event s))) = changed o1 o2 (updated (event s)) →
  idle (wq s) →
  1 < fuel →
  let m := deliver (Updated o2) ;; deliver (Updated o3) ;; runWorker fuel in
  (m s).1 = Parked
  ∧ calls (emitted m s)
    = [ObjectUpdated (Some o3) (changed o1 o2 (updated (event s)))]
  ∧ idle (wq (m s).2).
Proof.
  intros Hk Hk' Hm Hsame Hidle Hfuel m.
  assert (Hk2 : key_of (Updated o2) = k) by (unfold key_of; by rewrite (proj1 Hk)).
  assert (Hk3 : key_of (Updated o3) = k) by (unfold key_of; by rewrite (proj1 Hk')).
  assert (Heq : m s = (informer_Run [Updated o2; Updated o3] ;; runWorker fuel) s).
  { subst m.
    change (informer_Run [Updated o2; Updated o3])
      with (deliver (Updated o2) ;; deliver (Updated o3) ;; mret tt).
    rewrite !mbind_eq.
    destruct (deliver (Updated o2) s) as [[[]| | | | ] s1]; try done.
    rewrite !mbind_eq.
    by destruct (deliver (Updated o3) s1) as [[[]| | | | ] s2]. }
  set (ev := Informerevent k update (changed o1 o2 (updated (event s)))).
  assert (Hes : first_events (events_of [Updated o2; Updated o3] (store s)
                                        (updated (event s))) = [ev]).
  { simpl. unfold summary, event_of. rewrite Hk2, Hk3, Hm. simpl.
    rewrite lookup_insert_eq. simpl. rewrite Hsame. fold ev.
    change [ev; ev] with ([ev] ++ [ev]).
    rewrite first_events_snoc, decide_True by left.
    by rewrite first_events_NoDup by apply NoDup_singleton. }
  destruct (worker_after_informer [Updated o2; Updated o3] s fuel)
    as (Ho & Hc & Hidle');
    [ repeat first [apply Forall_nil_2 | apply Forall_cons; split];
        by rewrite ?Hk2, ?Hk3
    | done | by rewrite Hes | ].
  unfold emitted in *. rewrite Heq. split_and!; [done | | done].
  rewrite Hc, Hes. simpl. rewrite Hk2, Hk3.
  unfold judged. simpl. by rewrite lookup_insert_eq.
Qed.

End Cached.

End Facts.

(** Two events wait, for [default/a], which the cache holds, and for
    [default/b], which it does not. *)
Lemma runWorker_handles_every_event_witness :
  let s := Sample.controller_with tt
             [ EventItem (Informerevent "default/a" create tt);
               EventItem (Informerevent "default/b" delete tt) ]
             {[ "default/a" := Sample.Object "default/a" 1 ]} in
  (runWorker (deps := Sample.authority) 3 s).1 = Parked
  ∧ calls (emitted (runWorker (deps := Sample.authority) 3) s)
    = [ObjectCreated (Some (Sample.Object "default/a" 1)); ObjectDeleted None].
Proof.
  intros s.
  destruct (runWorker_handles_every_event (deps := Sample.authority)
              (λ _ _, eq_refl) (λ _ _, eq_refl) 3 s
              [ Informerevent "default/a" create tt; Informerevent "default/b" delete tt ]
              eq_refl ltac:(simpl; lia)) as (Ho & Hc & _).
  split; [exact Ho | exact Hc].
Defined.

(** An Update event for a key the cache does not hold, with one requeue
    counted for it. *)
Lemma retry_branch_unreachable_witness :
  let s := Controller
             (Workqueue [EventItem (Informerevent "default/a" update tt)]
                        [EventItem (Informerevent "default/a" update tt)] [] false
                        {[ "default/a" := 1%nat ]})
             ∅ tt (Informerevent "" "" tt) None [] in
  let s' := (processNextItem (deps := Sample.authority) s).2 in
  log s' = [Info "processNextItem: start"]
  ∧ queue (wq s') = []
  ∧ (wq_NumRequeues "default/a" (wq s') ≤ wq_NumRequeues "default/a" (wq s))%nat.
Proof.
  intros s s'.
  destruct (retry_branch_unreachable (deps := Sample.authority) (λ _ _, eq_refl) s)
    as (_ & _ & Hn).
  split_and!; [reflexivity | reflexivity | exact (Hn "default/a")].
Defined.


(** A handler that cannot create its clientsets. *)
Lemma run_Init_panics_witness :
  let r := run (deps := Sample.authority_uninitialised) true
             [ Added (Sample.Object "default/a" 1) ] [] 8 (Start_controller tt tt) in
  r.1 = Panic "stat /root/.kube/config: no such file or directory"
  ∧ store r.2 = ∅.
Proof.
  intros r.
  destruct (run_Init_panics (deps := Sample.authority_uninitialised) true
              [ Added (Sample.Object "default/a" 1) ] [] 8 (Start_controller tt tt)
              "stat /root/.kube/config: no such file or directory" eq_refl)
    as (Ho & _ & Hs & _).
  split; [exact Ho | exact Hs].
Defined.


(** [default/a] is added, updated, deleted and added again: the second
    Create event is the first one, which still waits. *)
Lemma dispatch_is_level_triggered_witness :
  let a1 := Sample.Object "default/a" 1 in
  let a2 := Sample.Object "default/a" 2 in
  let a3 := Sample.Object "default/a" 3 in
  calls (emitted (informer_Run (deps := Sample.authority)
                    [Added a1; Updated a2; Deleted a2; Added a3] ;;
                  runWorker (deps := Sample.authority) 5)
                 (Start_controller tt tt))
  = [ObjectCreated (Some a3); ObjectUpdated (Some a3) tt].
Proof.
  intros a1 a2 a3.
  refine (dispatch_is_level_triggered (deps := Sample.authority) eq_refl (λ _ _, eq_refl)
            [Added a1; Updated a2; Deleted a2; Added a3] (Start_controller tt tt) 5
            _ _ _).
  - repeat first [apply Forall_nil_2 | apply Forall_cons; split]; done.
  - repeat split.
  - simpl. lia.
Defined.

(** [default/a] is added, and deleted at revision 2. *)
Lemma added_then_deleted_witness :
  calls (emitted (informer_Run (deps := Sample.authority)
                    [Added (Sample.Object "default/a" 1);
                     Deleted (Sample.Object "default/a" 2)] ;;
                  runWorker (deps := Sample.authority) 3)
                 (Start_controller tt tt))
  = [ObjectDeleted None].
Proof.
  refine (proj1 (added_then_deleted (deps := Sample.authority) eq_refl (λ _ _, eq_refl)
                   (Sample.Object "default/a" 1) (Sample.Object "default/a" 2) "default/a"
                   (Start_controller tt tt) 3 _ _ _ _)).
  - split; reflexivity.
  - split; [reflexivity | exact I].
  - repeat split.
  - lia.
Defined.

(** The informer holds the project [default/p]. The project [default/a] is
    added, deleted and added again; before the second addition, the users of
    [default/p] change. *)
Lemma stale_summary_splits_events_witness :
  let a := Sample.SampleProject "default/a" None true in
  let p := Sample.SampleProject "default/p" (Some [("site-a", "alice")]) true in
  let p' := Sample.SampleProject "default/p" (Some []) true in
  let s := Controller (Workqueue [] [] [] false ∅) {[ "default/p" := p ]} tt
                      (Informerevent "" "" (Fields false false)) None [] in
  calls (emitted (informer_Run (deps := Sample.projects)
                    [Added a; Deleted a; Updated p'; Added a] ;;
                  runWorker (deps := Sample.projects) 5) s)
  = [ ObjectCreated (Some a); ObjectUpdated (Some p') (Fields true false);
      ObjectCreated (Some a) ].
Proof.
  intros a p p' s.
  refine (proj2 (stale_summary_splits_events (deps := Sample.projects)
                   eq_refl (λ _ _, eq_refl) a a p' p "default/a" "default/p"
                   s 5 _ _ _ _ _ _ _ _ _)).
  - split; reflexivity.
  - split; [reflexivity | exact I].
  - split; reflexivity.
  - discriminate.
  - reflexivity.
  - reflexivity.
  - discriminate.
  - repeat split.
  - lia.
Defined.

(** The informer holds the project [default/p], whose users change twice. *)
Lemma equal_updates_coalesce_witness :
  let o1 := Sample.SampleProject "default/p" (Some [("site-a", "alice")]) true in
  let o2 := Sample.SampleProject "default/p" (Some []) true in
  let o3 := Sample.SampleProject "default/p" (Some [("site-a", "bob")]) true in
  let s := Controller (Workqueue [] [] [] false ∅) {[ "default/p" := o1 ]} tt
                      (Informerevent "" "" (Fields false false)) None [] in
  let m := deliver (deps := Sample.projects) (Updated o2) ;;
           deliver (deps := Sample.projects) (Updated o3) ;;
           runWorker (deps := Sample.projects) 2 in
  calls (emitted m s) = [ObjectUpdated (Some o3) (Fields true false)].
Proof.
  intros o1 o2 o3 s m.
  destruct (equal_updates_coalesce (deps := Sample.projects) eq_refl (λ _ _, eq_refl)
              o1 o2 o3 "default/p" s 2)
    as (_ & Hc & _).
  - split; reflexivity.
  - split; reflexivity.
  - reflexivity.
  - reflexivity.
  - repeat split.
  - lia.
  - exact Hc.
Defined.

End WorkerFacts.

(** ** The team handler *)

Module TeamHandlerFacts.
Import TeamHandler.

Section containsRole.
Variable ToLower : string → string.

(** X15. [containsRole] tells whether some role of the list equals the value up
    to [strings.ToLower]: the comparison ignores case on both sides, the empty
    list holds no role, and the roles are looked at one by one. *)
Theorem containsRole_iff (roles roles' : list string) (value : string) :
  (containsRole ToLower roles value = true
   ↔ ∃ ele, ele ∈ roles ∧ ToLower value = ToLower ele)
  ∧ containsRole ToLower [] value = false
  ∧ containsRole ToLower (roles ++ roles') value
    = containsRole ToLower roles value || containsRole ToLower roles' value.
Proof.
  split_and!; [|done|].
  - induction roles as [|ele roles IH]; simpl.
    + split; [done | by intros (? & []%elem_of_nil & _)].
    + destruct (String.eqb_spec (ToLower value) (ToLower ele)) as [Heq|Hne].
      * split; [|done]. intros _. exists ele. split; [left | done].
      * rewrite IH. split.
        -- intros (x & Hx & Heq). exists x. split; [by right | done].
        -- intros (x & [->|Hx]%elem_of_cons & Heq); [done | by exists x].
  - induction roles as [|ele roles IH]; simpl; [done|].
    by destruct (String.eqb _ _).
Qed.

End containsRole.

Section Handler.
Context {World : Type}.
Variable GroupName : string.
Variable ToLower : string → string.
Variable Users_Get : string → string → World → option User.
Variable Users_List : string → World → option (list User).
Variable Namespaces_Get : string → World → Namespace * option string.
Variable Authorities_Get_Enabled : string → World → bool.
Variable Teams_Update_result : string → Team → World → Team.
Variable serve : request → World → World.

Implicit Types (c : cluster (World := World)).

(** A role binding for a user, followed by the invitation sent to them. *)
Definition bound (ns : string) (sent : list (User * ResourceAllocationData))
  : list request :=
  sent ≫= λ ud, [CreateRoleBindingsByRoles ud.1 ns "Team"; Send "team-invitation" ud.2].

Lemma H_bind_eq {A B} (m : H A) (f : A → H B) c :
  (m ≫= f) c = f (m c).1 (m c).2.
Proof. unfold mbind, H_bind. by destruct (m c). Qed.

(** The requests of [createRoleBindings]: role bindings made by package
    [registration], and mails. *)
Definition binds_or_mails (r : request) : bool :=
  match r with
  | CreateRoleBindingsByRoles _ _ _ | Send _ _ => true
  | _ => false
  end.

(** The cluster after the requests [rs], made in this order. *)
Definition served (w : World) (rs : list request) : World :=
  foldl (λ w r, serve r w) w rs.

(** A user of the team, as [Users(authority-<Authority>).Get(Username)]
    answers, with the invitation, if the user is found, active and has
    accepted the AUP. *)
Definition member_of (ns : string) (teamCopy : Team) (ownerAuthority : string)
    (w : World) (teamUser : TeamUsers) : option (User * ResourceAllocationData) :=
  user ← Users_Get ("authority-" +:+ Authority teamUser) (Username teamUser) w;
  if User_Status_Active user && User_Status_AUP user
  then Some (user, invitation (Authority teamUser) (Username teamUser) user
                              ownerAuthority teamCopy ns)
  else None.

(** A user of the owner authority, with the invitation, if the user is
    active, has accepted the AUP and holds the role admin or manager. *)
Definition manager_of (ns : string) (teamCopy : Team) (ownerAuthority : string)
    (userRow : User) : option (User * ResourceAllocationData) :=
  if User_Status_Active userRow && User_Status_AUP userRow
     && (containsRole ToLower (User_Spec_Roles userRow) "admin"
         || containsRole ToLower (User_Spec_Roles userRow) "manager")
  then Some (userRow, invitation ownerAuthority (User_Name userRow) userRow
                                 ownerAuthority teamCopy ns)
  else None.

(** Role bindings and mails leave the users as they are. *)
Definition users_kept : Prop :=
  (∀ r w authority username, binds_or_mails r = true →
     Users_Get authority username (serve r w) = Users_Get authority username w)
  ∧ (∀ r w authority, binds_or_mails r = true →
       Users_List authority (serve r w) = Users_List authority w).

Lemma served_app w rs rs' : served w (rs ++ rs') = served (served w rs) rs'.
Proof. unfold served. by rewrite foldl_app. Qed.

Lemma bound_cons ns ud sent :
  bound ns (ud :: sent)
  = CreateRoleBindingsByRoles ud.1 ns "Team" :: Send "team-invitation" ud.2 :: bound ns sent.
Proof. reflexivity. Qed.

Lemma bound_app ns sent sent' : bound ns (sent ++ sent') = bound ns sent ++ bound ns sent'.
Proof. unfold bound. by rewrite bind_app. Qed.

Lemma served_bound_users ns sent w :
  users_kept →
  (∀ authority username,
     Users_Get authority username (served w (bound ns sent)) = Users_Get authority username w)
  ∧ (∀ authority,
       Users_List authority (served w (bound ns sent)) = Users_List authority w).
Proof.
  intros [Hget Hlist]. revert w. induction sent as [|ud sent IH]; intros w; [done|].
  rewrite bound_cons. cbn [served foldl]. destruct (IH (serve (Send "team-invitation" ud.2)
    (serve (CreateRoleBindingsByRoles ud.1 ns "Team") w))) as [IHg IHl].
  unfold served in *. split.
  - intros authority username. by rewrite IHg, !Hget.
  - intros authority. by rewrite IHl, !Hlist.
Qed.

Lemma range_members ns teamCopy ownerAuthority w (users : list TeamUsers) c :
  users_kept →
  (∀ authority username,
     Users_Get authority username (world c) = Users_Get authority username w) →
  let sent := omap (member_of ns teamCopy ownerAuthority w) users in
  range users (λ teamUser,
    r ← read (Users_Get ("authority-" +:+ Authority teamUser) (Username teamUser));
    match r with
    | Some user =>
        if User_Status_Active user && User_Status_AUP user then
          send serve (CreateRoleBindingsByRoles user ns "Team");;
          send serve (Send "team-invitation"
                        (invitation (Authority teamUser) (Username teamUser) user
                                    ownerAuthority teamCopy ns))
        else mret tt
    | None => mret tt
    end) c
  = (tt, Cluster (served (world c) (bound ns sent)) (requests c ++ bound ns sent)).
Proof.
  intros Hkept.
  match goal with |- context [range users ?b c] => set (body := b) end.
  assert (Hbody : ∀ teamUser c0,
            body teamUser c0
            = match Users_Get ("authority-" +:+ Authority teamUser) (Username teamUser)
                              (world c0) with
              | Some user =>
                  if User_Status_Active user && User_Status_AUP user
                  then (tt, Cluster
                              (served (world c0) (bound ns
                                 [(user, invitation (Authority teamUser) (Username teamUser)
                                                    user ownerAuthority teamCopy ns)]))
                              (requests c0 ++ bound ns
                                 [(user, invitation (Authority teamUser) (Username teamUser)
                                                    user ownerAuthority teamCopy ns)]))
                  else (tt, c0)
              | None => (tt, c0)
              end).
  { intros teamUser c0. unfold body. rewrite H_bind_eq. unfold read. cbn [fst snd].
    destruct (Users_Get _ _ (world c0)) as [user|]; [|done].
    destruct (User_Status_Active user && User_Status_AUP user); [|done].
    rewrite H_bind_eq. unfold send. cbn [fst snd world requests].
    rewrite bound_cons. cbn [fst snd served foldl bound mbind list_bind app].
    by rewrite <- app_assoc. }
  clearbody body.
  revert c. induction users as [|teamUser users IH]; intros c Hsame sent.
  - subst sent. simpl. rewrite app_nil_r. by destruct c.
  - subst sent. cbn [range]. rewrite H_bind_eq, Hbody.
    change (omap (member_of ns teamCopy ownerAuthority w) (teamUser :: users))
      with (match member_of ns teamCopy ownerAuthority w teamUser with
            | Some y => y :: omap (member_of ns teamCopy ownerAuthority w) users
            | None => omap (member_of ns teamCopy ownerAuthority w) users
            end).
    rewrite Hsame.
    destruct (member_of ns teamCopy ownerAuthority w teamUser) as [ud|] eqn:Hm;
      unfold member_of in Hm;
      (destruct (Users_Get _ _ w) as [user|]; cbn [mbind option_bind] in Hm;
       [destruct (User_Status_Active user && User_Status_AUP user)|]);
      simplify_eq; try (by apply IH).
    cbn [fst snd]. rewrite IH.
    + cbn [world requests].
      rewrite (bound_cons ns _ (omap _ users)).
      change (bound ns [?ud]) with [CreateRoleBindingsByRoles ud.1 ns "Team";
                                     Send "team-invitation" ud.2].
      cbn [fst snd served foldl]. by rewrite <- !app_assoc.
    + cbn [world]. intros authority username.
      destruct (served_bound_users ns
                  [(user, invitation (Authority teamUser) (Username teamUser)
                                     user ownerAuthority teamCopy ns)]
                  (world c) Hkept) as [Hget _].
      by rewrite Hget.
Qed.

Lemma range_managers ns teamCopy ownerAuthority (items : list User) c :
  let sent := omap (manager_of ns teamCopy ownerAuthority) items in
  range items (λ userRow,
    if User_Status_Active userRow && User_Status_AUP userRow
       && (containsRole ToLower (User_Spec_Roles userRow) "admin"
           || containsRole ToLower (User_Spec_Roles userRow) "manager")
    then
      send serve (CreateRoleBindingsByRoles userRow ns "Team");;
      send serve (Send "team-invitation"
                    (invitation ownerAuthority (User_Name userRow) userRow
                                ownerAuthority teamCopy ns))
    else mret tt) c
  = (tt, Cluster (served (world c) (bound ns sent)) (requests c ++ bound ns sent)).
Proof.
  match goal with |- context [range items ?b c] => set (body := b) end.
  assert (Hbody : ∀ userRow c0,
            body userRow c0
            = match manager_of ns teamCopy ownerAuthority userRow with
              | Some ud => (tt, Cluster (served (world c0) (bound ns [ud]))
                                        (requests c0 ++ bound ns [ud]))
              | None => (tt, c0)
              end).
  { intros userRow c0. unfold body, manager_of.
    destruct (User_Status_Active userRow && User_Status_AUP userRow
              && (containsRole ToLower (User_Spec_Roles userRow) "admin"
                  || containsRole ToLower (User_Spec_Roles userRow) "manager")); [|done].
    rewrite H_bind_eq. unfold send. cbn [fst snd world requests].
    cbn [fst snd served foldl bound mbind list_bind app].
    by rewrite <- app_assoc. }
  clearbody body.
  revert c. induction items as [|userRow items IH]; intros c sent.
  - subst sent. simpl. rewrite app_nil_r. by destruct c.
  - subst sent. cbn [range]. rewrite H_bind_eq, Hbody.
    change (omap (manager_of ns teamCopy ownerAuthority) (userRow :: items))
      with (match manager_of ns teamCopy ownerAuthority userRow with
            | Some y => y :: omap (manager_of ns teamCopy ownerAuthority) items
            | None => omap (manager_of ns teamCopy ownerAuthority) items
            end).
    destruct (manager_of ns teamCopy ownerAuthority userRow) as [ud|]; [|by apply IH].
    cbn [fst snd]. rewrite IH. cbn [world requests].
    rewrite (bound_cons ns _ (omap _ items)).
    change (bound ns [ud]) with [CreateRoleBindingsByRoles ud.1 ns "Team";
                                  Send "team-invitation" ud.2].
    cbn [fst snd served foldl]. by rewrite <- !app_assoc.
Qed.

(** X16. [createRoleBindings] binds, in the child namespace, and invites by
    mail, one after the other: first the users named in [Spec.Users] of the
    team, as [Users(authority-<Authority>).Get(Username)] answers for them,
    then the users that [Users(authority-<ownerAuthority>).List] returns and
    that hold the role admin or manager; of both, those who are active and
    have accepted the AUP, and nobody when the list call fails. It makes no
    other request. Role bindings and mails are taken to leave the users as
    they are. *)
Theorem createRoleBindings_invites ns (teamCopy : Team) ownerAuthority c :
  users_kept →
  let members :=
    omap (member_of ns teamCopy ownerAuthority (world c)) (Team_Spec_Users teamCopy) in
  let managers :=
    match Users_List ("authority-" +:+ ownerAuthority) (world c) with
    | Some items => omap (manager_of ns teamCopy ownerAuthority) items
    | None => []
    end in
  createRoleBindings ToLower Users_Get Users_List serve ns teamCopy ownerAuthority c
  = (tt, Cluster (served (world c) (bound ns (members ++ managers)))
                 (requests c ++ bound ns (members ++ managers)))
  ∧ Forall (λ ud, User_Status_Active ud.1 = true ∧ User_Status_AUP ud.1 = true)
           (members ++ managers).
Proof.
  intros Hkept members managers. split.
  - unfold createRoleBindings. rewrite H_bind_eq.
    rewrite (range_members ns teamCopy ownerAuthority (world c)) by done.
    fold members. cbn [fst snd]. rewrite H_bind_eq. unfold read at 1. cbn [fst snd world].
    destruct (served_bound_users ns members (world c) Hkept) as [_ Hlist].
    rewrite Hlist. subst managers.
    destruct (Users_List _ (world c)) as [items|].
    + rewrite range_managers. unfold read. cbn [fst snd world requests].
      by rewrite bound_app, served_app, <- app_assoc.
    + unfold read. cbn [fst snd]. by rewrite app_nil_r.
  - apply Forall_app. split; apply Forall_forall; intros ud Hud.
    + apply list_elem_of_omap in Hud as (teamUser & _ & Hud). unfold member_of in Hud.
      destruct (Users_Get _ _ (world c)) as [user|]; simpl in Hud; [|done].
      destruct (User_Status_Active user) eqn:Ha, (User_Status_AUP user) eqn:Hp;
        simpl in Hud; simplify_eq; by simpl.
    + subst managers. destruct (Users_List _ (world c)) as [items|];
        [|by apply elem_of_nil in Hud].
      apply list_elem_of_omap in Hud as (userRow & _ & Hud). unfold manager_of in Hud.
      destruct (User_Status_Active userRow) eqn:Ha, (User_Status_AUP userRow) eqn:Hp;
        simpl in Hud; try done.
      destruct (_ || _); simplify_eq; by simpl.
Qed.

(** The owner reference made of a user of the team, if the user is found,
    active and has accepted the AUP. *)
Definition owner_of (w : World) (teamUser : TeamUsers) : option OwnerReference :=
  user ← Users_Get ("authority-" +:+ Authority teamUser) (Username teamUser) w;
  if User_Status_Active user && User_Status_AUP user
  then Some {| APIVersion := Scheme.GroupVersion_String (Scheme.SchemeGroupVersion GroupName);
               Kind := "User"; Name := User_Name user; UID := User_UID user;
               Controller := Some false; BlockOwnerDeletion := Some true |}
  else None.

Lemma omap_length_le {A B} (f : A → option B) (l : list A) :
  (length (omap f l) ≤ length l)%nat.
Proof.
  induction l as [|x l IH]; simpl; [done|].
  unfold omap in IH. destruct (f x); simpl; lia.
Qed.

Lemma setOwnerReferences_users_eq (users : list TeamUsers) acc c :
  setOwnerReferences_users GroupName Users_Get users acc c
  = (acc ++ omap (owner_of (world c)) users, c).
Proof.
  revert acc. induction users as [|teamUser users IH]; intros acc; simpl.
  - by rewrite app_nil_r.
  - rewrite H_bind_eq. unfold read at 1. cbn [fst snd].
    change (omap (owner_of (world c)) (teamUser :: users))
      with (match owner_of (world c) teamUser with
            | Some y => y :: omap (owner_of (world c)) users
            | None => omap (owner_of (world c)) users
            end).
    unfold owner_of at 1.
    destruct (Users_Get _ _ (world c)) as [user|]; simpl; [|apply IH].
    destruct (User_Status_Active user && User_Status_AUP user); [|apply IH].
    rewrite IH. by rewrite <- app_assoc.
Qed.

(** X17. [setOwnerReferences] only reads. The owners of the team are its users
    that are found, active and have accepted the AUP, in the order of
    [Spec.Users]; the owner of the child namespace is the team; and no
    reference it returns is a controller reference: [NewControllerRef] sets
    [Controller] and [BlockOwnerDeletion], and [Controller] is pointed at
    [false] afterwards. *)
Theorem setOwnerReferences_owners (teamCopy : Team) c :
  let r := setOwnerReferences GroupName Users_Get teamCopy c in
  r.2 = c
  ∧ r.1.1 = omap (owner_of (world c)) (Team_Spec_Users teamCopy)
  ∧ r.1.2 = [ {| APIVersion := Scheme.GroupVersion_String (Scheme.SchemeGroupVersion GroupName);
                 Kind := "Team"; Name := Team_Name teamCopy; UID := Team_UID teamCopy;
                 Controller := Some false; BlockOwnerDeletion := Some true |} ]
  ∧ Forall (λ ref, Controller ref = Some false ∧ BlockOwnerDeletion ref = Some true)
           (r.1.1 ++ r.1.2)
  ∧ (length r.1.1 ≤ length (Team_Spec_Users teamCopy))%nat.
Proof.
  intros r. subst r. unfold setOwnerReferences.
  rewrite H_bind_eq, setOwnerReferences_users_eq. simpl.
  split_and!; [done | done | done | | apply omap_length_le].
  apply Forall_app. split; [|by repeat constructor].
  apply Forall_forall. intros ref (teamUser & _ & Href)%list_elem_of_omap.
  unfold owner_of in Href.
  destruct (Users_Get _ _ (world c)) as [user|]; simpl in Href; [|done].
  destruct (User_Status_Active user && User_Status_AUP user); by simplify_eq.
Qed.

(** X18. [ObjectCreated] under a disabled authority deletes the team. Under an
    enabled one it acts only on a team of generation 1 for which no namespace
    [team-<name>] is found: it updates the team with its owners, creates the
    child namespace [<namespace>-team-<name>] of the team the update returned,
    labelled and owned by the team, and last, the call being deferred, updates
    the status of that team to enabled. In every other case it writes
    nothing. *)
Theorem ObjectCreated_requests (obj : Team) c :
  let w := world c in
  let teamOwnerNamespace := (Namespaces_Get (Team_Namespace obj) w).1 in
  let enabled := Authorities_Get_Enabled (authority_name teamOwnerNamespace) w in
  let err := (Namespaces_Get ("team-" +:+ Team_Name obj) w).2 in
  let owners := omap (owner_of w) (Team_Spec_Users obj) in
  let updated := Teams_Update_result (Team_Namespace obj)
                   (with_OwnerReferences obj owners) w in
  requests (ObjectCreated GroupName Users_Get Namespaces_Get Authorities_Get_Enabled
              Teams_Update_result serve obj c).2
  = requests c ++
    if enabled then
      if (Team_Generation obj =? 1)%Z then
        match err with
        | Some _ =>
            [ Teams_Update (Team_Namespace obj) (with_OwnerReferences obj owners);
              Namespaces_Create
                {| Namespace_Name := Team_Namespace updated +:+ "-team-" +:+ Team_Name updated;
                   Namespace_OwnerReferences :=
                     [ {| APIVersion := Scheme.GroupVersion_String
                                          (Scheme.SchemeGroupVersion GroupName);
                          Kind := "Team"; Name := Team_Name obj; UID := Team_UID obj;
                          Controller := Some false; BlockOwnerDeletion := Some true |} ];
                   Namespace_Labels :=
                     {[ "owner" := "team"; "owner-name" := Team_Name updated;
                        "authority-name" := authority_name teamOwnerNamespace ]} |};
              Teams_UpdateStatus (Team_Namespace updated) (with_Status_Enabled updated true) ]
        | None => []
        end
      else []
    else [Teams_Delete (Team_Namespace obj) (Team_Name obj)].
Proof.
  intros w teamOwnerNamespace enabled err owners updated.
  unfold ObjectCreated. rewrite H_bind_eq. unfold read at 1. simpl.
  rewrite H_bind_eq. unfold read at 1. simpl.
  fold w teamOwnerNamespace enabled.
  destruct enabled; simpl.
  - destruct (Team_Generation obj =? 1)%Z; simpl; [|by rewrite app_nil_r].
    rewrite H_bind_eq. unfold read at 1. simpl. fold w err.
    destruct err; [|by rewrite app_nil_r].
    rewrite H_bind_eq. unfold setOwnerReferences.
    rewrite H_bind_eq, setOwnerReferences_users_eq. simpl.
    fold w owners updated. by rewrite <- !app_assoc.
  - done.
Qed.

End Handler.

(** The team of [alice] and [carol] under the authority [lip6], whose
    manager is [bob]: [alice] and [bob] are bound and invited. *)
Lemma createRoleBindings_invites_witness :
  let team :=
    {| Team_Name := "a"; Team_Namespace := "authority-lip6"; Team_UID := "1f0c";
       Team_Generation := 2; Team_OwnerReferences := [];
       Team_Spec_Users := [ {| Authority := "lip6"; Username := "alice" |};
                            {| Authority := "lip6"; Username := "carol" |} ];
       Team_Spec_Description := ""; Team_Status_Enabled := true |} in
  let ns := "authority-lip6-team-a" in
  requests (createRoleBindings id Sample.Users_Get Sample.Users_List (λ _ w, w)
              ns team "lip6" (Cluster Sample.staff [])).2
  = [ CreateRoleBindingsByRoles Sample.alice ns "Team";
      Send "team-invitation" (invitation "lip6" "alice" Sample.alice "lip6" team ns);
      CreateRoleBindingsByRoles Sample.bob ns "Team";
      Send "team-invitation" (invitation "lip6" "bob" Sample.bob "lip6" team ns) ].
Proof.
  intros team ns.
  destruct (createRoleBindings_invites id Sample.Users_Get Sample.Users_List (λ _ w, w)
              ns team "lip6" (Cluster Sample.staff [])) as [H _].
  - split; intros; reflexivity.
  - exact (f_equal (λ r, requests r.2) H).
Defined.

End TeamHandlerFacts.

(** ** [ObjectUpdated] of the team handler *)

Module TeamFacts.
Section Facts.
Context {T : Type}.
Variable GetNamespace : T → string.
Variable GetName : T → string.
Variable Status_Enabled : T → bool.

Lemma append_ne (a b : string) : b ≠ "" → a +:+ b ≠ a.
Proof.
  intros Hb. induction a as [|ch a IH]; simpl; [done|].
  intros [= Heq]. by apply IH.
Qed.

(** X19. What [ObjectUpdated] never does. Role bindings are created only for an
    enabled team of an enabled authority whose users or status changed, and
    then right after the old ones were deleted; a disabled team loses its
    slices and role bindings and gets nothing back. Under a disabled
    authority the only request is a delete of the team, addressed to the
    child namespace [<namespace>-team-<name>], which is never the namespace
    the team is in. *)
Theorem ObjectUpdated_writes (authorityName : string) (authorityEnabled : bool)
    (obj : T) (updated : fields) :
  let reqs := Team.ObjectUpdated GetNamespace GetName Status_Enabled
                authorityName authorityEnabled obj updated in
  let child := GetNamespace obj +:+ "-team-" +:+ GetName obj in
  (∀ ns t a, Team.CreateRoleBindings ns t a ∈ reqs →
     authorityEnabled = true ∧ Status_Enabled obj = true
     ∧ (users updated = true ∨ enabled updated = true)
     ∧ reqs = [ Team.DeleteRoleBindings child; Team.CreateRoleBindings child obj authorityName;
                Team.UpdateOwnerReferences obj ])
  ∧ (authorityEnabled = true → Status_Enabled obj = false →
     reqs = [Team.DeleteSlices child; Team.DeleteRoleBindings child])
  ∧ (authorityEnabled = false → reqs = [Team.DeleteTeam child (GetName obj)])
  ∧ child ≠ GetNamespace obj.
Proof.
  intros reqs child. subst reqs. unfold Team.ObjectUpdated. fold child.
  split_and!.
  - intros ns t a.
    destruct authorityEnabled, (Status_Enabled obj), (users updated) eqn:Hu,
      (enabled updated) eqn:He; simpl;
      rewrite ?elem_of_cons, ?elem_of_nil; intros Hin;
      try (decompose [or] Hin; done); split_and!; auto.
  - intros -> ->. done.
  - intros ->. by destruct (Status_Enabled obj).
  - subst child. by apply append_ne.
Qed.

End Facts.
End TeamFacts.

(** ** The cluster roles *)

Module ClusterRolesFacts.
Import ClusterRoles.

Lemma create_or_update_mem name title rules (s : state (World := gmap string (list PolicyRule))) :
  cluster (create_or_update mem_Error mem_IsAlreadyExists mem_Create mem_Get mem_Update
             name title rules s)
  = <[name := rules]> (cluster s).
Proof.
  unfold create_or_update, mem_Create, mem_Get, mem_Update. simpl.
  destruct (cluster s !! name) as [old|] eqn:Hold; simpl; [|done].
  rewrite Hold. simpl. by rewrite Hold.
Qed.

Lemma create_only_mem name rules (s : state (World := gmap string (list PolicyRule))) :
  cluster (create_only mem_Error mem_Create name rules s)
  = match cluster s !! name with
    | Some _ => cluster s
    | None => <[name := rules]> (cluster s)
    end.
Proof.
  unfold create_only, mem_Create. simpl.
  by destruct (cluster s !! name) as [old|] eqn:Hold.
Qed.

(** X20. Against an API server that keeps cluster roles by name, the authority
    controller's [Start] leaves each of its four roles with exactly the rules
    written in the source, whether the role existed or not: rules the role
    had before are overwritten. Other roles are not touched, and a second
    run changes nothing. *)
Theorem Start_authority_roles_reset (m : gmap string (list PolicyRule)) :
  let Start := Start_authority_roles mem_Error mem_IsAlreadyExists
                 mem_Create mem_Get mem_Update in
  let m' := cluster (Start (State m [])) in
  m' !! "authority-admin" = Some authority_admin
  ∧ m' !! "authority-manager" = Some authority_manager
  ∧ m' !! "authority-tech" = Some authority_tech
  ∧ m' !! "authority-user" = Some authority_user
  ∧ (∀ name, name ∉ ["authority-admin"; "authority-manager"; "authority-tech"; "authority-user"] →
       m' !! name = m !! name)
  ∧ cluster (Start (State m' [])) = m'.
Proof.
  intros Start m'.
  assert (Heq : ∀ m0 l, cluster (Start (State m0 l))
                      = <["authority-user" := authority_user]>
                          (<["authority-tech" := authority_tech]>
                             (<["authority-manager" := authority_manager]>
                                (<["authority-admin" := authority_admin]> m0)))).
  { intros m0 l. subst Start. unfold Start_authority_roles.
    by rewrite !create_or_update_mem. }
  subst m'. rewrite !Heq. split_and!.
  - by rewrite !lookup_insert_ne, lookup_insert_eq by done.
  - by rewrite !lookup_insert_ne, lookup_insert_eq by done.
  - by rewrite lookup_insert_ne, lookup_insert_eq by done.
  - by rewrite lookup_insert_eq.
  - intros name Hname. rewrite !not_elem_of_cons in Hname.
    destruct Hname as (? & ? & ? & ? & _). by rewrite !lookup_insert_ne by done.
  - apply map_eq. intros name.
    destruct (decide (name = "authority-user")) as [->|];
      [by rewrite !lookup_insert_eq|rewrite (lookup_insert_ne _ "authority-user") by done].
    symmetry. rewrite (lookup_insert_ne _ "authority-user") by done. symmetry.
    destruct (decide (name = "authority-tech")) as [->|];
      [by rewrite !lookup_insert_eq|rewrite (lookup_insert_ne _ "authority-tech") by done].
    symmetry. rewrite (lookup_insert_ne _ "authority-tech") by done. symmetry.
    destruct (decide (name = "authority-manager")) as [->|];
      [by rewrite !lookup_insert_eq|rewrite (lookup_insert_ne _ "authority-manager") by done].
    symmetry. rewrite (lookup_insert_ne _ "authority-manager") by done. symmetry.
    destruct (decide (name = "authority-admin")) as [->|];
      [by rewrite !lookup_insert_eq|rewrite (lookup_insert_ne _ "authority-admin") by done].
    by rewrite !lookup_insert_ne by done.
Qed.

(** X21. The project controller's [Start] only creates: against the same API
    server, a role that exists keeps the rules it has, whatever they are, and
    a missing one is created with the rule of the source. *)
Theorem Start_project_roles_keep (m : gmap string (list PolicyRule)) :
  let m' := cluster (Start_project_roles mem_Error mem_Create (State m [])) in
  (∀ name, name ∈ ["project-pi"; "project-manager"; "project-user"] →
     m' !! name = Some (default project_rule (m !! name)))
  ∧ (∀ name, name ∉ ["project-pi"; "project-manager"; "project-user"] →
       m' !! name = m !! name).
Proof.
  intros m'. subst m'. unfold Start_project_roles. rewrite !create_only_mem. simpl.
  split.
  - intros name Hname. rewrite !elem_of_cons, elem_of_nil in Hname.
    destruct Hname as [-> | [-> | [-> | []]]];
      repeat (case_match; simplify_map_eq); done.
  - intros name Hname. rewrite !not_elem_of_cons in Hname.
    destruct Hname as (? & ? & ? & _).
    repeat (case_match; simplify_map_eq); done.
Qed.

End ClusterRolesFacts.

(** ** [generateRandomString] *)

Module RandomFacts.
Import Random.

Section Facts.
Context {Machine : Type}.
Variable maxAlloc : Z.
Variable Intn : Z → Machine → Z * Machine.
Variable allocate : allocation → Machine → option Machine.

(** What [rand.Intn] promises for a positive argument. *)
Definition in_range : Prop :=
  ∀ n m, (0 < n)%Z → (0 ≤ (Intn n m).1 < n)%Z.

(** There is memory for [letter], for [b] and for the string. *)
Definition enough_memory (n : Z) : Prop :=
  ∀ a m, a ∈ [Runes 52; Runes n; Bytes n] → is_Some (allocate a m).

Lemma fill_cons i indices (b : list Ascii.ascii) m :
  fill Intn (i :: indices) b m
  = let '(r, m) := Intn (Z.of_nat (length letter)) m in
    if (r <? 0)%Z then (Panics "runtime error: index out of range", m)
    else
      match letter !! Z.to_nat r with
      | None => (Panics "runtime error: index out of range", m)
      | Some c =>
          if (i <? length b)%nat then fill Intn indices (<[i := c]> b) m
          else (Panics "runtime error: index out of range", m)
      end.
Proof. reflexivity. Qed.

Lemma fill_letters (done : list Ascii.ascii) k (rest : list Ascii.ascii) m :
  in_range →
  length rest = k →
  Forall (λ c, c ∈ letter) done →
  ∃ b m',
    fill Intn (seq (length done) k) (done ++ rest) m = (Value b, m')
    ∧ length b = (length done + k)%nat
    ∧ Forall (λ c, c ∈ letter) b.
Proof.
  intros Hrange. revert done rest m.
  induction k as [|k IH]; intros done rest m Hlen Hdone.
  - destruct rest; [|done]. simpl. exists done, m. rewrite app_nil_r.
    split_and!; [done | lia | done].
  - destruct rest as [|c0 rest]; [done|]. simpl in Hlen.
    change (seq (length done) (S k)) with (length done :: seq (S (length done)) k).
    rewrite fill_cons.
    pose proof (Hrange (Z.of_nat (length letter)) m ltac:(done)) as Hr.
    destruct (Intn (Z.of_nat (length letter)) m) as [r m1]. cbn [fst] in Hr.
    destruct (Z.ltb_spec r 0) as [|_]; [lia|].
    destruct (lookup_lt_is_Some_2 letter (Z.to_nat r)) as [c Hc]; [lia|].
    rewrite Hc.
    destruct (Nat.ltb_spec (length done) (length (done ++ c0 :: rest))) as [_|Hge];
      [|rewrite length_app in Hge; simpl in Hge; lia].
    replace (<[length done := c]> (done ++ c0 :: rest)) with ((done ++ [c]) ++ rest).
    2:{ rewrite <- app_assoc. simpl.
        rewrite insert_app_r_alt by lia. by rewrite Nat.sub_diag. }
    destruct (IH (done ++ [c]) rest m1) as (b & m' & Hb & Hlb & Hall).
    + lia.
    + apply Forall_app. split; [done|]. apply Forall_singleton.
      by eapply list_elem_of_lookup_2.
    + rewrite length_app in Hb, Hlb. simpl in Hb, Hlb.
      replace (length done + 1)%nat with (S (length done)) in Hb by lia.
      exists b, m'. split_and!; [done | lia | done].
Qed.

Lemma length_string_of_list_ascii (b : list Ascii.ascii) :
  String.length (String.string_of_list_ascii b) = length b.
Proof. induction b as [|c b IH]; simpl; [done | by rewrite IH]. Qed.

(** How [generateRandomString] ends. *)
Definition as_promised (n : Z) (r : result string) : Prop :=
  match r with
  | Value s =>
      (0 ≤ n ∧ 4 * n ≤ maxAlloc)%Z
      ∧ String.length s = Z.to_nat n
      ∧ Forall (λ c, c ∈ letter) (String.list_ascii_of_string s)
  | Panics msg =>
      (n < 0 ∨ maxAlloc < 4 * n)%Z
      ∧ msg = "runtime error: makeslice: len out of range"
  | Fatal msg => msg = "fatal error: runtime: out of memory"
  end.

Lemma allocating_cases {A} a (k : Machine → result A * Machine) m :
  allocating allocate a k m = (Fatal "fatal error: runtime: out of memory", m)
  ∨ ∃ m', allocate a m = Some m' ∧ allocating allocate a k m = k m'.
Proof.
  unfold allocating. destruct (allocate a m) as [m'|]; [right; by exists m' | by left].
Qed.

(** X22. Whatever [rand.Intn] draws within its range, [generateRandomString]
    ends in one of three ways. It returns a string of exactly [n] characters,
    each one of the 52 letters [a]-[z], [A]-[Z], which it does only for an
    [n] from 0 up to a quarter of [maxAlloc]. Or [make] panics, the length
    being out of range, which it does only for an [n] below 0 or above that
    bound. Or the runtime has no memory for [letter], for [b] or for the
    string, and stops the process. No index is ever out of range. Where there
    is memory for the three, an [n] within the bounds gives the string, and
    one outside them the panic. *)
Theorem generateRandomString_letters (n : Z) (m : Machine) :
  in_range →
  as_promised n (generateRandomString maxAlloc Intn allocate n m).1
  ∧ (enough_memory n →
     if decide (0 ≤ n ∧ 4 * n ≤ maxAlloc)%Z
     then ∃ s, (generateRandomString maxAlloc Intn allocate n m).1 = Value s
     else (generateRandomString maxAlloc Intn allocate n m).1
          = Panics "runtime error: makeslice: len out of range").
Proof.
  intros Hrange.
  cut (as_promised n (generateRandomString maxAlloc Intn allocate n m).1
       ∧ (enough_memory n →
          ∀ msg, (generateRandomString maxAlloc Intn allocate n m).1 ≠ Fatal msg)).
  { intros [Hp Hf]. split; [exact Hp|]. intros Hmem. specialize (Hf Hmem).
    destruct (generateRandomString maxAlloc Intn allocate n m).1 as [s|msg|msg];
      simpl in Hp.
    - rewrite decide_True by tauto. by exists s.
    - destruct Hp as [Hn ->]. rewrite decide_False by lia. done.
    - by destruct (Hf msg). }
  assert (Hfill : ∀ m0, (0 ≤ n)%Z → ∃ b m',
            fill Intn (seq 0 (length (replicate (Z.to_nat n) Ascii.zero)))
                 (replicate (Z.to_nat n) Ascii.zero) m0 = (Value b, m')
            ∧ length b = Z.to_nat n ∧ Forall (λ c, c ∈ letter) b).
  { intros m0 Hn. rewrite length_replicate.
    destruct (fill_letters [] (Z.to_nat n) (replicate (Z.to_nat n) Ascii.zero) m0 Hrange)
      as (b & m' & Hb & Hlb & Hall); [by rewrite length_replicate | done |].
    simpl in Hb, Hlb. by exists b, m'. }
  split.
  - unfold generateRandomString.
    match goal with
    | |- context [allocating allocate ?a ?k m] =>
        destruct (allocating_cases a k m) as [->|(m1 & _ & ->)]; [done|]
    end.
    destruct (Z.ltb_spec n 0) as [Hneg|Hpos]; [simpl; split; [lia | done]|].
    destruct (Z.ltb_spec maxAlloc (4 * n)) as [Hbig|Hsmall]; [simpl; split; [lia | done]|].
    cbn [orb].
    match goal with
    | |- context [allocating allocate ?a ?k m1] =>
        destruct (allocating_cases a k m1) as [->|(m2 & _ & ->)]; [done|]
    end.
    cbv zeta. destruct (Hfill m2 Hpos) as (b & m3 & -> & Hlb & Hall).
    match goal with
    | |- context [allocating allocate ?a ?k m3] =>
        destruct (allocating_cases a k m3) as [->|(m4 & _ & ->)]; [done|]
    end.
    simpl. rewrite length_string_of_list_ascii,
      String.list_ascii_of_string_of_list_ascii.
    split_and!; [lia | lia | done | done].
  - intros Hmem msg. unfold generateRandomString, allocating.
    change (Z.of_nat (length letter)) with 52%Z.
    destruct (Hmem (Runes 52) m ltac:(set_solver)) as [m1 ->].
    destruct (Z.ltb_spec n 0) as [Hneg|Hpos]; [done|].
    destruct (Z.ltb_spec maxAlloc (4 * n)) as [Hbig|Hsmall]; [done|].
    cbn [orb].
    destruct (Hmem (Runes n) m1 ltac:(set_solver)) as [m2 ->].
    cbv zeta. destruct (Hfill m2 Hpos) as (b & m3 & -> & Hlb & Hall).
    rewrite Hlb, Z2Nat.id by lia.
    by destruct (Hmem (Bytes n) m3 ltac:(set_solver)) as [m4 ->].
Qed.

End Facts.

(** Eight letters from the generator that counts, on a machine with memory
    to spare. *)
Lemma generateRandomString_letters_witness :
  let r := generateRandomString (2 ^ 48) Sample.counting_Intn (λ _ m, Some m) 8 0%Z in
  r = (Value "abcdefgh", 8%Z)
  ∧ as_promised (2 ^ 48) 8 r.1.
Proof.
  intros r. split; [reflexivity|].
  refine (proj1 (generateRandomString_letters (2 ^ 48) Sample.counting_Intn
                   (λ _ m, Some m) 8 0%Z _)).
  intros n m Hn. unfold Sample.counting_Intn. simpl. apply Z.mod_pos_bound. lia.
Defined.

End RandomFacts.

(** ** The selector clause, again *)

Module SelectorFacts.
Import SelectiveDeployment.

Lemma valid_clause_app (a b : list (string * json)) :
  valid_clause (a ++ b) = valid_clause a && valid_clause b.
Proof. unfold valid_clause. apply forallb_app. Qed.

(** X23. The schema admits a clause only if its [operator] is [In] or [NotIn]
    and its [value] a string. It requires none of the three properties (the
    empty clause is valid), says nothing of others, and checks the properties
    of a clause one by one. *)
Theorem valid_clause_operator (clause : list (string * json)) :
  (valid_clause clause = true →
   (∀ v, ("operator", v) ∈ clause → v = JString "In" ∨ v = JString "NotIn")
   ∧ (∀ v, ("value", v) ∈ clause → ∃ s, v = JString s))
  ∧ valid_clause [] = true
  ∧ (∀ name v, property_of name = None →
       valid_clause ((name, v) :: clause) = valid_clause clause).
Proof.
  split_and!; [|done|].
  - unfold valid_clause. rewrite forallb_forall. intros Hall. split.
    + intros v Hin. apply list_elem_of_In in Hin. specialize (Hall _ Hin).
      simpl in Hall. destruct v as [s|n|]; try done.
      change (valid_property (Property "string" (Some ["In"; "NotIn"]) None) (JString s))
        with (bool_decide (s ∈ ["In"; "NotIn"]) && true) in Hall.
      rewrite andb_true_r in Hall. apply bool_decide_eq_true in Hall.
      rewrite !elem_of_cons, elem_of_nil in Hall.
      destruct Hall as [-> | [-> | []]]; auto.
    + intros v Hin. apply list_elem_of_In in Hin. specialize (Hall _ Hin).
      simpl in Hall. destruct v as [s|n|]; try done. by exists s.
  - intros name v Hnone. unfold valid_clause. simpl. by rewrite Hnone.
Qed.

End SelectorFacts.
